(** * Benchmark_Suite: the Sudoku solver of [src/0_Test/main.cpp]

    A shallow embedding of [SudokuMap<SudokuDimension>] and of
    [SudokuSolver::run], followed by the properties of the solver.

    Conventions of the embedding.
    - [int] values are [Z]. From a call with [x = 0], [y = 0] and
      [depth = 1] every [int] the solver computes stays between [0] and
      [SudokuDimension * SudokuDimension + 1], so no signed overflow is
      modelled; the theorems that need it assume that
      [SudokuDimension * SudokuDimension] fits in an [int], which is what
      the constant expression in the constructor requires.
    - [size_t] values are [Z] reduced modulo [2^64].
    - [std::vector<int>] is a [list Z], read with stdpp's lookup and written
      with stdpp's insert; [std::vector::at] throws out of range and so
      does the model.
    - A C++ exception is the [Throw] outcome of the [result] monad.
    - [std::shared_ptr<SudokuMap>] is an [option SudokuMap], [nullptr]
      being [None].
    - The reference parameter [SudokuMap& sudoku] of [run] is threaded:
      [run] returns the state of the referenced map next to its result. *)

From Stdlib Require Import ZArith Lia Bool.
From stdpp Require Import base numbers list strings.

Local Open Scope Z_scope.

(** ** Outcomes and exceptions *)

Inductive exn : Type :=
| runtime_error   (* std::runtime_error, thrown by the constructor *)
| out_of_range.   (* std::out_of_range, thrown by std::vector::at *)

(** [OutOfFuel] is the outcome of the fuel-indexed recursion when the fuel
    is exhausted; [run_total] shows that [run] never produces it. *)
Inductive result (A : Type) : Type :=
| Ok (a : A)
| Throw (e : exn)
| OutOfFuel.

Arguments Ok {A} a.
Arguments Throw {A} e.
Arguments OutOfFuel {A}.

Definition bind {A B : Type} (m : result A) (k : A -> result B) : result B :=
  match m with
  | Ok a => k a
  | Throw e => Throw e
  | OutOfFuel => OutOfFuel
  end.

Notation "x <- m ;; k" := (bind m (fun x => k))
  (at level 100, m at next level, right associativity).

(** The computation ends without exhausting its fuel. *)
Definition finishes {A : Type} (r : result A) : Prop := r <> OutOfFuel.

(** ** Loops

    [for (int i = lo; i < hi; i++) body], where the body either goes on
    with an updated loop state or returns from the enclosing function. *)

Inductive flow (S R : Type) : Type :=
| Continue (s : S)
| Return (r : R).

Arguments Continue {S R} s.
Arguments Return {S R} r.

Fixpoint for_upto {S R : Type} (n : nat) (i : Z) (s : S)
    (body : Z -> S -> result (flow S R)) : result (flow S R) :=
  match n with
  | O => Ok (Continue s)
  | Datatypes.S n' =>
      f <- body i s ;;
      match f with
      | Continue s' => for_upto n' (i + 1) s' body
      | Return r => Ok (Return r)
      end
  end.

Definition for_range {S R : Type} (lo hi : Z) (s : S)
    (body : Z -> S -> result (flow S R)) : result (flow S R) :=
  for_upto (Z.to_nat (hi - lo)) lo s body.

Fixpoint mapM {A B : Type} (f : A -> result B) (l : list A) : result (list B) :=
  match l with
  | [] => Ok []
  | a :: l' => b <- f a ;; bs <- mapM f l' ;; Ok (b :: bs)
  end.

(** ** Machine integers *)

Definition size_t (z : Z) : Z := z mod 2 ^ 64.

(** ** SudokuMap *)

Record SudokuMap : Type := mkSudokuMap { elements_ : list Z }.

(** [std::vector<int>::at]. *)
Definition vector_at (v : list Z) (pos : Z) : result Z :=
  match v !! Z.to_nat pos with
  | Some e => Ok e
  | None => Throw out_of_range
  end.

(** [v.at(pos) = i]. *)
Definition vector_at_put (v : list Z) (pos : Z) (i : Z) : result (list Z) :=
  match v !! Z.to_nat pos with
  | Some _ => Ok (<[Z.to_nat pos := i]> v)
  | None => Throw out_of_range
  end.

(** ** The parallel region

    The tasks of one fork-point share nothing but the [solution] pointer,
    and they touch it in a critical region only. A fork-point is therefore
    modelled by the results of its tasks and the order in which the tasks
    pass the critical region.

    The state of a fork-point: the sub-solutions of the tasks that have not
    yet passed, the shared [solution] pointer, and the number of
    assignments made to it. *)
Record fork_state : Type := mkFork {
  pending : list (option SudokuMap);
  solution : option SudokuMap;
  writes : nat
}.

(** The body of a task after its recursive call:
    [if (subSolution != nullptr) { critical: if (!solution) solution = subSolution; }] *)
Definition publish (solution subSolution : option SudokuMap) : option SudokuMap :=
  match subSolution with
  | Some s => match solution with
              | None => Some s
              | Some _ => solution
              end
  | None => solution
  end.

(** Whether the task's critical region assigns [solution]. *)
Definition assigns (solution subSolution : option SudokuMap) : bool :=
  match subSolution, solution with
  | Some _, None => true
  | _, _ => false
  end.

(** One task passes its critical region (the regions are mutually
    exclusive, so they happen one at a time, in an order the runtime
    chooses). *)
Inductive fork_step : fork_state -> fork_state -> Prop :=
| task_done (pre post : list (option SudokuMap)) (sub slot : option SudokuMap) (w : nat) :
    fork_step (mkFork (pre ++ sub :: post) slot w)
              (mkFork (pre ++ post) (publish slot sub)
                      (if assigns slot sub then Datatypes.S w else w)).

Inductive fork_steps : nat -> fork_state -> fork_state -> Prop :=
| fork_refl st : fork_steps O st st
| fork_trans n st1 st2 st3 :
    fork_step st1 st2 -> fork_steps n st2 st3 -> fork_steps (Datatypes.S n) st1 st3.

(** The executable fork-join: [picks] is the order in which the runtime lets
    the pending tasks through, each pick an index into what is still
    pending; [taskwait] ends when nothing is pending. *)
Fixpoint taskwait (n : nat) (picks : list nat) (st : fork_state) : fork_state :=
  match n with
  | O => st
  | Datatypes.S n' =>
      let k := (hd O picks mod length (pending st))%nat in
      match pending st !! k with
      | Some sub =>
          taskwait n' (tl picks)
            (mkFork (delete k (pending st)) (publish (solution st) sub)
                    (if assigns (solution st) sub then Datatypes.S (writes st) else writes st))
      | None => st
      end
  end.

Definition fork_join (picks : list nat) (subs : list (option SudokuMap)) : fork_state :=
  taskwait (length subs) picks (mkFork subs None O).

Record SudokuSolver : Type := mkSudokuSolver { maxParallelizationDepth_ : Z }.

Section Dimension.

(** The template parameter. *)
Variable SudokuDimension : Z.

(** The constructor: the element count must be the square of the dimension. *)
Definition SudokuMap_new (elements : list Z) : result SudokuMap :=
  if negb (Z.of_nat (length elements) =? size_t (SudokuDimension * SudokuDimension))
  then Throw runtime_error
  else Ok (mkSudokuMap elements).

Definition flat_index (x y : Z) : Z :=
  size_t (size_t x + size_t y * size_t SudokuDimension).

Definition getElem (m : SudokuMap) (x y : Z) : result Z :=
  vector_at (elements_ m) (flat_index x y).

Definition setElem (m : SudokuMap) (x y : Z) (i : Z) : result SudokuMap :=
  v <- vector_at_put (elements_ m) (flat_index x y) i ;;
  Ok (mkSudokuMap v).

(** [constexpr int subgridSize = std::sqrt(SudokuDimension)]: the double
    square root of an [int] truncated to [int] is the integer square root. *)
Definition subgridSize : Z := Z.sqrt SudokuDimension.

Definition differs (m : SudokuMap) (value : Z) (x y : Z) : result (flow unit bool) :=
  e <- getElem m x y ;;
  if e =? value then Ok (Return false) else Ok (Continue tt).

Definition isCandidate (m : SudokuMap) (x y value : Z) : result bool :=
  (* Check the row *)
  f <- for_range 0 SudokuDimension tt (fun col _ => differs m value x col) ;;
  match f with
  | Return b => Ok b
  | Continue _ =>
      (* Check the column *)
      f <- for_range 0 SudokuDimension tt (fun row _ => differs m value row y) ;;
      match f with
      | Return b => Ok b
      | Continue _ =>
          (* Check the subgrid *)
          let subgridRowStart := Z.quot x subgridSize * subgridSize in
          let subgridColStart := Z.quot y subgridSize * subgridSize in
          f <- for_range subgridRowStart (subgridRowStart + subgridSize) tt
                 (fun row _ =>
                    for_range subgridColStart (subgridColStart + subgridSize) tt
                      (fun col _ => differs m value row col)) ;;
          match f with
          | Return b => Ok b
          | Continue _ => Ok true
          end
      end
  end.

Section Solver.

Variable self : SudokuSolver.

(** The OpenMP runtime: at the fork-point reached with this map, cell and
    depth, the order in which the tasks pass the critical region. *)
Variable omp_schedule : SudokuMap -> Z -> Z -> Z -> list nat.

(** The value of a call of [run]: the caller's map after the call, and the
    returned pointer. *)
Definition run_result : Type := result (SudokuMap * option SudokuMap).

Section Body.

(** The recursive calls of the body go through [rec]. *)
Variable rec : SudokuMap -> Z -> Z -> Z -> run_result.

(** Lines 189-221: the single thread creates one task per candidate, each
    task works on its firstprivate copy of the map, and the parent returns
    the shared pointer after the taskwait. *)
Definition spawn (sudoku : SudokuMap) (x y : Z) (i : Z) (tasks : list Z)
    : result (flow (list Z) unit) :=
  c <- isCandidate sudoku x y i ;;
  Ok (Continue (if c then tasks ++ [i] else tasks)).

Definition task (sudoku : SudokuMap) (x y depth : Z) (i : Z)
    : result (option SudokuMap) :=
  private <- setElem sudoku x y i ;;
  r <- rec private (x + 1) y (depth + 1) ;;
  Ok (snd r).

Definition run_parallel (sudoku : SudokuMap) (x y depth : Z) : run_result :=
  f <- for_range 1 (SudokuDimension + 1) [] (spawn sudoku x y) ;;
  let tasks := match f with Continue ts => ts | Return _ => [] end in
  subs <- mapM (task sudoku x y depth) tasks ;;
  Ok (sudoku, solution (fork_join (omp_schedule sudoku x y depth) subs)).

(** Lines 225-240: the candidates in ascending order, each on a copy. *)
Definition attempt (sudoku : SudokuMap) (x y depth : Z) (i : Z) (_ : unit)
    : result (flow unit (option SudokuMap)) :=
  c <- isCandidate sudoku x y i ;;
  if c then
    newSudoku <- setElem sudoku x y i ;;
    r <- rec newSudoku (x + 1) y (depth + 1) ;;
    match snd r with
    | Some s => Ok (Return (Some s))
    | None => Ok (Continue tt)
    end
  else Ok (Continue tt).

Definition run_sequential (sudoku : SudokuMap) (x y depth : Z) : run_result :=
  f <- for_range 1 (SudokuDimension + 1) tt (attempt sudoku x y depth) ;;
  match f with
  | Return r => Ok (sudoku, r)
  | Continue _ => Ok (sudoku, None)
  end.

(** Lines 180-241: the cell [(x, y)] once the position is settled. *)
Definition visit (sudoku : SudokuMap) (x y depth : Z) : run_result :=
  e <- getElem sudoku x y ;;
  (* If the current cell is already filled, move to the next one *)
  if negb (e =? 0) then rec sudoku (x + 1) y depth
  else if depth <? maxParallelizationDepth_ self
       then run_parallel sudoku x y depth
       else run_sequential sudoku x y depth.

(** Lines 168-178, then the rest of the body. *)
Definition run_body (sudoku : SudokuMap) (x y depth : Z) : run_result :=
  (* If x is beyond the last column, move to the next row *)
  if x >=? SudokuDimension then
    let x := 0 in
    let y := y + 1 in
    if y >=? SudokuDimension
    then (* the puzzle is solved *) Ok (sudoku, Some sudoku)
    else visit sudoku x y depth
  else visit sudoku x y depth.

End Body.

Fixpoint run_fuel (fuel : nat) : SudokuMap -> Z -> Z -> Z -> run_result :=
  match fuel with
  | O => fun _ _ _ _ => OutOfFuel
  | Datatypes.S fuel' => run_body (run_fuel fuel')
  end.

(** A bound on the depth of the recursion from position [(x, y)]. *)
Definition cells_left (x y : Z) : nat :=
  (Z.to_nat (SudokuDimension - y) * (Z.to_nat SudokuDimension + 1)
   + Z.to_nat (SudokuDimension - x))%nat.

Definition run (sudoku : SudokuMap) (x y depth : Z) : run_result :=
  run_fuel (Datatypes.S (cells_left x y)) sudoku x y depth.

(** What the benchmarks do with a list of cells: construct the map, then
    call [run] on it with the default arguments [x = 0], [y = 0],
    [depth = 1]. A null pointer is the no-solution outcome. *)
Definition solve (cells : list Z) : result (option SudokuMap) :=
  sudokuMap <- SudokuMap_new cells ;;
  r <- run sudokuMap 0 0 1 ;;
  Ok (snd r).

End Solver.

End Dimension.

(** ** Lines, blocks and solved grids *)

Section Units.

Variable SudokuDimension : Z.

(** The storage holds one cell per coordinate pair. *)
Definition well_formed (m : SudokuMap) : Prop :=
  Z.of_nat (length (elements_ m)) = SudokuDimension * SudokuDimension.

(** Every cell is empty or holds a value of [1..SudokuDimension]. *)
Definition in_domain (m : SudokuMap) : Prop :=
  Forall (fun v => 0 <= v <= SudokuDimension) (elements_ m).

Definition no_zero (m : SudokuMap) : Prop :=
  Forall (fun v => v <> 0) (elements_ m).

(** The content of cell [(x, y)] of a well-formed map. *)
Definition cell (m : SudokuMap) (x y : Z) : Z :=
  default 0 (elements_ m !! Z.to_nat (x + y * SudokuDimension)).

(** The dimension is the square of its sub-block size, and its square is
    an [int]. *)
Definition valid_dimension : Prop :=
  0 < SudokuDimension /\
  subgridSize SudokuDimension * subgridSize SudokuDimension = SudokuDimension /\
  SudokuDimension * SudokuDimension < 2 ^ 31.

Definition in_grid (x y : Z) : Prop :=
  0 <= x < SudokuDimension /\ 0 <= y < SudokuDimension.

(** The three families of cell sets: the line of the cells that share the
    coordinate x, the line of the cells that share the coordinate y, and
    the square sub-blocks. Each family has [SudokuDimension] members of
    [SudokuDimension] cells. *)
Inductive family : Type := RowLine | ColumnLine | SubBlock.

(** The [k]-th cell of member [u] of a family. *)
Definition unit_cell (f : family) (u k : Z) : Z * Z :=
  match f with
  | RowLine => (u, k)
  | ColumnLine => (k, u)
  | SubBlock =>
      let s := subgridSize SudokuDimension in
      ((u mod s) * s + k mod s, (u / s) * s + k / s)
  end.

Definition unit_value (m : SudokuMap) (f : family) (u k : Z) : Z :=
  cell m (unit_cell f u k).1 (unit_cell f u k).2.

Definition unit_values (m : SudokuMap) (f : family) (u : Z) : list Z :=
  unit_value m f u <$> seqZ 0 SudokuDimension.

Fixpoint occurrences (v : Z) (l : list Z) : nat :=
  match l with
  | [] => O
  | w :: l' => if w =? v then Datatypes.S (occurrences v l') else occurrences v l'
  end.

(** Each row-line, column-line and sub-block holds each value of
    [1..SudokuDimension] exactly once. *)
Definition solved (m : SudokuMap) : Prop :=
  forall (f : family) (u v : Z),
    0 <= u < SudokuDimension -> 1 <= v <= SudokuDimension ->
    occurrences v (unit_values m f u) = 1%nat.

Definition is_solved (m : SudokuMap) : bool :=
  forallb (fun f =>
    forallb (fun u =>
      forallb (fun v => Nat.eqb (occurrences v (unit_values m f u)) 1)
              (seqZ 1 SudokuDimension))
            (seqZ 0 SudokuDimension))
          [RowLine; ColumnLine; SubBlock].

(** Two different cells of one row-line, column-line or sub-block hold the
    same non-zero value. *)
Definition has_duplicate (m : SudokuMap) : Prop :=
  exists (f : family) (u k1 k2 : Z),
    0 <= u < SudokuDimension /\ 0 <= k1 < SudokuDimension /\
    0 <= k2 < SudokuDimension /\ k1 <> k2 /\
    unit_value m f u k1 <> 0 /\ unit_value m f u k1 = unit_value m f u k2.

(** No pre-filled value is repeated in a line or block. *)
Definition legal (m : SudokuMap) : Prop :=
  forall (f : family) (u k1 k2 : Z),
    0 <= u < SudokuDimension -> 0 <= k1 < SudokuDimension ->
    0 <= k2 < SudokuDimension -> k1 <> k2 ->
    unit_value m f u k1 <> 0 ->
    unit_value m f u k1 <> unit_value m f u k2.

(** Two cells share a line or a sub-block. *)
Definition peers (x1 y1 x2 y2 : Z) : Prop :=
  x1 = x2 \/ y1 = y2 \/
  (x1 / subgridSize SudokuDimension = x2 / subgridSize SudokuDimension /\
   y1 / subgridSize SudokuDimension = y2 / subgridSize SudokuDimension).

(** The cells that the row-major scan passes before [(x, y)] are filled. *)
Definition filled_before (m : SudokuMap) (x y : Z) : Prop :=
  forall x0 y0, in_grid x0 y0 -> y0 < y \/ (y0 = y /\ x0 < x) -> cell m x0 y0 <> 0.

(** Every cell holds a value of [lo..SudokuDimension]. *)
Definition cells_within (lo : Z) (m : SudokuMap) : Prop :=
  forall x y, in_grid x y -> lo <= cell m x y <= SudokuDimension.

(** Every cell that is filled in [m] holds the same value in [s]. *)
Definition keeps_prefilled (m s : SudokuMap) : Prop :=
  forall (k : nat) (v : Z),
    elements_ m !! k = Some v -> v <> 0 -> elements_ s !! k = Some v.

(** The position [run] works on after lines 168-178. *)
Definition settle (x y : Z) : Z * Z :=
  if x >=? SudokuDimension then (0, y + 1) else (x, y).

Definition at_end (x y : Z) : bool :=
  (x >=? SudokuDimension) && (y + 1 >=? SudokuDimension).

(** The grids the search can reach from a map and a position: filled cells
    are skipped, an empty cell takes a value that [isCandidate] accepts. *)
Inductive search : SudokuMap -> Z -> Z -> SudokuMap -> Prop :=
| search_end m x y :
    at_end x y = true ->
    search m x y m
| search_skip m x y e s :
    at_end x y = false ->
    getElem SudokuDimension m (settle x y).1 (settle x y).2 = Ok e ->
    e <> 0 ->
    search m ((settle x y).1 + 1) (settle x y).2 s ->
    search m x y s
| search_place m x y i m' s :
    at_end x y = false ->
    getElem SudokuDimension m (settle x y).1 (settle x y).2 = Ok 0 ->
    1 <= i <= SudokuDimension ->
    isCandidate SudokuDimension m (settle x y).1 (settle x y).2 i = Ok true ->
    setElem SudokuDimension m (settle x y).1 (settle x y).2 i = Ok m' ->
    search m' ((settle x y).1 + 1) (settle x y).2 s ->
    search m x y s.

(** The same from a settled cell. *)
Definition search_cell (m : SudokuMap) (x y : Z) (s : SudokuMap) : Prop :=
  exists e, getElem SudokuDimension m x y = Ok e /\
    ((e <> 0 /\ search m (x + 1) y s) \/
     (e = 0 /\ exists i m',
        1 <= i <= SudokuDimension /\
        isCandidate SudokuDimension m x y i = Ok true /\
        setElem SudokuDimension m x y i = Ok m' /\
        search m' (x + 1) y s)).

(** A call is sound when it leaves its argument as it was and returns a
    grid that [search] reaches. *)
Definition sound_call (rec : SudokuMap -> Z -> Z -> Z -> run_result) (x y : Z) : Prop :=
  forall m d m2 sol, rec m x y d = Ok (m2, sol) ->
    m2 = m /\ forall s, sol = Some s -> search m x y s.

End Units.

(** The boolean form of [legal]. *)
Definition is_legal (SudokuDimension : Z) (m : SudokuMap) : bool :=
  forallb (fun f =>
    forallb (fun u =>
      forallb (fun k1 =>
        forallb (fun k2 =>
                   (k1 =? k2)
                   || (unit_value SudokuDimension m f u k1 =? 0)
                   || negb (unit_value SudokuDimension m f u k1
                            =? unit_value SudokuDimension m f u k2))
                (seqZ 0 SudokuDimension))
              (seqZ 0 SudokuDimension))
            (seqZ 0 SudokuDimension))
          [RowLine; ColumnLine; SubBlock].

(** The lexicographic order on the stored cells: the lists are equal, or
    at the first place where they differ the first list holds the smaller
    value. *)
Definition lex_le (l1 l2 : list Z) : Prop :=
  l1 = l2 \/
  exists (k : nat) (v1 v2 : Z),
    take k l1 = take k l2 /\ l1 !! k = Some v1 /\ l2 !! k = Some v2 /\ v1 < v2.

(** The grid that the sequential solver returns for the empty grid. *)
Definition empty4_first : list Z :=
  [ 1; 2; 3; 4;
    3; 4; 1; 2;
    2; 1; 4; 3;
    4; 3; 2; 1 ].

(** ** Printing and the benchmark harness *)

(** What [printBoard] sends to [std::cout], one item for each [<<]. *)
Inductive output : Type :=
| put_int (i : Z)
| put_string (s : string)
| put_endl.

(** The loop of [printBoard], with the counter [i] of the elements printed
    on the current line. *)
Fixpoint printBoard_from (SudokuDimension : Z) (i : Z) (elements : list Z)
    : list output :=
  match elements with
  | [] => []
  | elem :: rest =>
      put_int elem :: put_string ", " ::
      (let i := i + 1 in
       if i =? SudokuDimension
       then put_string "//" :: put_endl :: printBoard_from SudokuDimension 0 rest
       else printBoard_from SudokuDimension i rest)
  end.

Definition printBoard (SudokuDimension : Z) (m : SudokuMap) : list output :=
  printBoard_from SudokuDimension 0 (elements_ m).

(** One iteration of the loop of [SudokuSolverTest::Run]: the solver works
    on a copy of the input and a null result is an exception. The schedule
    of the OpenMP runtime may differ from one iteration to the next. *)
Definition Run_iteration (SudokuDimension : Z) (maxParallelizationDepth : Z)
    (omp_schedule : SudokuMap -> Z -> Z -> Z -> list nat)
    (inputSudokuMap : SudokuMap) : result unit :=
  let sudokuSolver := mkSudokuSolver maxParallelizationDepth in
  let sudokuMap := inputSudokuMap in
  r <- run SudokuDimension sudokuSolver omp_schedule sudokuMap 0 0 1 ;;
  match snd r with
  | None => Throw runtime_error
  | Some _ => Ok tt
  end.

(** [SudokuSolverTest::Run] for a number of iterations chosen by the
    benchmark library. *)
Fixpoint Run (SudokuDimension : Z) (maxParallelizationDepth : Z)
    (omp_schedules : nat -> SudokuMap -> Z -> Z -> Z -> list nat)
    (iterations : nat) (inputSudokuMap : SudokuMap) : result unit :=
  match iterations with
  | O => Ok tt
  | Datatypes.S iterations' =>
      _ <- Run_iteration SudokuDimension maxParallelizationDepth (omp_schedules O)
             inputSudokuMap ;;
      Run SudokuDimension maxParallelizationDepth (fun k => omp_schedules (Datatypes.S k))
        iterations' inputSudokuMap
  end.

(** ** Matrix2D and the loops of [1_MatrixDataAccess/main.cpp]

    The benchmarks instantiate [Matrix2D<T>] with [double]. The element
    type is a parameter here, with the value [T()] that the vector
    constructor fills in and with [+] as an arbitrary binary operation, so
    that what is proved holds for the floating-point addition whatever its
    rounding. *)

(** [for (size_t i = lo; i < hi; i += step) body]: the counter wraps around
    like a [size_t], and a loop that does not end exhausts the fuel. *)
Fixpoint for_step {S R : Type} (fuel : nat) (i hi step : Z) (s : S)
    (body : Z -> S -> result (flow S R)) : result (flow S R) :=
  match fuel with
  | O => OutOfFuel
  | Datatypes.S fuel' =>
      if i <? hi then
        f <- body i s ;;
        match f with
        | Continue s' => for_step fuel' (size_t (i + step)) hi step s' body
        | Return r => Ok (Return r)
        end
      else Ok (Continue s)
  end.

(** The counter takes values below [hi] only, so a loop that runs more than
    [hi] times repeats a value and never ends. *)
Definition for_range_step {S R : Type} (lo hi step : Z) (s : S)
    (body : Z -> S -> result (flow S R)) : result (flow S R) :=
  for_step (Datatypes.S (Z.to_nat hi)) lo hi step s body.

Section Matrix.

Variable T : Type.
Variable T_default : T.
Variable T_plus : T -> T -> T.

Record Matrix2D : Type := mkMatrix2D {
  matrix_elements : list T;
  width_ : Z;
  height_ : Z
}.

(** The constructor: [width * height] value-initialised elements. *)
Definition Matrix2D_new (width height : Z) : Matrix2D :=
  mkMatrix2D (replicate (Z.to_nat (size_t (width * height))) T_default) width height.

(** [std::vector<T>::at]. *)
Definition at_ (v : list T) (pos : Z) : result T :=
  match v !! Z.to_nat pos with
  | Some e => Ok e
  | None => Throw out_of_range
  end.

Definition Matrix2D_getElem (a : Matrix2D) (x y : Z) : result T :=
  at_ (matrix_elements a) (size_t (size_t x + size_t y * size_t (width_ a))).

Section Benchmarks.

(** [static constexpr size_t dimension = 1 << 14], kept as a parameter. *)
Variable dimension : Z.
Variable a : Matrix2D.
Variable b : list T.

(** [output.at(r) += a.getElem(r, c) + b.at(c)]: the right operand is
    evaluated before the left one. *)
Definition accumulate (output : list T) (r c : Z) : result (flow (list T) unit) :=
  av <- Matrix2D_getElem a r c ;;
  bv <- at_ b c ;;
  ov <- at_ output r ;;
  Ok (Continue (<[Z.to_nat r := T_plus ov (T_plus av bv)]> output)).

(** The body of the benchmark loop of [PlainForLoop]. *)
Definition PlainForLoop_iteration (output : list T) : result (flow (list T) unit) :=
  for_range 0 dimension output (fun i output =>
    for_range 0 dimension output (fun j output =>
      accumulate output i j)).

(** The body of the benchmark loop of [UnrollAndJam]. *)
Definition UnrollAndJam_iteration (unrollSize : Z) (output : list T)
    : result (flow (list T) unit) :=
  for_range_step 0 dimension unrollSize output (fun i output =>
    for_range 0 dimension output (fun j output =>
      for_range 0 unrollSize output (fun k output =>
        accumulate output (size_t (i + k)) j))).

(** The body of the benchmark loop of [LoopTiling]. *)
Definition LoopTiling_iteration (tileSizeX tileSizeY : Z) (output : list T)
    : result (flow (list T) unit) :=
  for_range_step 0 dimension tileSizeX output (fun i output =>
    for_range_step 0 dimension tileSizeY output (fun j output =>
      for_range 0 tileSizeX output (fun k output =>
        for_range 0 tileSizeY output (fun m output =>
          accumulate output (size_t (i + k)) (size_t (j + m)))))).

(** The term that [accumulate] adds to [output[r]] for column [c]. *)
Definition term (r c : Z) : T :=
  T_plus (default T_default (matrix_elements a !! Z.to_nat (r + c * dimension)))
         (default T_default (b !! Z.to_nat c)).

(** [output] after the terms of the columns [0 .. progress r - 1] have been
    added, in this order, to each [output[r]]. *)
Definition accumulated (progress : Z -> Z) (output : list T) : list T :=
  imap (fun r v => fold_left (fun acc c => T_plus acc (term (Z.of_nat r) c))
                             (seqZ 0 (progress (Z.of_nat r))) v)
       output.

(** The sizes that the benchmarks set up: a square matrix, and vectors of
    its dimension. *)
Definition benchmark_sizes (output : list T) : Prop :=
  0 < dimension < 2 ^ 32 /\
  width_ a = dimension /\
  Z.of_nat (length (matrix_elements a)) = dimension * dimension /\
  Z.of_nat (length b) = dimension /\
  Z.of_nat (length output) = dimension.

End Benchmarks.

End Matrix.

(** ** Sample grids of dimension 4 *)

Definition easy4 : list Z :=
  [ 1; 0; 0; 0;
    0; 0; 3; 0;
    0; 4; 0; 0;
    0; 0; 0; 2 ].

Definition easy4_solution : list Z :=
  [ 1; 3; 2; 4;
    4; 2; 3; 1;
    2; 4; 1; 3;
    3; 1; 4; 2 ].

(** Every cell filled with the same value. *)
Definition ones4 : list Z := repeat 1 16.

(** One empty cell, and the value 4 twice in the last line. *)
Definition twins4 : list Z :=
  [ 0; 3; 2; 4;
    4; 2; 3; 1;
    2; 4; 1; 3;
    3; 1; 4; 4 ].

Definition twins4_filled : list Z :=
  [ 1; 3; 2; 4;
    4; 2; 3; 1;
    2; 4; 1; 3;
    3; 1; 4; 4 ].

(** The grid that the empty grid leads to when the second pending task
    passes first at every fork-point. *)
Definition empty4_second : list Z :=
  [ 2; 3; 4; 1;
    4; 1; 3; 2;
    1; 4; 2; 3;
    3; 2; 1; 4 ].

Definition sequential_solver : SudokuSolver := mkSudokuSolver 1.
Definition parallel_solver : SudokuSolver := mkSudokuSolver 8.

(** Two schedules: the tasks pass in the order of their creation, or the
    second pending task goes first. *)
Definition in_order : SudokuMap -> Z -> Z -> Z -> list nat := fun _ _ _ _ => [].
Definition second_first : SudokuMap -> Z -> Z -> Z -> list nat := fun _ _ _ _ => [1%nat].

(** One empty cell in a solved grid. *)
Definition almost4 : list Z :=
  [ 0; 3; 2; 4;
    4; 2; 3; 1;
    2; 4; 1; 3;
    3; 1; 4; 2 ].

(** The value 1 twice in the first line, the other cells empty. *)
Definition clash4 : list Z := [1; 1] ++ repeat 0 14.

(** * Properties *)

(** ** The monad and the loops *)

Lemma bind_Ok {A B : Type} (m : result A) (k : A -> result B) (b : B) :
  bind m k = Ok b -> exists a, m = Ok a /\ k a = Ok b.
Proof. destruct m as [a| |]; simpl; intros H; [eauto | discriminate..]. Qed.

Lemma bind_ext {A B : Type} (m : result A) (k1 k2 : A -> result B) :
  (forall a, m = Ok a -> k1 a = k2 a) -> bind m k1 = bind m k2.
Proof. destruct m; simpl; auto. Qed.

Ltac inv_bind H :=
  let a := fresh "a" in
  let Ha := fresh "Ha" in
  apply bind_Ok in H; destruct H as (a & Ha & H).

Section Loops.

Context {S R : Type}.
Implicit Types (body : Z -> S -> result (flow S R)).

Lemma for_upto_ext n i s body1 body2 :
  (forall j s', i <= j < i + Z.of_nat n -> body1 j s' = body2 j s') ->
  for_upto n i s body1 = for_upto n i s body2.
Proof.
  revert i s. induction n as [|n IH]; intros i s Hb; [reflexivity|].
  simpl. rewrite Hb by lia. apply bind_ext. intros [s'|r] _; [|reflexivity].
  apply IH. intros j s'' Hj. apply Hb. lia.
Qed.

(** The invariant rule: [I] holds before each iteration, [Q] holds of
    whatever ends the loop. *)
Lemma for_upto_rule (I : Z -> S -> Prop) (Q : result (flow S R) -> Prop) n i s body :
  I i s ->
  (forall j s', i <= j < i + Z.of_nat n -> I j s' ->
     match body j s' with
     | Ok (Continue s'') => I (j + 1) s''
     | r => Q r
     end) ->
  (forall s', I (i + Z.of_nat n) s' -> Q (Ok (Continue s'))) ->
  Q (for_upto n i s body).
Proof.
  revert i s. induction n as [|n IH]; intros i s Hi Hb Hend.
  - simpl. apply Hend. replace (i + Z.of_nat 0) with i by lia. exact Hi.
  - simpl. specialize (Hb i s ltac:(lia) Hi) as Hstep.
    destruct (body i s) as [[s'|r]| |]; simpl; try exact Hstep.
    apply IH; [exact Hstep| |].
    + intros j s'' Hj. apply Hb. lia.
    + intros s'' Hs. apply Hend. replace (i + Z.of_nat (Datatypes.S n)) with (i + 1 + Z.of_nat n) by lia.
      exact Hs.
Qed.

Lemma for_range_rule (I : Z -> S -> Prop) (Q : result (flow S R) -> Prop) lo hi s body :
  I lo s ->
  (forall j s', lo <= j < hi -> I j s' ->
     match body j s' with
     | Ok (Continue s'') => I (j + 1) s''
     | r => Q r
     end) ->
  (forall s', I (Z.max lo hi) s' -> Q (Ok (Continue s'))) ->
  Q (for_range lo hi s body).
Proof.
  intros Hi Hb Hend. unfold for_range.
  apply (for_upto_rule I Q); [exact Hi| |].
  - intros j s' Hj. apply Hb. lia.
  - intros s' Hs. apply Hend.
    replace (Z.max lo hi) with (lo + Z.of_nat (Z.to_nat (hi - lo))) by lia.
    exact Hs.
Qed.

Lemma for_range_ext lo hi s body1 body2 :
  (forall j s', lo <= j < hi -> body1 j s' = body2 j s') ->
  for_range lo hi s body1 = for_range lo hi s body2.
Proof. intros Hb. apply for_upto_ext. intros j s' Hj. apply Hb. lia. Qed.

(** The loop stops at the first iteration that returns: the iterations
    after it do not matter. *)
Lemma for_upto_first n i s body k r :
  i <= k < i + Z.of_nat n ->
  (forall j, i <= j < k -> body j s = Ok (Continue s)) ->
  body k s = Ok (Return r) ->
  for_upto n i s body = Ok (Return r).
Proof.
  revert i. induction n as [|n IH]; intros i Hk Hbefore Hret; [lia|].
  simpl. destruct (Z.eq_dec i k) as [->|Hne].
  - rewrite Hret. reflexivity.
  - rewrite Hbefore by lia. simpl. apply IH; [lia| |exact Hret].
    intros j Hj. apply Hbefore. lia.
Qed.

Lemma for_range_first lo hi s body k r :
  lo <= k < hi ->
  (forall j, lo <= j < k -> body j s = Ok (Continue s)) ->
  body k s = Ok (Return r) ->
  for_range lo hi s body = Ok (Return r).
Proof. intros Hk. apply for_upto_first. lia. Qed.

End Loops.

Lemma mapM_ext {A B : Type} (f g : A -> result B) (l : list A) :
  (forall a, a ∈ l -> f a = g a) -> mapM f l = mapM g l.
Proof.
  induction l as [|a l IH]; intros H; [reflexivity|].
  simpl. rewrite (H a) by left. apply bind_ext. intros b _.
  rewrite IH; [reflexivity|]. intros a' Ha'. apply H. by right.
Qed.

Lemma mapM_Ok {A B : Type} (f : A -> result B) (l : list A) (bs : list B) :
  mapM f l = Ok bs -> Forall2 (fun a b => f a = Ok b) l bs.
Proof.
  revert bs. induction l as [|a l IH]; simpl; intros bs H.
  - injection H as <-. constructor.
  - inv_bind H. inv_bind H. injection H as <-. constructor; auto.
Qed.

(** ** Termination of [run] *)

Lemma finishes_bind {A B : Type} (m : result A) (k : A -> result B) :
  finishes m -> (forall a, m = Ok a -> finishes (k a)) -> finishes (bind m k).
Proof. unfold finishes. destruct m; simpl; auto. Qed.

Lemma for_range_finishes {S R : Type} lo hi (s : S) (body : Z -> S -> result (flow S R)) :
  (forall j s', lo <= j < hi -> finishes (body j s')) ->
  finishes (for_range lo hi s body).
Proof.
  intros Hb. apply (for_range_rule (fun _ _ => True) finishes); [exact Logic.I| |].
  - intros j s' Hj _. specialize (Hb j s' Hj).
    destruct (body j s') as [[?|?]| |]; unfold finishes in *; first [exact Logic.I | congruence].
  - unfold finishes. congruence.
Qed.

Lemma mapM_finishes {A B : Type} (f : A -> result B) (l : list A) :
  (forall a, a ∈ l -> finishes (f a)) -> finishes (mapM f l).
Proof.
  induction l as [|a l IH]; intros H; simpl; [unfold finishes; congruence|].
  apply finishes_bind; [apply H; left|]. intros b _.
  apply finishes_bind; [apply IH; intros; apply H; by right|].
  unfold finishes. congruence.
Qed.

Section Termination.

Variable N : Z.
Variable self : SudokuSolver.
Variable omp_schedule : SudokuMap -> Z -> Z -> Z -> list nat.

Local Abbreviation run_fuel' := (run_fuel N self omp_schedule).
Local Abbreviation run' := (run N self omp_schedule).
Local Abbreviation visit' := (visit N self omp_schedule).
Local Abbreviation run_body' := (run_body N self omp_schedule).

Lemma getElem_finishes m x y : finishes (getElem N m x y).
Proof. unfold getElem, vector_at, finishes. destruct (_ !! _); congruence. Qed.

Lemma setElem_finishes m x y i : finishes (setElem N m x y i).
Proof.
  unfold setElem, vector_at_put, finishes. destruct (_ !! _); simpl; congruence.
Qed.

Lemma differs_finishes m v x y : finishes (differs N m v x y).
Proof.
  unfold differs. apply finishes_bind; [apply getElem_finishes|].
  intros e _. unfold finishes. destruct (e =? v); congruence.
Qed.

Lemma isCandidate_finishes m x y v : finishes (isCandidate N m x y v).
Proof.
  unfold isCandidate.
  apply finishes_bind; [apply for_range_finishes; intros; apply differs_finishes|].
  intros [?|?] _; [|unfold finishes; congruence].
  apply finishes_bind; [apply for_range_finishes; intros; apply differs_finishes|].
  intros [?|?] _; [|unfold finishes; congruence].
  apply finishes_bind.
  - apply for_range_finishes; intros.
    apply for_range_finishes; intros. apply differs_finishes.
  - intros [?|?] _; unfold finishes; congruence.
Qed.

(** The body calls [rec] at the next cell only, and at its own depth or
    deeper. *)
Lemma visit_ext rec1 rec2 m x y d :
  (forall m' d', d <= d' -> rec1 m' (x + 1) y d' = rec2 m' (x + 1) y d') ->
  visit' rec1 m x y d = visit' rec2 m x y d.
Proof.
  intros Hrec. unfold visit. apply bind_ext. intros e _.
  destruct (negb (e =? 0)); [apply Hrec; lia|].
  destruct (d <? maxParallelizationDepth_ self).
  - unfold run_parallel. apply bind_ext. intros f _.
    f_equal. apply mapM_ext. intros i _. unfold task.
    apply bind_ext. intros p _. rewrite Hrec by lia. reflexivity.
  - unfold run_sequential. f_equal. apply for_range_ext. intros i [] _.
    unfold attempt. apply bind_ext. intros [|] _; [|reflexivity].
    apply bind_ext. intros p _. rewrite Hrec by lia. reflexivity.
Qed.

Lemma visit_finishes rec m x y d :
  (forall m' d', finishes (rec m' (x + 1) y d')) ->
  finishes (visit' rec m x y d).
Proof.
  intros Hrec. unfold visit.
  apply finishes_bind; [apply getElem_finishes|]. intros e _.
  destruct (negb (e =? 0)); [apply Hrec|].
  destruct (d <? maxParallelizationDepth_ self).
  - unfold run_parallel. apply finishes_bind.
    { apply for_range_finishes. intros i ts _. unfold spawn.
      apply finishes_bind; [apply isCandidate_finishes|].
      intros; unfold finishes; congruence. }
    intros f _. apply finishes_bind; [|intros; unfold finishes; congruence].
    apply mapM_finishes. intros i _. unfold task.
    apply finishes_bind; [apply setElem_finishes|]. intros p _.
    apply finishes_bind; [apply Hrec|]. intros; unfold finishes; congruence.
  - unfold run_sequential. apply finishes_bind.
    { apply for_range_finishes. intros i [] _. unfold attempt.
      apply finishes_bind; [apply isCandidate_finishes|]. intros [|] _.
      - apply finishes_bind; [apply setElem_finishes|]. intros p _.
        apply finishes_bind; [apply Hrec|].
        intros [? [?|]] _; unfold finishes; simpl; congruence.
      - unfold finishes; congruence. }
    intros [?|?] _; unfold finishes; congruence.
Qed.

Lemma cells_left_stay x y :
  x < N -> (cells_left N (x + 1) y < cells_left N x y)%nat.
Proof. unfold cells_left. lia. Qed.

Lemma cells_left_wrap x y :
  N <= x -> y + 1 < N -> (cells_left N (0 + 1) (y + 1) < cells_left N x y)%nat.
Proof.
  unfold cells_left. intros Hx Hy.
  replace (Z.to_nat (N - y)) with (Datatypes.S (Z.to_nat (N - (y + 1)))) by lia.
  lia.
Qed.

(** With fuel above [cells_left], the fuel does not matter. *)
Lemma run_fuel_stable n1 n2 m x y d :
  (cells_left N x y < n1)%nat -> (cells_left N x y < n2)%nat ->
  run_fuel' n1 m x y d = run_fuel' n2 m x y d.
Proof.
  revert n2 m x y d. induction n1 as [|n1 IH]; intros n2 m x y d H1 H2; [lia|].
  destruct n2 as [|n2]; [lia|]. simpl. unfold run_body.
  destruct (x >=? N) eqn:Hx.
  - cbv zeta. destruct (y + 1 >=? N) eqn:Hy; [reflexivity|].
    apply visit_ext. intros m' d' _.
    pose proof (cells_left_wrap x y ltac:(lia) ltac:(lia)).
    apply IH; lia.
  - apply visit_ext. intros m' d' _.
    pose proof (cells_left_stay x y ltac:(lia)).
    apply IH; lia.
Qed.

(** [run] satisfies the recursive equation of the source function. *)
Lemma run_unfold m x y d : run' m x y d = run_body' run' m x y d.
Proof.
  unfold run at 1. simpl. unfold run_body.
  destruct (x >=? N) eqn:Hx.
  - cbv zeta. destruct (y + 1 >=? N) eqn:Hy; [reflexivity|].
    apply visit_ext. intros m' d' _. unfold run.
    pose proof (cells_left_wrap x y ltac:(lia) ltac:(lia)).
    apply run_fuel_stable; lia.
  - apply visit_ext. intros m' d' _. unfold run.
    pose proof (cells_left_stay x y ltac:(lia)).
    apply run_fuel_stable; lia.
Qed.

Lemma run_fuel_finishes n m x y d :
  (cells_left N x y < n)%nat -> finishes (run_fuel' n m x y d).
Proof.
  revert m x y d. induction n as [|n IH]; intros m x y d Hn; [lia|].
  simpl. unfold run_body.
  destruct (x >=? N) eqn:Hx.
  - cbv zeta. destruct (y + 1 >=? N) eqn:Hy; [unfold finishes; congruence|].
    apply visit_finishes. intros m' d'.
    pose proof (cells_left_wrap x y ltac:(lia) ltac:(lia)).
    apply IH; lia.
  - apply visit_finishes. intros m' d'.
    pose proof (cells_left_stay x y ltac:(lia)).
    apply IH; lia.
Qed.

(** [run] is total: the fuel of its definition is never exhausted. *)
Lemma run_total m x y d : finishes (run' m x y d).
Proof. apply run_fuel_finishes. lia. Qed.

End Termination.

(** ** Coordinates and storage *)

Section Geometry.

Variable N : Z.
Hypothesis N_valid : valid_dimension N.

Local Abbreviation s := (subgridSize N).

Lemma N_pos : 0 < N.
Proof. apply N_valid. Qed.

Lemma N_int : N * N < 2 ^ 31.
Proof. apply N_valid. Qed.

Lemma s_square : s * s = N.
Proof. apply N_valid. Qed.

Lemma s_pos : 0 < s.
Proof.
  pose proof N_pos. pose proof s_square.
  pose proof (Z.sqrt_nonneg N). unfold subgridSize in *. nia.
Qed.

Lemma N_small : N < 2 ^ 31.
Proof. pose proof N_pos. pose proof N_int. nia. Qed.

Lemma flat_bounds x y : in_grid N x y -> 0 <= x + y * N < N * N.
Proof. unfold in_grid. nia. Qed.

Lemma flat_inj x1 y1 x2 y2 :
  in_grid N x1 y1 -> in_grid N x2 y2 ->
  x1 + y1 * N = x2 + y2 * N -> x1 = x2 /\ y1 = y2.
Proof.
  unfold in_grid. intros H1 H2 Heq.
  assert (y1 = y2) by nia. subst. lia.
Qed.

Lemma size_t_small z : 0 <= z < 2 ^ 64 -> size_t z = z.
Proof. intros. unfold size_t. apply Z.mod_small. lia. Qed.

Lemma flat_index_in_grid x y : in_grid N x y -> flat_index N x y = x + y * N.
Proof.
  intros Hxy. pose proof (flat_bounds x y Hxy). pose proof N_small.
  pose proof N_int. pose proof N_pos. unfold in_grid in Hxy. unfold flat_index.
  rewrite (size_t_small x), (size_t_small y), (size_t_small N) by lia.
  apply size_t_small. lia.
Qed.

Lemma lookup_in_grid m x y :
  well_formed N m -> in_grid N x y ->
  elements_ m !! Z.to_nat (x + y * N) = Some (cell N m x y).
Proof.
  intros Hwf Hxy. pose proof (flat_bounds x y Hxy). unfold well_formed in Hwf.
  unfold cell.
  destruct (elements_ m !! Z.to_nat (x + y * N)) as [e|] eqn:He; [reflexivity|].
  apply lookup_ge_None in He. lia.
Qed.

Lemma getElem_in_grid m x y :
  well_formed N m -> in_grid N x y -> getElem N m x y = Ok (cell N m x y).
Proof.
  intros Hwf Hxy. unfold getElem, vector_at.
  rewrite flat_index_in_grid, lookup_in_grid by assumption. reflexivity.
Qed.

Lemma setElem_in_grid m x y i :
  well_formed N m -> in_grid N x y ->
  setElem N m x y i = Ok (mkSudokuMap (<[Z.to_nat (x + y * N) := i]> (elements_ m))).
Proof.
  intros Hwf Hxy. unfold setElem, vector_at_put.
  rewrite flat_index_in_grid, lookup_in_grid by assumption. reflexivity.
Qed.

Lemma setElem_well_formed m x y i m' :
  setElem N m x y i = Ok m' -> well_formed N m -> well_formed N m'.
Proof.
  unfold setElem, vector_at_put, well_formed. intros H Hwf.
  destruct (_ !! _); [|discriminate]. simpl in H. injection H as <-.
  simpl. rewrite length_insert. exact Hwf.
Qed.

Lemma cell_setElem m x y i m' x' y' :
  well_formed N m -> in_grid N x y -> in_grid N x' y' ->
  setElem N m x y i = Ok m' ->
  cell N m' x' y' = if decide (x' = x /\ y' = y) then i else cell N m x' y'.
Proof.
  intros Hwf Hxy Hxy' Hset. rewrite setElem_in_grid in Hset by assumption.
  injection Hset as <-. unfold cell at 1. simpl.
  pose proof (flat_bounds x y Hxy). pose proof (flat_bounds x' y' Hxy').
  destruct (decide (x' = x /\ y' = y)) as [[-> ->]|Hne].
  - rewrite list_lookup_insert_eq; [reflexivity|]. unfold well_formed in Hwf. lia.
  - rewrite list_lookup_insert_ne; [reflexivity|].
    intros Heq. apply Hne.
    apply (flat_inj x' y' x y Hxy' Hxy). lia.
Qed.


(** ** The candidate check *)

(** A loop of [differs] over cells of the grid finds the first cell that
    holds the value, or passes all of them. *)
Lemma scan_spec m v lo hi (cx cy : Z -> Z) :
  well_formed N m ->
  (forall k, lo <= k < hi -> in_grid N (cx k) (cy k)) ->
  (for_range lo hi tt (fun k _ => differs N m v (cx k) (cy k)) = Ok (Return false)
   /\ exists k, lo <= k < hi /\ cell N m (cx k) (cy k) = v)
  \/
  (for_range lo hi tt (fun k _ => differs N m v (cx k) (cy k)) = Ok (Continue tt)
   /\ forall k, lo <= k < hi -> cell N m (cx k) (cy k) <> v).
Proof.
  intros Hwf Hin.
  apply (for_range_rule
           (fun j _ => forall k, lo <= k < j -> cell N m (cx k) (cy k) <> v)
           (fun r => (r = Ok (Return false)
                      /\ exists k, lo <= k < hi /\ cell N m (cx k) (cy k) = v)
                     \/ (r = Ok (Continue tt)
                         /\ forall k, lo <= k < hi -> cell N m (cx k) (cy k) <> v))).
  - intros k Hk. lia.
  - intros j [] Hj Hinv. unfold differs.
    rewrite getElem_in_grid by auto. simpl.
    destruct (Z.eqb_spec (cell N m (cx j) (cy j)) v) as [Heq|Hne].
    + left. split; [reflexivity|]. exists j. split; [lia|exact Heq].
    + intros k Hk. destruct (Z.eq_dec k j) as [->|]; [exact Hne|]. apply Hinv. lia.
  - intros [] Hinv. right. split; [reflexivity|].
    intros k Hk. apply Hinv. lia.
Qed.

Lemma block_scan_spec m v rs cs :
  well_formed N m ->
  (forall r c, rs <= r < rs + s -> cs <= c < cs + s -> in_grid N r c) ->
  let loop :=
    for_range rs (rs + s) tt
      (fun row _ => for_range cs (cs + s) tt (fun col _ => differs N m v row col)) in
  (loop = Ok (Return false)
   /\ exists r c, rs <= r < rs + s /\ cs <= c < cs + s /\ cell N m r c = v)
  \/
  (loop = Ok (Continue tt)
   /\ forall r c, rs <= r < rs + s -> cs <= c < cs + s -> cell N m r c <> v).
Proof.
  intros Hwf Hin loop. subst loop.
  apply (for_range_rule
           (fun j _ => forall r c, rs <= r < j -> cs <= c < cs + s -> cell N m r c <> v)
           (fun res => (res = Ok (Return false)
                        /\ exists r c, rs <= r < rs + s /\ cs <= c < cs + s
                                       /\ cell N m r c = v)
                       \/ (res = Ok (Continue tt)
                           /\ forall r c, rs <= r < rs + s -> cs <= c < cs + s ->
                                          cell N m r c <> v))).
  - intros r c Hr. lia.
  - intros j [] Hj Hinv.
    destruct (scan_spec m v cs (cs + s) (fun _ => j) (fun c => c) Hwf) as [[-> Hex]|[-> Hall]].
    + intros c Hc. apply Hin; lia.
    + left. split; [reflexivity|]. destruct Hex as (c & Hc & Hv). exists j, c. auto.
    + intros r c Hr Hc. destruct (Z.eq_dec r j) as [->|]; [apply Hall; lia|].
      apply Hinv; lia.
  - intros [] Hinv. right. split; [reflexivity|].
    intros r c Hr Hc. apply Hinv; lia.
Qed.

Lemma block_start_bounds x :
  0 <= x < N -> 0 <= x / s * s /\ x / s * s <= x < x / s * s + s /\ x / s * s + s <= N.
Proof.
  intros Hx. pose proof s_pos. pose proof s_square.
  pose proof (Z.div_mod x s ltac:(lia)). pose proof (Z.mod_pos_bound x s ltac:(lia)).
  assert (0 <= x / s) by (apply Z.div_pos; lia).
  assert (x / s < s) by (apply Z.div_lt_upper_bound; lia).
  nia.
Qed.

(** What [isCandidate] returns on a cell of a well-formed map. *)
Lemma isCandidate_in_grid m x y v :
  well_formed N m -> in_grid N x y ->
  exists b, isCandidate N m x y v = Ok b /\
    (b = false <->
       (exists col, 0 <= col < N /\ cell N m x col = v) \/
       (exists row, 0 <= row < N /\ cell N m row y = v) \/
       (exists row col, x / s * s <= row < x / s * s + s /\
                        y / s * s <= col < y / s * s + s /\
                        cell N m row col = v)).
Proof.
  intros Hwf [Hx Hy]. unfold isCandidate.
  destruct (scan_spec m v 0 N (fun _ => x) (fun c => c) Hwf) as [[-> Hex]|[-> Hrow]].
  { intros k Hk. split; lia. }
  { exists false. simpl. split; [reflexivity|]. tauto. }
  simpl.
  destruct (scan_spec m v 0 N (fun r => r) (fun _ => y) Hwf) as [[-> Hex]|[-> Hcol]].
  { intros k Hk. split; lia. }
  { exists false. simpl. split; [reflexivity|]. tauto. }
  simpl.
  rewrite !Z.quot_div_nonneg by (pose proof s_pos; lia).
  pose proof (block_start_bounds x Hx) as Hbx.
  pose proof (block_start_bounds y Hy) as Hby.
  destruct (block_scan_spec m v (x / s * s) (y / s * s) Hwf) as [[-> Hex]|[-> Hblk]].
  { intros r c Hr Hc. split; lia. }
  { exists false. simpl. split; [reflexivity|]. tauto. }
  simpl. exists true. split; [reflexivity|]. split; [discriminate|].
  intros [(c & Hc & Hv)|[(r & Hr & Hv)|(r & c & Hr & Hc & Hv)]]; exfalso.
  - exact (Hrow c Hc Hv).
  - exact (Hcol r Hr Hv).
  - exact (Hblk r c Hr Hc Hv).
Qed.

End Geometry.

(** ** The fork-join *)

Lemma publish_Some slot sub s :
  publish slot sub = Some s -> slot = Some s \/ (slot = None /\ sub = Some s).
Proof. destruct sub, slot; simpl; intros H; auto. Qed.

Lemma taskwait_solution n picks st s :
  solution (taskwait n picks st) = Some s ->
  solution st = Some s \/ Some s ∈ pending st.
Proof.
  revert picks st. induction n as [|n IH]; intros picks st H; simpl in H; [auto|].
  destruct (pending st !! _) as [sub|] eqn:Hsub; [|auto].
  apply IH in H. simpl in H. destruct H as [H|H].
  - apply publish_Some in H as [H|[_ ->]]; [auto|].
    right. apply list_elem_of_lookup. eauto.
  - right. eapply list_elem_of_delete_inv. exact H.
Qed.

Lemma fork_join_solution picks subs s :
  solution (fork_join picks subs) = Some s -> Some s ∈ subs.
Proof.
  unfold fork_join. intros H. apply taskwait_solution in H as [H|H]; [discriminate|exact H].
Qed.

(** ** Soundness of [run] with respect to [search] *)

Section Soundness.

Variable N : Z.
Variable self : SudokuSolver.
Variable omp_schedule : SudokuMap -> Z -> Z -> Z -> list nat.

Local Abbreviation run_fuel' := (run_fuel N self omp_schedule).
Local Abbreviation run' := (run N self omp_schedule).
Local Abbreviation visit' := (visit N self omp_schedule).
Local Abbreviation run_parallel' := (run_parallel N omp_schedule).
Local Abbreviation run_sequential' := (run_sequential N).

Lemma search_of_cell m x y s :
  at_end N x y = false ->
  search_cell N m (settle N x y).1 (settle N x y).2 s ->
  search N m x y s.
Proof.
  intros Hend (e & He & [[Hne Hs]|[-> (i & m' & Hi & Hc & Hset & Hs)]]).
  - eapply search_skip; eauto.
  - eapply search_place; eauto.
Qed.

(** The tasks created by the single thread: the accepted candidates. *)
Lemma spawn_loop_spec m x y f :
  for_range 1 (N + 1) [] (spawn N m x y) = Ok f ->
  exists tasks, f = Continue tasks /\
    forall i, i ∈ tasks <-> 1 <= i <= N /\ isCandidate N m x y i = Ok true.
Proof.
  revert f.
  apply (for_range_rule
           (fun j ts => forall i, i ∈ ts <-> 1 <= i < j /\ isCandidate N m x y i = Ok true)
           (fun r => forall f, r = Ok f ->
              exists tasks, f = Continue tasks /\
                forall i, i ∈ tasks <-> 1 <= i <= N /\ isCandidate N m x y i = Ok true)).
  - intros i. split; [intros H; inversion H | lia].
  - intros j ts Hj Hinv. unfold spawn.
    destruct (isCandidate N m x y j) as [c| |] eqn:Hc; simpl; try discriminate.
    intros i. destruct c.
    + rewrite elem_of_app, list_elem_of_singleton, Hinv. split.
      * intros [[? ?]| ->]; [split; [lia|assumption] | split; [lia|assumption]].
      * intros [Hi Hci]. destruct (Z.eq_dec i j); [auto|left; split; [lia|assumption]].
    + rewrite Hinv. split.
      * intros [? ?]. split; [lia|assumption].
      * intros [Hi Hci]. destruct (Z.eq_dec i j) as [->|]; [congruence|split; [lia|assumption]].
  - intros ts Hinv f [= <-]. exists ts. split; [reflexivity|].
    intros i. rewrite Hinv. split; intros [? ?]; (split; [lia|assumption]).
Qed.

Lemma run_parallel_sound rec m x y d m2 sol :
  sound_call N rec (x + 1) y ->
  getElem N m x y = Ok 0 ->
  run_parallel' rec m x y d = Ok (m2, sol) ->
  m2 = m /\ forall s, sol = Some s -> search_cell N m x y s.
Proof.
  intros Hrec Hget H. unfold run_parallel in H.
  apply bind_Ok in H as (f & Hf & H). apply bind_Ok in H as (subs & Hsubs & H).
  injection H as <- <-. split; [reflexivity|]. intros s Hs.
  apply spawn_loop_spec in Hf as (tasks & -> & Htasks).
  apply fork_join_solution in Hs. apply mapM_Ok in Hsubs.
  apply list_elem_of_lookup in Hs as [k Hk].
  destruct (Forall2_lookup_r _ _ _ _ _ Hsubs Hk) as (i & Hi & Htask).
  assert (i ∈ tasks) as Hin by (apply list_elem_of_lookup; eauto).
  apply Htasks in Hin as [Hrange Hcand].
  unfold task in Htask. apply bind_Ok in Htask as (m' & Hset & Htask).
  apply bind_Ok in Htask as ([m3 sub] & Hcall & Htask). simpl in Htask.
  injection Htask as ->. apply Hrec in Hcall as [_ Hsearch].
  exists 0. split; [exact Hget|]. right. split; [reflexivity|].
  exists i, m'. auto.
Qed.

Lemma run_sequential_sound rec m x y d m2 sol :
  sound_call N rec (x + 1) y ->
  getElem N m x y = Ok 0 ->
  run_sequential' rec m x y d = Ok (m2, sol) ->
  m2 = m /\ forall s, sol = Some s -> search_cell N m x y s.
Proof.
  intros Hrec Hget H. unfold run_sequential in H.
  apply bind_Ok in H as (f & Hf & H).
  assert (match f with
          | Return (Some s) => search_cell N m x y s
          | Return None => False
          | Continue _ => True
          end) as Hfound.
  { clear H. revert f Hf.
    apply (for_range_rule (fun _ _ => True)
             (fun r => forall f, r = Ok f ->
                match f with
                | Return (Some s) => search_cell N m x y s
                | Return None => False
                | Continue _ => True
                end)); [exact Logic.I| |].
    - intros i [] Hi _. unfold attempt.
      destruct (isCandidate N m x y i) as [[|]| |] eqn:Hc; simpl; try discriminate;
        [|exact Logic.I].
      destruct (setElem N m x y i) as [m'| |] eqn:Hset; simpl; try discriminate.
      destruct (rec m' (x + 1) y (d + 1)) as [[m3 sub]| |] eqn:Hcall; simpl;
        try discriminate.
      destruct sub as [s|]; [|exact Logic.I].
      intros f [= <-]. apply Hrec in Hcall as [_ Hsearch].
      exists 0. split; [exact Hget|]. right. split; [reflexivity|].
      exists i, m'. repeat split; try assumption; try lia. auto.
    - intros [] _ f [= <-]. exact Logic.I. }
  destruct f as [[]|r].
  - injection H as <- <-. split; [reflexivity|discriminate].
  - injection H as <- <-. split; [reflexivity|]. intros s ->. exact Hfound.
Qed.

Lemma visit_sound rec m x y d m2 sol :
  sound_call N rec (x + 1) y ->
  visit' rec m x y d = Ok (m2, sol) ->
  m2 = m /\ forall s, sol = Some s -> search_cell N m x y s.
Proof.
  intros Hrec H. unfold visit in H.
  apply bind_Ok in H as (e & Hget & H).
  destruct (Z.eqb_spec e 0) as [->|Hne]; simpl in H.
  - destruct (d <? maxParallelizationDepth_ self).
    + eapply run_parallel_sound; eauto.
    + eapply run_sequential_sound; eauto.
  - apply Hrec in H as [-> Hs]. split; [reflexivity|].
    intros s Hsol. exists e. split; [exact Hget|]. left. auto.
Qed.

Lemma run_fuel_sound n x y : sound_call N (run_fuel' n) x y.
Proof.
  revert x y. induction n as [|n IH]; intros x y m d m2 sol H; [discriminate|].
  simpl in H. unfold run_body in H.
  destruct (x >=? N) eqn:Hx.
  - cbv zeta in H. destruct (y + 1 >=? N) eqn:Hy.
    + injection H as <- <-. split; [reflexivity|]. intros s [= <-].
      apply search_end. unfold at_end. rewrite Hx, Hy. reflexivity.
    + apply visit_sound in H as [-> Hs]; [|apply IH].
      split; [reflexivity|]. intros s Hsol. apply search_of_cell.
      * unfold at_end. rewrite Hx, Hy. reflexivity.
      * unfold settle. rewrite Hx. simpl. auto.
  - apply visit_sound in H as [-> Hs]; [|apply IH].
    split; [reflexivity|]. intros s Hsol. apply search_of_cell.
    + unfold at_end. rewrite Hx. reflexivity.
    + unfold settle. rewrite Hx. simpl. auto.
Qed.

Lemma run_sound x y : sound_call N run' x y.
Proof. intros m d m2 sol. apply run_fuel_sound. Qed.

End Soundness.

(** ** What [search] preserves *)

Lemma setElem_inv N m x y i m' :
  setElem N m x y i = Ok m' ->
  exists old, getElem N m x y = Ok old /\
    elements_ m' = <[Z.to_nat (flat_index N x y) := i]> (elements_ m).
Proof.
  unfold setElem, getElem, vector_at_put, vector_at. intros H.
  destruct (elements_ m !! _) as [old|]; [|discriminate].
  simpl in H. injection H as <-. eauto.
Qed.

Lemma keeps_prefilled_refl m : keeps_prefilled m m.
Proof. intros k v H _. exact H. Qed.

Lemma keeps_prefilled_setElem N m x y i m' :
  getElem N m x y = Ok 0 -> setElem N m x y i = Ok m' -> keeps_prefilled m m'.
Proof.
  intros Hget Hset k v Hk Hv.
  apply setElem_inv in Hset as (old & Hget' & ->).
  unfold getElem, vector_at in Hget.
  destruct (elements_ m !! Z.to_nat (flat_index N x y)) as [e|] eqn:He; [|discriminate].
  injection Hget as ->.
  rewrite list_lookup_insert_ne; [exact Hk|]. intros <-. congruence.
Qed.

Lemma search_keeps_prefilled N m x y s : search N m x y s -> keeps_prefilled m s.
Proof.
  induction 1 as [m x y _|m x y e s _ _ _ _ IH|m x y i m' s _ Hget _ _ Hset _ IH].
  - apply keeps_prefilled_refl.
  - exact IH.
  - intros k v Hk Hv. apply IH; [|exact Hv].
    exact (keeps_prefilled_setElem N m _ _ i m' Hget Hset k v Hk Hv).
Qed.

Lemma keeps_prefilled_cell N m s x y :
  keeps_prefilled m s -> cell N m x y <> 0 -> cell N s x y = cell N m x y.
Proof.
  unfold cell. intros Hkeep Hne.
  destruct (elements_ m !! Z.to_nat (x + y * N)) as [v|] eqn:Hv; simpl in *; [|congruence].
  rewrite (Hkeep _ v Hv Hne). reflexivity.
Qed.

(** ** Occurrences *)

Lemma occurrences_not_elem v l : v ∉ l -> occurrences v l = O.
Proof.
  induction l as [|w l IH]; intros Hv; [reflexivity|]. simpl.
  apply not_elem_of_cons in Hv as [Hne Hv].
  destruct (Z.eqb_spec w v); [congruence|auto].
Qed.

Lemma occurrences_NoDup v l : NoDup l -> v ∈ l -> occurrences v l = 1%nat.
Proof.
  induction 1 as [|w l Hw Hnd IH]; intros Hv; [inversion Hv|]. simpl.
  destruct (Z.eqb_spec w v) as [->|Hne].
  - rewrite occurrences_not_elem by assumption. reflexivity.
  - apply elem_of_cons in Hv as [->|Hv]; [congruence|auto].
Qed.

Lemma occurrences_elem v l : v ∈ l -> (1 <= occurrences v l)%nat.
Proof.
  induction l as [|w l IH]; intros Hv; [inversion Hv|]. simpl.
  destruct (Z.eqb_spec w v); [lia|].
  apply elem_of_cons in Hv as [->|Hv]; [congruence|auto].
Qed.

Lemma occurrences_twice v l k1 k2 :
  k1 <> k2 -> l !! k1 = Some v -> l !! k2 = Some v -> (2 <= occurrences v l)%nat.
Proof.
  revert k1 k2. induction l as [|w l IH]; intros k1 k2 Hne H1 H2; [discriminate|].
  simpl. destruct k1 as [|k1], k2 as [|k2]; simpl in *; try congruence.
  - injection H1 as ->. rewrite Z.eqb_refl.
    assert (v ∈ l) as Hin by (apply list_elem_of_lookup; eauto).
    apply occurrences_elem in Hin. lia.
  - injection H2 as ->. rewrite Z.eqb_refl.
    assert (v ∈ l) as Hin by (apply list_elem_of_lookup; eauto).
    apply occurrences_elem in Hin. lia.
  - assert (2 <= occurrences v l)%nat by (apply (IH k1 k2); [congruence|assumption..]).
    destruct (w =? v); lia.
Qed.

(** The boolean check is the property. *)
Lemma is_solved_spec N m : is_solved N m = true <-> solved N m.
Proof.
  unfold is_solved, solved. split.
  - intros H f u v Hu Hv.
    rewrite forallb_forall in H.
    assert (In f [RowLine; ColumnLine; SubBlock]) as Hf by (destruct f; simpl; auto).
    specialize (H f Hf). rewrite forallb_forall in H.
    specialize (H u). rewrite <- list_elem_of_In, elem_of_seqZ in H.
    specialize (H ltac:(lia)). rewrite forallb_forall in H.
    specialize (H v). rewrite <- list_elem_of_In, elem_of_seqZ in H.
    specialize (H ltac:(lia)). apply Nat.eqb_eq in H. exact H.
  - intros H. apply forallb_forall. intros f _.
    apply forallb_forall. intros u Hu. apply list_elem_of_In, elem_of_seqZ in Hu.
    apply forallb_forall. intros v Hv. apply list_elem_of_In, elem_of_seqZ in Hv.
    apply Nat.eqb_eq. apply H; lia.
Qed.

(** ** Lines and blocks *)

Section Invariants.

Variable N : Z.
Hypothesis N_valid : valid_dimension N.

Local Abbreviation s := (subgridSize N).

Lemma block_cell_facts u k :
  0 <= u < N -> 0 <= k < N ->
  in_grid N (unit_cell N SubBlock u k).1 (unit_cell N SubBlock u k).2 /\
  (unit_cell N SubBlock u k).1 / s = u mod s /\
  (unit_cell N SubBlock u k).2 / s = u / s /\
  (unit_cell N SubBlock u k).1 mod s = k mod s /\
  (unit_cell N SubBlock u k).2 mod s = k / s.
Proof.
  intros Hu Hk. pose proof (s_pos N N_valid) as Hs. pose proof (s_square N N_valid) as Hsq.
  simpl.
  pose proof (Z.mod_pos_bound u s Hs). pose proof (Z.mod_pos_bound k s Hs).
  assert (0 <= u / s < s) by (split; [apply Z.div_pos; lia|apply Z.div_lt_upper_bound; lia]).
  assert (0 <= k / s < s) by (split; [apply Z.div_pos; lia|apply Z.div_lt_upper_bound; lia]).
  repeat split; try nia.
  - symmetry. apply (Z.div_unique _ _ _ (k mod s)); [lia|ring].
  - symmetry. apply (Z.div_unique _ _ _ (k / s)); [lia|ring].
  - symmetry. apply (Z.mod_unique _ _ (u mod s)); [lia|ring].
  - symmetry. apply (Z.mod_unique _ _ (u / s)); [lia|ring].
Qed.

Lemma unit_cell_in_grid f u k :
  0 <= u < N -> 0 <= k < N ->
  in_grid N (unit_cell N f u k).1 (unit_cell N f u k).2.
Proof.
  intros Hu Hk. destruct f.
  - split; simpl; lia.
  - split; simpl; lia.
  - apply block_cell_facts; assumption.
Qed.

Lemma unit_cell_inj f u k1 k2 :
  0 <= u < N -> 0 <= k1 < N -> 0 <= k2 < N ->
  unit_cell N f u k1 = unit_cell N f u k2 -> k1 = k2.
Proof.
  intros Hu Hk1 Hk2 Heq. destruct f.
  - simpl in Heq. congruence.
  - simpl in Heq. congruence.
  - pose proof (block_cell_facts u k1 Hu Hk1) as (_ & _ & _ & Hm1 & Hd1).
    pose proof (block_cell_facts u k2 Hu Hk2) as (_ & _ & _ & Hm2 & Hd2).
    rewrite Heq in Hm1, Hd1. pose proof (s_pos N N_valid) as Hs.
    rewrite (Z.div_mod k1 s), (Z.div_mod k2 s) by lia. congruence.
Qed.

Lemma unit_peers f u k1 k2 :
  0 <= u < N -> 0 <= k1 < N -> 0 <= k2 < N ->
  peers N (unit_cell N f u k1).1 (unit_cell N f u k1).2
          (unit_cell N f u k2).1 (unit_cell N f u k2).2.
Proof.
  intros Hu Hk1 Hk2. destruct f.
  - left. reflexivity.
  - right. left. reflexivity.
  - right. right.
    pose proof (block_cell_facts u k1 Hu Hk1) as (_ & Hx1 & Hy1 & _).
    pose proof (block_cell_facts u k2 Hu Hk2) as (_ & Hx2 & Hy2 & _).
    split; congruence.
Qed.

(** Every cell lies in a member of each family. *)
Lemma cell_in_units x y :
  in_grid N x y ->
  unit_cell N RowLine x y = (x, y) /\
  unit_cell N ColumnLine y x = (x, y) /\
  exists u k, 0 <= u < N /\ 0 <= k < N /\ unit_cell N SubBlock u k = (x, y).
Proof.
  intros [Hx Hy]. split; [reflexivity|]. split; [reflexivity|].
  pose proof (s_pos N N_valid) as Hs. pose proof (s_square N N_valid) as Hsq.
  pose proof (Z.mod_pos_bound x s Hs). pose proof (Z.mod_pos_bound y s Hs).
  assert (0 <= x / s < s) by (split; [apply Z.div_pos; lia|apply Z.div_lt_upper_bound; lia]).
  assert (0 <= y / s < s) by (split; [apply Z.div_pos; lia|apply Z.div_lt_upper_bound; lia]).
  exists (x / s + y / s * s), (x mod s + y mod s * s).
  split; [nia|]. split; [nia|]. simpl.
  rewrite (Z.div_mod x s) at 5 by lia. rewrite (Z.div_mod y s) at 5 by lia.
  rewrite !Z.mod_add, !Z.div_add by lia.
  rewrite !(Z.mod_small (_ mod s)), !(Z.div_small (_ mod s)) by lia.
  rewrite !(Z.mod_small (_ / s)), !(Z.div_small (_ / s)) by lia.
  f_equal; ring.
Qed.

(** An accepted candidate occurs in no peer of its cell. *)
Lemma candidate_no_peer m x y v x2 y2 :
  well_formed N m -> in_grid N x y ->
  isCandidate N m x y v = Ok true ->
  in_grid N x2 y2 -> peers N x y x2 y2 ->
  cell N m x2 y2 <> v.
Proof.
  intros Hwf Hxy Hcand [Hx2 Hy2] Hpeer Hv.
  destruct (isCandidate_in_grid N N_valid m x y v Hwf Hxy) as (b & Hb & Hiff).
  rewrite Hcand in Hb. injection Hb as <-.
  assert (true = false) as Habs; [|discriminate].
  apply Hiff. pose proof (s_pos N N_valid) as Hs.
  destruct Hpeer as [->|[->|[Hbx Hby]]].
  - left. exists y2. auto.
  - right. left. exists x2. auto.
  - right. right. exists x2, y2. rewrite Hbx, Hby.
    pose proof (Z.div_mod x2 s ltac:(lia)). pose proof (Z.mod_pos_bound x2 s Hs).
    pose proof (Z.div_mod y2 s ltac:(lia)). pose proof (Z.mod_pos_bound y2 s Hs).
    repeat split; lia.
Qed.

Lemma peers_sym x1 y1 x2 y2 : peers N x1 y1 x2 y2 -> peers N x2 y2 x1 y1.
Proof. unfold peers. intros [?|[?|[? ?]]]; auto. Qed.

(** Placing an accepted candidate keeps the grid legal. *)
Lemma legal_setElem m x y i m' :
  well_formed N m -> in_grid N x y -> legal N m -> i <> 0 ->
  isCandidate N m x y i = Ok true ->
  setElem N m x y i = Ok m' ->
  legal N m'.
Proof.
  intros Hwf Hxy Hlegal Hi Hcand Hset f u k1 k2 Hu Hk1 Hk2 Hne.
  pose proof (unit_cell_in_grid f u k1 Hu Hk1) as Hin1.
  pose proof (unit_cell_in_grid f u k2 Hu Hk2) as Hin2.
  pose proof (unit_peers f u k1 k2 Hu Hk1 Hk2) as Hpeer.
  pose proof (unit_cell_inj f u k1 k2 Hu Hk1 Hk2) as Hinj.
  specialize (Hlegal f u k1 k2 Hu Hk1 Hk2 Hne).
  unfold unit_value in *.
  destruct (unit_cell N f u k1) as [x1 y1], (unit_cell N f u k2) as [x2 y2].
  simpl in *.
  rewrite (cell_setElem N N_valid m x y i m' x1 y1 Hwf Hxy Hin1 Hset).
  rewrite (cell_setElem N N_valid m x y i m' x2 y2 Hwf Hxy Hin2 Hset).
  destruct (decide (x1 = x /\ y1 = y)) as [[-> ->]|Hne1];
    destruct (decide (x2 = x /\ y2 = y)) as [[-> ->]|Hne2].
  - exfalso. apply Hne. apply Hinj. reflexivity.
  - intros _ Heq. symmetry in Heq. revert Heq.
    apply (candidate_no_peer m x y i x2 y2); assumption.
  - intros _. apply (candidate_no_peer m x y i x1 y1); try assumption.
    apply peers_sym. exact Hpeer.
  - exact Hlegal.
Qed.

Lemma settle_in_grid x y :
  at_end N x y = false -> 0 <= x <= N -> 0 <= y < N ->
  in_grid N (settle N x y).1 (settle N x y).2.
Proof.
  unfold at_end, settle, in_grid. pose proof (N_pos N N_valid).
  intros Hend Hx Hy. destruct (x >=? N) eqn:Hge; simpl in *; lia.
Qed.

Lemma settle_filled_before m x y :
  0 <= x <= N -> filled_before N m x y ->
  filled_before N m (settle N x y).1 (settle N x y).2.
Proof.
  unfold settle. intros Hx Hfilled. destruct (x >=? N) eqn:Hge; simpl; [|exact Hfilled].
  intros x0 y0 Hin Hbefore. apply Hfilled; [exact Hin|]. unfold in_grid in Hin. lia.
Qed.

(** From a legal grid whose scanned cells are filled, [search] ends in a
    full legal grid. *)
Lemma search_complete m x y s0 :
  search N m x y s0 ->
  well_formed N m -> cells_within N 0 m -> legal N m -> filled_before N m x y ->
  0 <= x <= N -> 0 <= y < N ->
  well_formed N s0 /\ cells_within N 1 s0 /\ legal N s0.
Proof.
  induction 1 as [m x y Hend|m x y e s0 Hend Hget Hne _ IH
                 |m x y i m' s0 Hend Hget Hi Hcand Hset _ IH];
    intros Hwf Hdom Hlegal Hfilled Hx Hy.
  - split; [exact Hwf|]. split; [|exact Hlegal].
    intros x0 y0 Hin. specialize (Hdom x0 y0 Hin).
    assert (cell N m x0 y0 <> 0); [|lia].
    apply Hfilled; [exact Hin|]. unfold at_end in Hend. unfold in_grid in Hin. lia.
  - pose proof (settle_in_grid x y Hend Hx Hy) as Hin.
    pose proof (settle_filled_before m x y Hx Hfilled) as Hfilled'.
    destruct (settle N x y) as [x' y']. simpl in *.
    rewrite (getElem_in_grid N N_valid m x' y' Hwf Hin) in Hget. injection Hget as Hget.
    unfold in_grid in Hin. apply IH; try assumption; try lia.
    intros x0 y0 Hin0 Hbefore.
    destruct (decide (x0 = x' /\ y0 = y')) as [[-> ->]|Hother]; [congruence|].
    apply Hfilled'; [exact Hin0|]. lia.
  - pose proof (settle_in_grid x y Hend Hx Hy) as Hin.
    pose proof (settle_filled_before m x y Hx Hfilled) as Hfilled'.
    destruct (settle N x y) as [x' y']. simpl in *.
    pose proof (cell_setElem N N_valid m x' y' i m') as Hcell.
    unfold in_grid in Hin. apply IH; try lia.
    + eapply setElem_well_formed; eassumption.
    + intros x0 y0 Hin0. rewrite (Hcell x0 y0 Hwf Hin Hin0 Hset).
      destruct (decide _); [lia|apply Hdom; exact Hin0].
    + apply (legal_setElem m x' y' i m'); try assumption. lia.
    + intros x0 y0 Hin0 Hbefore. rewrite (Hcell x0 y0 Hwf Hin Hin0 Hset).
      destruct (decide (x0 = x' /\ y0 = y')) as [_|Hother]; [lia|].
      apply Hfilled'; [exact Hin0|]. lia.
Qed.

Lemma length_unit_values m f u : 0 <= N -> length (unit_values N m f u) = Z.to_nat N.
Proof. intros _. unfold unit_values. rewrite length_fmap, length_seqZ. reflexivity. Qed.

(** A full legal grid is solved: a line of [N] different values of [1..N]
    holds each of them. *)
Lemma full_legal_solved m :
  cells_within N 1 m -> legal N m -> solved N m.
Proof.
  intros Hdom Hlegal f u v Hu Hv. pose proof (N_pos N N_valid) as HN.
  assert (NoDup (unit_values N m f u)) as Hnd.
  { unfold unit_values. apply NoDup_fmap_2_strong; [|apply NoDup_seqZ].
    intros k1 k2 Hk1 Hk2 Heq. apply elem_of_seqZ in Hk1, Hk2.
    destruct (decide (k1 = k2)) as [|Hne]; [assumption|]. exfalso.
    apply (Hlegal f u k1 k2); try lia; try assumption.
    pose proof (unit_cell_in_grid f u k1 Hu ltac:(lia)) as Hin.
    specialize (Hdom _ _ Hin). unfold unit_value. lia. }
  assert (forall w, w ∈ unit_values N m f u -> w ∈ seqZ 1 N) as Hsub.
  { intros w Hw. unfold unit_values in Hw.
    apply list_elem_of_fmap in Hw as (k & -> & Hk). apply elem_of_seqZ in Hk.
    pose proof (unit_cell_in_grid f u k Hu ltac:(lia)) as Hin.
    specialize (Hdom _ _ Hin). apply elem_of_seqZ. unfold unit_value. lia. }
  apply occurrences_NoDup; [exact Hnd|].
  assert (unit_values N m f u ≡ₚ seqZ 1 N) as Hperm.
  { apply submseteq_length_Permutation; [apply NoDup_submseteq; assumption|].
    rewrite length_unit_values, length_seqZ by lia. reflexivity. }
  rewrite Hperm. apply elem_of_seqZ. lia.
Qed.

(** A grid with a value of [1..N] twice in a line or block is not solved. *)
Lemma duplicate_not_solved m f u k1 k2 :
  0 <= u < N -> 0 <= k1 < N -> 0 <= k2 < N -> k1 <> k2 ->
  1 <= unit_value N m f u k1 <= N ->
  unit_value N m f u k1 = unit_value N m f u k2 ->
  ~ solved N m.
Proof.
  intros Hu Hk1 Hk2 Hne Hv Heq Hsolved.
  specialize (Hsolved f u (unit_value N m f u k1) Hu Hv).
  assert (2 <= occurrences (unit_value N m f u k1) (unit_values N m f u))%nat; [|lia].
  apply (occurrences_twice _ _ (Z.to_nat k1) (Z.to_nat k2)); [lia| |].
  - unfold unit_values. rewrite list_lookup_fmap, lookup_seqZ_lt by lia.
    simpl. do 2 f_equal. lia.
  - unfold unit_values. rewrite list_lookup_fmap, lookup_seqZ_lt by lia.
    simpl. rewrite Heq. do 2 f_equal. lia.
Qed.

End Invariants.

(** ** No exception on a well-formed grid *)

Lemma mapM_all_Ok {A B : Type} (f : A -> result B) (l : list A) :
  (forall a, a ∈ l -> exists b, f a = Ok b) -> exists bs, mapM f l = Ok bs.
Proof.
  induction l as [|a l IH]; intros H; simpl; [eauto|].
  destruct (H a ltac:(left)) as [b ->]. simpl.
  destruct IH as [bs ->]; [intros a' Ha'; apply H; by right|]. simpl. eauto.
Qed.

Section Safety.

Variable N : Z.
Hypothesis N_valid : valid_dimension N.
Variable self : SudokuSolver.
Variable omp_schedule : SudokuMap -> Z -> Z -> Z -> list nat.

Local Abbreviation run_fuel' := (run_fuel N self omp_schedule).
Local Abbreviation run' := (run N self omp_schedule).
Local Abbreviation visit' := (visit N self omp_schedule).

Lemma isCandidate_Ok m x y v :
  well_formed N m -> in_grid N x y -> exists b, isCandidate N m x y v = Ok b.
Proof.
  intros Hwf Hxy.
  destruct (isCandidate_in_grid N N_valid m x y v Hwf Hxy) as (b & Hb & _). eauto.
Qed.

Lemma visit_safe rec m x y d :
  well_formed N m -> in_grid N x y ->
  (forall m' d', well_formed N m' -> exists sol, rec m' (x + 1) y d' = Ok (m', sol)) ->
  exists sol, visit' rec m x y d = Ok (m, sol).
Proof.
  intros Hwf Hxy Hrec. unfold visit.
  rewrite (getElem_in_grid N N_valid m x y Hwf Hxy). simpl.
  destruct (negb (cell N m x y =? 0)); [apply Hrec; exact Hwf|].
  destruct (d <? maxParallelizationDepth_ self).
  - unfold run_parallel.
    assert (exists f, for_range 1 (N + 1) [] (spawn N m x y) = Ok f) as [f ->].
    { apply (for_range_rule (fun _ _ => True) (fun r => exists f, r = Ok f));
        [exact Logic.I| |eauto].
      intros i ts _ _. unfold spawn.
      destruct (isCandidate_Ok m x y i Hwf Hxy) as [c ->]. exact Logic.I. }
    simpl.
    destruct (mapM_all_Ok (task N rec m x y d)
                (match f with Continue ts => ts | Return _ => [] end)) as [subs ->].
    { intros i _. unfold task. rewrite (setElem_in_grid N N_valid m x y i Hwf Hxy). simpl.
      edestruct Hrec as [sol ->]; [|simpl; eauto].
      eapply setElem_well_formed; [apply (setElem_in_grid N N_valid)|]; eassumption. }
    simpl. eauto.
  - unfold run_sequential.
    assert (exists f, for_range 1 (N + 1) tt (attempt N rec m x y d) = Ok f) as [f ->].
    { apply (for_range_rule (fun _ _ => True) (fun r => exists f, r = Ok f));
        [exact Logic.I| |eauto].
      intros i [] _ _. unfold attempt.
      destruct (isCandidate_Ok m x y i Hwf Hxy) as [[|] ->]; simpl; [|exact Logic.I].
      rewrite (setElem_in_grid N N_valid m x y i Hwf Hxy). simpl.
      edestruct Hrec as [sol ->].
      { eapply setElem_well_formed; [apply (setElem_in_grid N N_valid)|]; eassumption. }
      simpl. destruct sol; [eauto|exact Logic.I]. }
    simpl. destruct f as [[]|r]; eauto.
Qed.

Lemma run_fuel_safe n m x y d :
  (cells_left N x y < n)%nat -> well_formed N m -> 0 <= x <= N -> 0 <= y < N ->
  exists sol, run_fuel' n m x y d = Ok (m, sol).
Proof.
  revert m x y d. induction n as [|n IH]; intros m x y d Hn Hwf Hx Hy; [lia|].
  simpl. unfold run_body. destruct (x >=? N) eqn:Hge.
  - cbv zeta. destruct (y + 1 >=? N) eqn:Hy'; [eauto|].
    pose proof (cells_left_wrap N x y ltac:(lia) ltac:(lia)).
    apply visit_safe; [exact Hwf|split; lia|].
    intros m' d' Hwf'. apply IH; [lia|exact Hwf'|lia|lia].
  - pose proof (cells_left_stay N x y ltac:(lia)).
    apply visit_safe; [exact Hwf|split; lia|].
    intros m' d' Hwf'. apply IH; [lia|exact Hwf'|lia|lia].
Qed.

(** On a well-formed grid [run] throws nothing and leaves its argument. *)
Lemma run_safe m x y d :
  well_formed N m -> 0 <= x <= N -> 0 <= y < N ->
  exists sol, run' m x y d = Ok (m, sol).
Proof. intros. apply run_fuel_safe; [lia|assumption..]. Qed.

(** A grid without empty cells is returned as it is. *)
Lemma run_fuel_full n m x y d :
  (cells_left N x y < n)%nat -> well_formed N m ->
  (forall x0 y0, in_grid N x0 y0 -> cell N m x0 y0 <> 0) ->
  0 <= x <= N -> 0 <= y < N ->
  run_fuel' n m x y d = Ok (m, Some m).
Proof.
  intros Hn Hwf Hfull. revert x y d Hn.
  assert (forall n x y d, in_grid N x y ->
            run_fuel' n m (x + 1) y d = Ok (m, Some m) ->
            visit' (run_fuel' n) m x y d = Ok (m, Some m)) as Hvisit.
  { intros k x y d Hxy Hnext. unfold visit.
    rewrite (getElem_in_grid N N_valid m x y Hwf Hxy). simpl.
    specialize (Hfull x y Hxy). destruct (Z.eqb_spec (cell N m x y) 0); [lia|].
    simpl. exact Hnext. }
  induction n as [|n IH]; intros x y d Hn Hx Hy; [lia|].
  simpl. unfold run_body. destruct (x >=? N) eqn:Hge.
  - cbv zeta. destruct (y + 1 >=? N) eqn:Hy'; [reflexivity|].
    pose proof (cells_left_wrap N x y ltac:(lia) ltac:(lia)).
    apply Hvisit; [split; lia|]. apply IH; lia.
  - pose proof (cells_left_stay N x y ltac:(lia)).
    apply Hvisit; [split; lia|]. apply IH; lia.
Qed.

Lemma SudokuMap_new_Ok cells :
  Z.of_nat (length cells) = N * N -> SudokuMap_new N cells = Ok (mkSudokuMap cells).
Proof.
  intros Hlen. unfold SudokuMap_new. pose proof (N_int N N_valid). pose proof (N_pos N N_valid).
  rewrite size_t_small by nia. rewrite Hlen, Z.eqb_refl. reflexivity.
Qed.

Lemma cells_within_of_in_domain m :
  well_formed N m -> in_domain N m -> cells_within N 0 m.
Proof.
  intros Hwf Hdom x y Hxy. unfold in_domain in Hdom. rewrite Forall_lookup in Hdom.
  apply (Hdom (Z.to_nat (x + y * N))). apply (lookup_in_grid N); assumption.
Qed.

Lemma full_of_no_zero m :
  well_formed N m -> no_zero m -> forall x y, in_grid N x y -> cell N m x y <> 0.
Proof.
  intros Hwf Hnz x y Hxy. unfold no_zero in Hnz. rewrite Forall_lookup in Hnz.
  apply (Hnz (Z.to_nat (x + y * N))). apply (lookup_in_grid N); assumption.
Qed.

End Safety.

Lemma is_legal_spec N m : is_legal N m = true -> legal N m.
Proof.
  unfold is_legal, legal. intros H f u k1 k2 Hu Hk1 Hk2 Hne Hnz.
  rewrite forallb_forall in H.
  assert (In f [RowLine; ColumnLine; SubBlock]) as Hf by (destruct f; simpl; auto).
  specialize (H f Hf). rewrite forallb_forall in H.
  specialize (H u). rewrite <- list_elem_of_In, elem_of_seqZ in H.
  specialize (H ltac:(lia)). rewrite forallb_forall in H.
  specialize (H k1). rewrite <- list_elem_of_In, elem_of_seqZ in H.
  specialize (H ltac:(lia)). rewrite forallb_forall in H.
  specialize (H k2). rewrite <- list_elem_of_In, elem_of_seqZ in H.
  specialize (H ltac:(lia)).
  destruct (Z.eqb_spec k1 k2); [contradiction|].
  destruct (Z.eqb_spec (unit_value N m f u k1) 0); [contradiction|].
  simpl in H. apply negb_true_iff, Z.eqb_neq in H. exact H.
Qed.

Lemma valid_dimension_4 : valid_dimension 4.
Proof. repeat split. Defined.

(** What a successful [solve] went through. *)
Lemma solve_Some N self omp_schedule cells s :
  valid_dimension N ->
  solve N self omp_schedule cells = Ok (Some s) ->
  well_formed N (mkSudokuMap cells) /\ search N (mkSudokuMap cells) 0 0 s.
Proof.
  intros HN H. unfold solve in H.
  apply bind_Ok in H as (m & Hnew & H). apply bind_Ok in H as ([m2 sol] & Hrun & H).
  simpl in H. injection H as ->.
  unfold SudokuMap_new in Hnew.
  destruct (Z.eqb_spec (Z.of_nat (length cells)) (size_t (N * N))) as [Hlen|];
    [|discriminate].
  simpl in Hnew. injection Hnew as <-.
  pose proof (N_int N HN). pose proof (N_pos N HN).
  rewrite size_t_small in Hlen by nia.
  split; [exact Hlen|].
  apply (run_sound N self omp_schedule 0 0) in Hrun as [_ Hs]. auto.
Qed.

Lemma solve_well_formed N self omp_schedule cells :
  valid_dimension N -> Z.of_nat (length cells) = N * N ->
  exists sol, solve N self omp_schedule cells = Ok sol.
Proof.
  intros HN Hlen. unfold solve. rewrite (SudokuMap_new_Ok N HN cells Hlen). simpl.
  pose proof (N_pos N HN).
  destruct (run_safe N HN self omp_schedule (mkSudokuMap cells) 0 0 1) as [sol ->];
    [exact Hlen|lia|lia|].
  simpl. eauto.
Qed.

(** ** The sequential mode *)

Section Sequential.

Variable N : Z.
Variable self : SudokuSolver.

(** Where the parallel branch is not taken, the schedule is not used. *)
Lemma visit_sequential_ext sched1 sched2 rec1 rec2 m x y d :
  (d <? maxParallelizationDepth_ self) = false ->
  (forall m' d', d <= d' -> rec1 m' (x + 1) y d' = rec2 m' (x + 1) y d') ->
  visit N self sched1 rec1 m x y d = visit N self sched2 rec2 m x y d.
Proof.
  intros Hguard Hrec. unfold visit. rewrite Hguard. apply bind_ext. intros e _.
  destruct (negb (e =? 0)); [apply Hrec; lia|].
  unfold run_sequential. f_equal. apply for_range_ext. intros i [] _.
  unfold attempt. apply bind_ext. intros [|] _; [|reflexivity].
  apply bind_ext. intros p _. rewrite Hrec by lia. reflexivity.
Qed.

Lemma run_body_depth_ext sched rec1 rec2 m x y d :
  (forall m' x' y' d', d <= d' -> rec1 m' x' y' d' = rec2 m' x' y' d') ->
  run_body N self sched rec1 m x y d = run_body N self sched rec2 m x y d.
Proof.
  intros Hrec. unfold run_body.
  destruct (x >=? N); [cbv zeta; destruct (y + 1 >=? N); [reflexivity|]|];
    apply visit_ext; intros; apply Hrec; assumption.
Qed.

Lemma run_fuel_schedule_free sched1 sched2 n m x y d :
  maxParallelizationDepth_ self <= 1 -> 1 <= d ->
  run_fuel N self sched1 n m x y d = run_fuel N self sched2 n m x y d.
Proof.
  intros Hmax. revert m x y d. induction n as [|n IH]; intros m x y d Hd; [reflexivity|].
  simpl. unfold run_body.
  assert ((d <? maxParallelizationDepth_ self) = false) as Hguard by lia.
  destruct (x >=? N); [cbv zeta; destruct (y + 1 >=? N); [reflexivity|]|];
    apply visit_sequential_ext; try assumption; intros; apply IH; lia.
Qed.

(** The ascending loop returns the result of the first candidate whose
    subtree has a solution, whatever the later candidates would do. *)
Lemma run_sequential_first rec m x y d i m' m3 s :
  1 <= i <= N ->
  isCandidate N m x y i = Ok true ->
  setElem N m x y i = Ok m' ->
  rec m' (x + 1) y (d + 1) = Ok (m3, Some s) ->
  (forall j, 1 <= j < i ->
     isCandidate N m x y j = Ok false \/
     (isCandidate N m x y j = Ok true /\
      exists mj mj', setElem N m x y j = Ok mj /\
                     rec mj (x + 1) y (d + 1) = Ok (mj', None))) ->
  run_sequential N rec m x y d = Ok (m, Some s).
Proof.
  intros Hi Hcand Hset Hrec Hbefore. unfold run_sequential.
  rewrite (for_range_first 1 (N + 1) tt (attempt N rec m x y d) i (Some s)).
  - reflexivity.
  - lia.
  - intros j Hj. unfold attempt.
    destruct (Hbefore j Hj) as [->|(-> & mj & mj' & -> & Hnone)]; [reflexivity|].
    simpl. rewrite Hnone. reflexivity.
  - unfold attempt. rewrite Hcand. simpl. rewrite Hset. simpl. rewrite Hrec. reflexivity.
Qed.

Lemma run_at_cell sched m x y d :
  at_end N x y = false ->
  run N self sched m x y d
  = visit N self sched (run N self sched) m (settle N x y).1 (settle N x y).2 d.
Proof.
  intros Hend. rewrite run_unfold. unfold run_body, settle. unfold at_end in Hend.
  destruct (x >=? N); [cbv zeta; destruct (y + 1 >=? N); [discriminate|]|]; reflexivity.
Qed.

End Sequential.

(** ** The fork-point *)

Lemma fork_step_kept st st' s :
  fork_step st st' -> solution st = Some s ->
  solution st' = Some s /\ writes st' = writes st.
Proof.
  intros Hstep. destruct Hstep as [pre post sub slot w]. simpl.
  intros ->. destruct sub; simpl; auto.
Qed.

Lemma fork_step_counts st st' :
  fork_step st st' ->
  (writes st <= 1)%nat /\ (solution st = None <-> writes st = O) ->
  (writes st' <= 1)%nat /\ (solution st' = None <-> writes st' = O).
Proof.
  intros Hstep. destruct Hstep as [pre post sub slot w]. simpl.
  intros [Hle Hiff]. destruct sub as [s|], slot as [s'|]; simpl; try (split; [lia|exact Hiff]).
  assert (w = O) by (apply Hiff; reflexivity). subst.
  split; [lia|]. split; discriminate.
Qed.

Lemma fork_step_pending st st' :
  fork_step st st' -> length (pending st) = Datatypes.S (length (pending st')).
Proof.
  intros Hstep. destruct Hstep as [pre post sub slot w]. simpl.
  rewrite !length_app. simpl. lia.
Qed.

Lemma fork_step_elem st st' s :
  fork_step st st' ->
  solution st' = Some s -> solution st = Some s \/ Some s ∈ pending st.
Proof.
  intros Hstep. destruct Hstep as [pre post sub slot w]. simpl. intros H.
  apply publish_Some in H as [H|[_ ->]]; [auto|].
  right. apply elem_of_app. right. left.
Qed.

Lemma fork_step_sub st st' o : fork_step st st' -> o ∈ pending st' -> o ∈ pending st.
Proof.
  intros Hstep. destruct Hstep as [pre post sub slot w]. simpl.
  rewrite !elem_of_app, elem_of_cons. tauto.
Qed.

Lemma fork_steps_counts n st st' :
  fork_steps n st st' ->
  (writes st <= 1)%nat /\ (solution st = None <-> writes st = O) ->
  (writes st' <= 1)%nat /\ (solution st' = None <-> writes st' = O).
Proof.
  induction 1 as [st|n st1 st2 st3 Hstep _ IH]; [auto|].
  intros H. apply IH. eapply fork_step_counts; eassumption.
Qed.

Lemma fork_steps_pending n st st' :
  fork_steps n st st' -> length (pending st) = (n + length (pending st'))%nat.
Proof.
  induction 1 as [st|n st1 st2 st3 Hstep _ IH]; [reflexivity|].
  apply fork_step_pending in Hstep. lia.
Qed.

Lemma fork_steps_elem n st st' s :
  fork_steps n st st' ->
  solution st' = Some s -> solution st = Some s \/ Some s ∈ pending st.
Proof.
  induction 1 as [st|n st1 st2 st3 Hstep _ IH]; [auto|].
  intros H. apply IH in H as [H|H].
  - eapply fork_step_elem; eassumption.
  - right. eapply fork_step_sub; eassumption.
Qed.

(** When every task has passed, a success among them has been kept. *)
Lemma fork_steps_none n st st' :
  fork_steps n st st' -> pending st' = [] ->
  (solution st' = None <-> solution st = None /\ Forall (eq None) (pending st)).
Proof.
  induction 1 as [st|n st1 st2 st3 Hstep _ IH]; intros Hdone.
  - rewrite Hdone. split; [intros ->; auto|tauto].
  - rewrite (IH Hdone). destruct Hstep as [pre post sub slot w]. simpl.
    rewrite !Forall_app, Forall_cons.
    destruct sub as [s|], slot as [s'|]; simpl; intuition congruence.
Qed.

(** The executable fork-join is one run of the fork-point to its end. *)
Lemma taskwait_steps n picks st :
  n = length (pending st) ->
  fork_steps n st (taskwait n picks st) /\ pending (taskwait n picks st) = [].
Proof.
  revert picks st. induction n as [|n IH]; intros picks st Hn; simpl.
  - split; [constructor|]. destruct (pending st); [reflexivity|discriminate].
  - assert (hd O picks mod length (pending st) < length (pending st))%nat as Hk
        by (apply Nat.mod_upper_bound; lia).
    apply lookup_lt_is_Some_2 in Hk as [sub Hsub]. rewrite Hsub.
    set (k := (hd O picks mod length (pending st))%nat) in *.
    set (st' := mkFork (delete k (pending st)) (publish (solution st) sub)
                  (if assigns (solution st) sub then Datatypes.S (writes st) else writes st)).
    assert (fork_step st st') as Hstep.
    { destruct st as [pend slot w]. simpl in *. subst st'.
      rewrite delete_take_drop.
      rewrite <- (take_drop_middle pend k sub Hsub) at 1. constructor. }
    destruct (IH (tl picks) st') as [Hsteps Hdone].
    { apply fork_step_pending in Hstep. lia. }
    split; [econstructor; eassumption|exact Hdone].
Qed.

(** * The claims *)

(** C1 (as amended). For every perfect-square dimension [N] and every input
    grid with values in [0..N] in which no two equal non-zero values share a
    row-line, a column-line or a sub-block, whenever [solve] returns a grid,
    each row-line, each column-line and each sub-block of that grid holds
    each value of [1..N] exactly once. A returned grid implies that the
    input had [N * N] cells. *)
Theorem solve_legal_input_solved N self omp_schedule cells s :
  valid_dimension N ->
  in_domain N (mkSudokuMap cells) ->
  legal N (mkSudokuMap cells) ->
  solve N self omp_schedule cells = Ok (Some s) ->
  solved N s.
Proof.
  intros HN Hdom Hlegal Hsolve.
  apply solve_Some in Hsolve as [Hwf Hsearch]; [|exact HN].
  pose proof (N_pos N HN).
  destruct (search_complete N HN _ 0 0 s Hsearch Hwf) as (_ & Hfull & Hlegal');
    try lia; try assumption.
  - apply cells_within_of_in_domain; assumption.
  - intros x0 y0 [Hx0 Hy0] Hbefore. lia.
  - apply full_legal_solved; assumption.
Qed.

Lemma solve_legal_input_solved_witness :
  valid_dimension 4 /\
  in_domain 4 (mkSudokuMap easy4) /\
  legal 4 (mkSudokuMap easy4) /\
  solve 4 parallel_solver second_first easy4 = Ok (Some (mkSudokuMap easy4_solution)) /\
  solved 4 (mkSudokuMap easy4_solution).
Proof.
  assert (in_domain 4 (mkSudokuMap easy4)) as Hdom.
  { unfold in_domain. simpl. repeat (constructor; [lia|]). constructor. }
  assert (legal 4 (mkSudokuMap easy4)) as Hlegal.
  { apply is_legal_spec. vm_compute. reflexivity. }
  assert (solve 4 parallel_solver second_first easy4
          = Ok (Some (mkSudokuMap easy4_solution))) as Hsolve.
  { vm_compute. reflexivity. }
  repeat split; try assumption; try reflexivity.
  exact (solve_legal_input_solved 4 parallel_solver second_first easy4 _
           valid_dimension_4 Hdom Hlegal Hsolve).
Defined.

(** C1 as stated fails: the grid of dimension 4 with 1 in every cell has
    the right length and its values are in [0..4]; [solve] returns it, and
    it is not solved. *)
Lemma solve_prefilled_conflict_counterexample :
  valid_dimension 4 /\
  Z.of_nat (length ones4) = 4 * 4 /\
  in_domain 4 (mkSudokuMap ones4) /\
  solve 4 sequential_solver in_order ones4 = Ok (Some (mkSudokuMap ones4)) /\
  ~ solved 4 (mkSudokuMap ones4).
Proof.
  split; [exact valid_dimension_4|]. split; [reflexivity|]. split.
  { unfold in_domain. simpl. repeat (constructor; [lia|]). constructor. }
  split; [vm_compute; reflexivity|].
  intros H. apply is_solved_spec in H. vm_compute in H. discriminate.
Qed.

(** C2 (as amended). For an input grid of [N * N] cells with values in
    [0..N] that holds two equal non-zero values in one row-line, column-line
    or sub-block, [solve] throws nothing. It returns the no-solution outcome
    or a grid; a returned grid keeps every pre-filled cell, so it holds the
    same duplicate and is not solved. The duplicate itself is not detected. *)
Theorem solve_duplicate_kept N self omp_schedule cells :
  valid_dimension N ->
  Z.of_nat (length cells) = N * N ->
  in_domain N (mkSudokuMap cells) ->
  has_duplicate N (mkSudokuMap cells) ->
  solve N self omp_schedule cells = Ok None \/
  exists s, solve N self omp_schedule cells = Ok (Some s) /\
            keeps_prefilled (mkSudokuMap cells) s /\
            has_duplicate N s /\ ~ solved N s.
Proof.
  intros HN Hlen Hdom (f & u & k1 & k2 & Hu & Hk1 & Hk2 & Hne & Hnz & Heq).
  destruct (solve_well_formed N self omp_schedule cells HN Hlen) as [[s|] Hsolve];
    [right|left; exact Hsolve].
  exists s. split; [exact Hsolve|].
  apply solve_Some in Hsolve as [Hwf Hsearch]; [|exact HN].
  apply search_keeps_prefilled in Hsearch as Hkeep.
  split; [exact Hkeep|].
  assert (unit_value N s f u k1 = unit_value N (mkSudokuMap cells) f u k1) as E1.
  { apply keeps_prefilled_cell; assumption. }
  assert (unit_value N s f u k2 = unit_value N (mkSudokuMap cells) f u k2) as E2.
  { apply keeps_prefilled_cell; [assumption|]. unfold unit_value in *. congruence. }
  split.
  - exists f, u, k1, k2. repeat split; try lia; congruence.
  - apply (duplicate_not_solved N s f u k1 k2); try assumption; [|congruence].
    rewrite E1.
    pose proof (cells_within_of_in_domain N _ Hwf Hdom _ _
                  (unit_cell_in_grid N HN f u k1 Hu Hk1)) as Hrange.
    unfold unit_value in *. lia.
Qed.

Lemma twins4_has_duplicate : has_duplicate 4 (mkSudokuMap twins4).
Proof.
  exists ColumnLine, 3, 2, 3. repeat split; try lia.
  vm_compute. discriminate.
Qed.

Lemma solve_duplicate_kept_witness :
  has_duplicate 4 (mkSudokuMap twins4) /\
  (solve 4 parallel_solver in_order twins4 = Ok None \/
   exists s, solve 4 parallel_solver in_order twins4 = Ok (Some s) /\
             keeps_prefilled (mkSudokuMap twins4) s /\
             has_duplicate 4 s /\ ~ solved 4 s).
Proof.
  split; [exact twins4_has_duplicate|].
  apply (solve_duplicate_kept 4 parallel_solver in_order twins4 valid_dimension_4).
  - reflexivity.
  - unfold in_domain. simpl. repeat (constructor; [lia|]). constructor.
  - exact twins4_has_duplicate.
Defined.

(** C2 as stated fails: [twins4] has the value 4 twice in its last line,
    and [solve] returns a grid for it, not the no-solution outcome; the
    returned grid is not solved. *)
Lemma solve_duplicate_counterexample :
  has_duplicate 4 (mkSudokuMap twins4) /\
  solve 4 sequential_solver in_order twins4 = Ok (Some (mkSudokuMap twins4_filled)) /\
  solve 4 sequential_solver in_order twins4 <> Ok None /\
  ~ solved 4 (mkSudokuMap twins4_filled).
Proof.
  split; [exact twins4_has_duplicate|]. split; [vm_compute; reflexivity|].
  split; [vm_compute; discriminate|].
  intros H. apply is_solved_spec in H. vm_compute in H. discriminate.
Qed.






(** C5. With [maxParallelizationDepth_ <= 1] the guard of the parallel
    branch is false at every depth from 1 on, and the body of [run] calls
    itself at its own depth or deeper, so no call started at depth 1 takes
    the parallel branch: the results of [run] and of [solve] do not depend
    on the schedule of the OpenMP runtime. At an empty cell the candidates
    are tried in ascending order: when candidate [i] is accepted and its
    subtree has a solution, and every smaller candidate is rejected or has
    a subtree without solution, the solution of [i] is returned, whatever
    the candidates above [i] would do. *)
Theorem sequential_mode_deterministic N self :
  maxParallelizationDepth_ self <= 1 ->
  (forall d, 1 <= d -> (d <? maxParallelizationDepth_ self) = false) /\
  (forall sched rec1 rec2 m x y d,
     (forall m' x' y' d', d <= d' -> rec1 m' x' y' d' = rec2 m' x' y' d') ->
     run_body N self sched rec1 m x y d = run_body N self sched rec2 m x y d) /\
  (forall sched1 sched2 m x y d, 1 <= d ->
     run N self sched1 m x y d = run N self sched2 m x y d) /\
  (forall sched1 sched2 cells,
     solve N self sched1 cells = solve N self sched2 cells) /\
  (forall sched m x y d i m' s,
     1 <= d ->
     at_end N x y = false ->
     getElem N m (settle N x y).1 (settle N x y).2 = Ok 0 ->
     1 <= i <= N ->
     isCandidate N m (settle N x y).1 (settle N x y).2 i = Ok true ->
     setElem N m (settle N x y).1 (settle N x y).2 i = Ok m' ->
     run N self sched m' ((settle N x y).1 + 1) (settle N x y).2 (d + 1)
     = Ok (m', Some s) ->
     (forall j, 1 <= j < i ->
        isCandidate N m (settle N x y).1 (settle N x y).2 j = Ok false \/
        (isCandidate N m (settle N x y).1 (settle N x y).2 j = Ok true /\
         exists mj, setElem N m (settle N x y).1 (settle N x y).2 j = Ok mj /\
                    run N self sched mj ((settle N x y).1 + 1) (settle N x y).2 (d + 1)
                    = Ok (mj, None))) ->
     run N self sched m x y d = Ok (m, Some s)).
Proof.
  intros Hmax. split; [intros d Hd; lia|].
  split; [intros sched rec1 rec2 m x y d; apply run_body_depth_ext|].
  split; [intros sched1 sched2 m x y d Hd; apply run_fuel_schedule_free; assumption|].
  split.
  - intros sched1 sched2 cells. unfold solve. apply bind_ext. intros m _.
    unfold run. rewrite (run_fuel_schedule_free N self sched1 sched2) by lia.
    reflexivity.
  - intros sched m x y d i m' s Hd Hend Hget Hi Hcand Hset Hrun Hbefore.
    rewrite run_at_cell by exact Hend. unfold visit. rewrite Hget. simpl.
    replace (d <? maxParallelizationDepth_ self) with false by lia.
    apply (run_sequential_first N _ m _ _ d i m' m' s); try assumption.
    intros j Hj. destruct (Hbefore j Hj) as [?|(? & mj & ? & ?)]; [left; assumption|].
    right. split; [assumption|]. exists mj, mj. auto.
Qed.

Lemma sequential_mode_deterministic_witness :
  maxParallelizationDepth_ sequential_solver <= 1 /\
  solve 4 sequential_solver in_order (repeat 0 16)
  = solve 4 sequential_solver second_first (repeat 0 16) /\
  run 4 sequential_solver in_order (mkSudokuMap easy4) 1 0 1
  = Ok (mkSudokuMap easy4, Some (mkSudokuMap easy4_solution)).
Proof.
  assert (maxParallelizationDepth_ sequential_solver <= 1) as Hmax by (simpl; lia).
  destruct (sequential_mode_deterministic 4 sequential_solver Hmax)
    as (_ & _ & _ & Hsolve & Hfirst).
  split; [exact Hmax|]. split; [apply Hsolve|].
  apply (Hfirst in_order (mkSudokuMap easy4) 1 0 1 3
           (mkSudokuMap [1; 3; 0; 0; 0; 0; 3; 0; 0; 4; 0; 0; 0; 0; 0; 2])).
  - lia.
  - reflexivity.
  - reflexivity.
  - lia.
  - vm_compute. reflexivity.
  - reflexivity.
  - vm_compute. reflexivity.
  - intros j Hj. assert (j = 1 \/ j = 2) as [-> | ->] by lia.
    + left. vm_compute. reflexivity.
    + right. split; [vm_compute; reflexivity|].
      exists (mkSudokuMap [1; 2; 0; 0; 0; 0; 3; 0; 0; 4; 0; 0; 0; 0; 0; 2]).
      split; vm_compute; reflexivity.
Defined.

(** C6. A grid of perfect-square dimension that has no empty cell and
    satisfies the uniqueness property is returned by [solve] as it is. The
    proof needs the absence of empty cells only. *)
Theorem solve_filled_grid N self omp_schedule cells :
  valid_dimension N ->
  Z.of_nat (length cells) = N * N ->
  no_zero (mkSudokuMap cells) ->
  solved N (mkSudokuMap cells) ->
  solve N self omp_schedule cells = Ok (Some (mkSudokuMap cells)).
Proof.
  intros HN Hlen Hfull _. unfold solve.
  rewrite (SudokuMap_new_Ok N HN cells Hlen). simpl. unfold run.
  pose proof (N_pos N HN).
  rewrite (run_fuel_full N HN self omp_schedule _ (mkSudokuMap cells) 0 0 1);
    try lia; [reflexivity|exact Hlen|].
  apply full_of_no_zero; assumption.
Qed.

Lemma solve_filled_grid_witness :
  no_zero (mkSudokuMap easy4_solution) /\
  solved 4 (mkSudokuMap easy4_solution) /\
  solve 4 parallel_solver second_first easy4_solution
  = Ok (Some (mkSudokuMap easy4_solution)).
Proof.
  assert (no_zero (mkSudokuMap easy4_solution)) as Hfull.
  { unfold no_zero. simpl. repeat (constructor; [lia|]). constructor. }
  assert (solved 4 (mkSudokuMap easy4_solution)) as Hsolved.
  { apply is_solved_spec. vm_compute. reflexivity. }
  split; [exact Hfull|]. split; [exact Hsolved|].
  apply (solve_filled_grid 4 parallel_solver second_first easy4_solution
           valid_dimension_4); [reflexivity|exact Hfull|exact Hsolved].
Defined.

(** C7. When the number of cells is not [N * N] the constructor throws its
    [runtime_error], and so does [solve], whatever the solver and the
    schedule: the search does not start. When the number of cells is
    [N * N] the constructor succeeds with these cells, whatever their
    values. *)
Theorem SudokuMap_new_dimension N self omp_schedule cells :
  N * N < 2 ^ 31 ->
  (Z.of_nat (length cells) <> N * N ->
   SudokuMap_new N cells = Throw runtime_error /\
   solve N self omp_schedule cells = Throw runtime_error) /\
  (Z.of_nat (length cells) = N * N ->
   SudokuMap_new N cells = Ok (mkSudokuMap cells)).
Proof.
  intros Hint. unfold solve, SudokuMap_new.
  rewrite size_t_small by nia.
  destruct (Z.eqb_spec (Z.of_nat (length cells)) (N * N)) as [Heq|Hne]; simpl.
  - split; [contradiction|reflexivity].
  - split; [split; reflexivity|contradiction].
Qed.

Lemma SudokuMap_new_dimension_witness :
  (Z.of_nat (length (repeat 0 80)) <> 9 * 9 ->
   SudokuMap_new 9 (repeat 0 80) = Throw runtime_error /\
   solve 9 sequential_solver in_order (repeat 0 80) = Throw runtime_error) /\
  (Z.of_nat (length (repeat 0 80)) = 9 * 9 ->
   SudokuMap_new 9 (repeat 0 80) = Ok (mkSudokuMap (repeat 0 80))).
Proof.
  apply (SudokuMap_new_dimension 9 sequential_solver in_order (repeat 0 80)).
  reflexivity.
Defined.

(** C8. At a parallel fork-point that returns, one task is created for
    each accepted candidate and each of them has run to its result before
    the parent returns; the pointer the parent returns is the one left by a
    run of the fork-point in which every task has passed its critical
    region, and a success of a task is not lost. In every run of the
    fork-point, in whatever order the tasks pass, the shared pointer is
    assigned at most once: once it is set, a later task leaves it as it is
    and counts no write, and what it holds is the result of one task. The
    state with no pending task is reached after as many passes as there are
    tasks, not earlier. *)
Theorem parallel_join_write_once N omp_schedule rec m x y depth m2 sol :
  run_parallel N omp_schedule rec m x y depth = Ok (m2, sol) ->
  exists tasks subs,
    (forall i, i ∈ tasks <-> 1 <= i <= N /\ isCandidate N m x y i = Ok true) /\
    Forall2 (fun i sub => task N rec m x y depth i = Ok sub) tasks subs /\
    (exists st, fork_steps (length subs) (mkFork subs None O) st /\
                pending st = [] /\ sol = solution st /\
                (sol = None <-> Forall (eq None) subs)) /\
    (forall n st, fork_steps n (mkFork subs None O) st ->
       (writes st <= 1)%nat /\
       (solution st = None <-> writes st = O) /\
       (forall s, solution st = Some s -> Some s ∈ subs) /\
       (pending st = [] -> n = length subs) /\
       (forall st' s, fork_step st st' -> solution st = Some s ->
          solution st' = Some s /\ writes st' = writes st)).
Proof.
  intros H. unfold run_parallel in H.
  apply bind_Ok in H as (f & Hf & H). apply bind_Ok in H as (subs & Hsubs & H).
  injection H as _ <-.
  apply spawn_loop_spec in Hf as (tasks & -> & Htasks).
  exists tasks, subs. split; [exact Htasks|]. split; [apply mapM_Ok; exact Hsubs|].
  split.
  - unfold fork_join.
    destruct (taskwait_steps (length subs) (omp_schedule m x y depth) (mkFork subs None O))
      as [Hsteps Hdone]; [reflexivity|].
    eexists. split; [exact Hsteps|]. split; [exact Hdone|]. split; [reflexivity|].
    rewrite (fork_steps_none _ _ _ Hsteps Hdone). simpl. tauto.
  - intros n st Hsteps.
    destruct (fork_steps_counts _ _ _ Hsteps) as [Hle Hiff];
      [simpl; split; [lia|tauto]|].
    split; [exact Hle|]. split; [exact Hiff|]. split; [|split].
    + intros s Hs. apply (fork_steps_elem _ _ _ _ Hsteps) in Hs as [Hs|Hs];
        [discriminate|exact Hs].
    + intros Hdone. apply fork_steps_pending in Hsteps. simpl in Hsteps.
      rewrite Hdone in Hsteps. simpl in Hsteps. lia.
    + intros st' s Hstep. apply fork_step_kept. exact Hstep.
Qed.

Lemma parallel_join_write_once_witness :
  run_parallel 4 second_first (run 4 parallel_solver second_first)
    (mkSudokuMap (repeat 0 16)) 0 0 1
  = Ok (mkSudokuMap (repeat 0 16), Some (mkSudokuMap empty4_second)) /\
  exists tasks subs,
    (forall i, i ∈ tasks <->
       1 <= i <= 4 /\ isCandidate 4 (mkSudokuMap (repeat 0 16)) 0 0 i = Ok true) /\
    length tasks = length subs /\
    (exists st, fork_steps (length subs) (mkFork subs None O) st /\
                pending st = [] /\
                Some (mkSudokuMap empty4_second) = solution st) /\
    (forall n st, fork_steps n (mkFork subs None O) st -> (writes st <= 1)%nat).
Proof.
  assert (run_parallel 4 second_first (run 4 parallel_solver second_first)
            (mkSudokuMap (repeat 0 16)) 0 0 1
          = Ok (mkSudokuMap (repeat 0 16), Some (mkSudokuMap empty4_second))) as Hrun.
  { vm_compute. reflexivity. }
  split; [exact Hrun|].
  destruct (parallel_join_write_once 4 second_first _ _ 0 0 1 _ _ Hrun)
    as (tasks & subs & Htasks & Hsubs & (st & Hsteps & Hdone & Hsol & _) & Hall).
  exists tasks, subs. split; [exact Htasks|].
  split; [exact (Forall2_length _ _ _ Hsubs)|].
  split; [exists st; auto|].
  intros n st' Hst'. apply (Hall n st' Hst').
Defined.

(** C9. Whenever the search returns a grid, every cell that is non-zero in
    the grid it was called on holds the same value in the returned grid:
    values are only placed in cells that were zero. *)
Theorem run_keeps_prefilled N self omp_schedule m x y depth m2 s :
  run N self omp_schedule m x y depth = Ok (m2, Some s) ->
  keeps_prefilled m s /\ length (elements_ s) = length (elements_ m).
Proof.
  intros H. apply (run_sound N self omp_schedule x y) in H as [_ Hs].
  specialize (Hs s eq_refl). split; [apply (search_keeps_prefilled N m x y s Hs)|].
  clear m2. induction Hs as [| |m x y i m' s _ _ _ _ Hset _ IH]; try assumption;
    [reflexivity|].
  rewrite IH. apply setElem_inv in Hset as (old & _ & ->). apply length_insert.
Qed.

Lemma run_keeps_prefilled_witness :
  run 4 parallel_solver second_first (mkSudokuMap easy4) 0 0 1
  = Ok (mkSudokuMap easy4, Some (mkSudokuMap easy4_solution)) /\
  keeps_prefilled (mkSudokuMap easy4) (mkSudokuMap easy4_solution) /\
  length easy4_solution = length easy4.
Proof.
  assert (run 4 parallel_solver second_first (mkSudokuMap easy4) 0 0 1
          = Ok (mkSudokuMap easy4, Some (mkSudokuMap easy4_solution))) as Hrun.
  { vm_compute. reflexivity. }
  split; [exact Hrun|].
  exact (run_keeps_prefilled 4 parallel_solver second_first _ 0 0 1 _ _ Hrun).
Defined.

(** C10. When a call of the search returns, the grid it was called on is
    as it was before the call, in the sequential branch and in the
    parallel branch: the values are placed on copies. *)
Theorem run_leaves_argument N self omp_schedule m x y depth m2 sol :
  run N self omp_schedule m x y depth = Ok (m2, sol) -> m2 = m.
Proof. intros H. apply (run_sound N self omp_schedule x y) in H as [H _]. exact H. Qed.

Lemma run_leaves_argument_witness :
  run 4 parallel_solver second_first (mkSudokuMap easy4) 0 0 1
  = Ok (mkSudokuMap easy4, Some (mkSudokuMap easy4_solution)) /\
  run 4 sequential_solver in_order (mkSudokuMap easy4) 0 0 1
  = Ok (mkSudokuMap easy4, Some (mkSudokuMap easy4_solution)) /\
  mkSudokuMap easy4 = mkSudokuMap easy4.
Proof.
  assert (run 4 parallel_solver second_first (mkSudokuMap easy4) 0 0 1
          = Ok (mkSudokuMap easy4, Some (mkSudokuMap easy4_solution))) as Hrun.
  { vm_compute. reflexivity. }
  split; [exact Hrun|]. split; [vm_compute; reflexivity|].
  exact (run_leaves_argument 4 parallel_solver second_first _ 0 0 1 _ _ Hrun).
Defined.

(** * Further properties *)

(** ** Storage *)

Lemma flat_index_mod N x y : flat_index N x y = (x + y * N) mod 2 ^ 64.
Proof.
  unfold flat_index, size_t.
  rewrite Z.add_mod_idemp_l by lia.
  rewrite <- Z.add_mod_idemp_r by lia.
  rewrite <- Z.mul_mod by lia.
  rewrite Z.add_mod_idemp_r by lia. reflexivity.
Qed.

Lemma flat_index_nonneg N x y : 0 <= flat_index N x y.
Proof. rewrite flat_index_mod. apply Z.mod_pos_bound. lia. Qed.

(** X1. A coordinate [x] beyond the dimension is not rejected: it wraps
    into the next line. For all integers [x] and [y], the cell reached
    with [(x + N, y)] is the cell reached with [(x, y + 1)], for reading
    and for writing; with [x = -1] this also covers a negative [int]
    converted to [size_t]. *)
Theorem coordinates_wrap_into_next_line N m x y i :
  getElem N m (x + N) y = getElem N m x (y + 1) /\
  setElem N m (x + N) y i = setElem N m x (y + 1) i.
Proof.
  unfold getElem, setElem. rewrite !flat_index_mod.
  replace (x + N + y * N) with (x + (y + 1) * N) by ring.
  split; reflexivity.
Qed.

(** X2. Writing then reading: after a successful [setElem(x, y, i)],
    [getElem(x, y)] returns [i], the number of cells is unchanged, and every
    pair of coordinates with another flat index reads what it read before. *)
Theorem setElem_then_getElem N m x y i m' :
  setElem N m x y i = Ok m' ->
  getElem N m' x y = Ok i /\
  length (elements_ m') = length (elements_ m) /\
  (forall x' y', flat_index N x' y' <> flat_index N x y ->
     getElem N m' x' y' = getElem N m x' y').
Proof.
  intros Hset. apply setElem_inv in Hset as (old & Hget & Hm').
  unfold getElem, vector_at in *. rewrite Hm'.
  destruct (elements_ m !! Z.to_nat (flat_index N x y)) as [e|] eqn:He; [|discriminate].
  apply lookup_lt_Some in He.
  split; [rewrite list_lookup_insert_eq by exact He; reflexivity|].
  split; [apply length_insert|].
  intros x' y' Hne. rewrite list_lookup_insert_ne; [reflexivity|].
  pose proof (flat_index_nonneg N x y). pose proof (flat_index_nonneg N x' y'). lia.
Qed.

Lemma setElem_then_getElem_witness :
  setElem 4 (mkSudokuMap easy4) 1 0 3
  = Ok (mkSudokuMap [1; 3; 0; 0; 0; 0; 3; 0; 0; 4; 0; 0; 0; 0; 0; 2]) /\
  getElem 4 (mkSudokuMap [1; 3; 0; 0; 0; 0; 3; 0; 0; 4; 0; 0; 0; 0; 0; 2]) 1 0 = Ok 3.
Proof.
  assert (setElem 4 (mkSudokuMap easy4) 1 0 3
          = Ok (mkSudokuMap [1; 3; 0; 0; 0; 0; 3; 0; 0; 4; 0; 0; 0; 0; 0; 2])) as Hset.
  { reflexivity. }
  split; [exact Hset|].
  exact (proj1 (setElem_then_getElem 4 _ 1 0 3 _ Hset)).
Defined.

(** X3. Inside the grid the coordinates address different cells: after a
    successful [setElem(x, y, i)] on a grid of valid dimension, reading a
    cell [(x', y')] of the grid gives [i] when it is the written cell and
    what it gave before otherwise. *)
Theorem setElem_changes_one_cell N m x y i m' x' y' :
  valid_dimension N ->
  in_grid N x y -> in_grid N x' y' ->
  setElem N m x y i = Ok m' ->
  getElem N m' x' y' = if decide (x' = x /\ y' = y) then Ok i else getElem N m x' y'.
Proof.
  intros HN Hxy Hxy' Hset.
  destruct (setElem_then_getElem N m x y i m' Hset) as (Hsame & _ & Hother).
  destruct (decide (x' = x /\ y' = y)) as [[-> ->]|Hne]; [exact Hsame|].
  apply Hother. rewrite !(flat_index_in_grid N HN) by assumption.
  intros Heq. apply Hne. apply (flat_inj N x' y' x y Hxy' Hxy Heq).
Qed.

Lemma setElem_changes_one_cell_witness :
  setElem 4 (mkSudokuMap easy4) 1 0 3
  = Ok (mkSudokuMap [1; 3; 0; 0; 0; 0; 3; 0; 0; 4; 0; 0; 0; 0; 0; 2]) /\
  getElem 4 (mkSudokuMap [1; 3; 0; 0; 0; 0; 3; 0; 0; 4; 0; 0; 0; 0; 0; 2]) 2 1
  = (if decide (2 = 1 /\ 1 = 0) then Ok 3 else getElem 4 (mkSudokuMap easy4) 2 1).
Proof.
  assert (setElem 4 (mkSudokuMap easy4) 1 0 3
          = Ok (mkSudokuMap [1; 3; 0; 0; 0; 0; 3; 0; 0; 4; 0; 0; 0; 0; 0; 2])) as Hset.
  { reflexivity. }
  split; [exact Hset|].
  apply (setElem_changes_one_cell 4 _ 1 0 3 _ 2 1 valid_dimension_4);
    [split; lia|split; lia|exact Hset].
Defined.

(** ** Candidates after a placement *)

(** X4. A placed value blocks its peers: after [setElem(x, y, i)] on a
    well-formed grid of valid dimension, [isCandidate] rejects [i] for the
    cell itself and for every cell of the grid that shares its x-line, its
    y-line or its sub-block. *)
Theorem placed_value_blocks_peers N m x y i m' x2 y2 :
  valid_dimension N -> well_formed N m ->
  in_grid N x y -> in_grid N x2 y2 -> peers N x y x2 y2 ->
  setElem N m x y i = Ok m' ->
  isCandidate N m' x2 y2 i = Ok false.
Proof.
  intros HN Hwf Hxy Hxy2 Hpeer Hset.
  pose proof (setElem_well_formed N m x y i m' Hset Hwf) as Hwf'.
  assert (cell N m' x y = i) as Hcell.
  { rewrite (cell_setElem N HN m x y i m' x y Hwf Hxy Hxy Hset).
    destruct (decide (x = x /\ y = y)) as [_|Hne]; [reflexivity|]. exfalso. auto. }
  destruct (isCandidate_in_grid N HN m' x2 y2 i Hwf' Hxy2) as (b & Hb & Hiff).
  rewrite Hb. f_equal. apply Hiff.
  destruct Hxy as [Hx Hy]. pose proof (s_pos N HN) as Hs.
  destruct Hpeer as [Heq|[Heq|[Hbx Hby]]].
  - left. exists y. subst x2. auto.
  - right. left. exists x. subst y2. auto.
  - right. right. exists x, y. rewrite <- Hbx, <- Hby.
    pose proof (Z.div_mod x (subgridSize N) ltac:(lia)).
    pose proof (Z.mod_pos_bound x (subgridSize N) Hs).
    pose proof (Z.div_mod y (subgridSize N) ltac:(lia)).
    pose proof (Z.mod_pos_bound y (subgridSize N) Hs).
    repeat split; lia.
Qed.

Lemma placed_value_blocks_peers_witness :
  peers 4 1 0 0 1 /\
  setElem 4 (mkSudokuMap easy4) 1 0 3
  = Ok (mkSudokuMap [1; 3; 0; 0; 0; 0; 3; 0; 0; 4; 0; 0; 0; 0; 0; 2]) /\
  isCandidate 4 (mkSudokuMap [1; 3; 0; 0; 0; 0; 3; 0; 0; 4; 0; 0; 0; 0; 0; 2]) 0 1 3
  = Ok false.
Proof.
  assert (peers 4 1 0 0 1) as Hpeer.
  { right. right. split; reflexivity. }
  assert (setElem 4 (mkSudokuMap easy4) 1 0 3
          = Ok (mkSudokuMap [1; 3; 0; 0; 0; 0; 3; 0; 0; 4; 0; 0; 0; 0; 0; 2])) as Hset.
  { reflexivity. }
  split; [exact Hpeer|]. split; [exact Hset|].
  apply (placed_value_blocks_peers 4 (mkSudokuMap easy4) 1 0 3 _ 0 1 valid_dimension_4);
    [reflexivity|split; lia|split; lia|exact Hpeer|exact Hset].
Defined.

(** ** Completeness of the search *)

Lemma search_cell_of_search N m x y s :
  at_end N x y = false -> search N m x y s ->
  search_cell N m (settle N x y).1 (settle N x y).2 s.
Proof.
  intros Hend Hs. destruct Hs as [m x y Hend'|m x y e s Hend' Hget Hne Hs
                                 |m x y i m' s Hend' Hget Hi Hcand Hset Hs].
  - congruence.
  - exists e. split; [exact Hget|]. left. auto.
  - exists 0. split; [exact Hget|]. right. split; [reflexivity|]. exists i, m'. auto.
Qed.

Lemma fork_join_none picks subs :
  solution (fork_join picks subs) = None -> Forall (eq None) subs.
Proof.
  unfold fork_join. intros Hnone.
  destruct (taskwait_steps (length subs) picks (mkFork subs None O)) as [Hsteps Hdone];
    [reflexivity|].
  apply (fork_steps_none _ _ _ Hsteps Hdone) in Hnone as [_ Hall]. exact Hall.
Qed.

Section Completeness.

Variable N : Z.
Variable self : SudokuSolver.
Variable omp_schedule : SudokuMap -> Z -> Z -> Z -> list nat.

(** A call that reports no solution has covered every grid that [search]
    reaches from its cell. *)
Lemma run_sequential_none rec m x y d m2 :
  (forall m' d' m3, rec m' (x + 1) y d' = Ok (m3, None) ->
     forall s, ~ search N m' (x + 1) y s) ->
  run_sequential N rec m x y d = Ok (m2, None) ->
  forall i m' s, 1 <= i <= N -> isCandidate N m x y i = Ok true ->
    setElem N m x y i = Ok m' -> ~ search N m' (x + 1) y s.
Proof.
  intros Hrec H. unfold run_sequential in H. apply bind_Ok in H as (f & Hf & H).
  assert (match f with
          | Continue _ =>
              forall i m' s, 1 <= i <= N -> isCandidate N m x y i = Ok true ->
                setElem N m x y i = Ok m' -> ~ search N m' (x + 1) y s
          | Return r => r <> None
          end) as Hloop.
  { clear H. revert f Hf.
    apply (for_range_rule
             (fun j _ => forall i m' s, 1 <= i < j -> isCandidate N m x y i = Ok true ->
                setElem N m x y i = Ok m' -> ~ search N m' (x + 1) y s)
             (fun r => forall f, r = Ok f ->
                match f with
                | Continue _ =>
                    forall i m' s, 1 <= i <= N -> isCandidate N m x y i = Ok true ->
                      setElem N m x y i = Ok m' -> ~ search N m' (x + 1) y s
                | Return r => r <> None
                end)).
    - intros i m' s Hi. lia.
    - intros j [] Hj Hinv. unfold attempt.
      destruct (isCandidate N m x y j) as [[|]| |] eqn:Hc; simpl; try discriminate.
      + destruct (setElem N m x y j) as [mj| |] eqn:Hset; simpl; try discriminate.
        destruct (rec mj (x + 1) y (d + 1)) as [[m3 [s3|]]| |] eqn:Hcall; simpl;
          try discriminate.
        * intros f [= <-]. discriminate.
        * intros i m' s Hi Hci Hseti.
          destruct (Z.eq_dec i j) as [->|Hne]; [|apply (Hinv i); [lia|assumption..]].
          rewrite Hset in Hseti. injection Hseti as <-.
          exact (Hrec mj (d + 1) m3 Hcall s).
      + intros i m' s Hi Hci Hseti.
        destruct (Z.eq_dec i j) as [->|Hne]; [congruence|apply (Hinv i); [lia|assumption..]].
    - intros [] Hinv f [= <-]. intros i m' s Hi. apply (Hinv i). lia. }
  destruct f as [[]|r].
  - exact Hloop.
  - injection H as _ ->. congruence.
Qed.

Lemma run_parallel_none rec m x y d m2 :
  (forall m' d' m3, rec m' (x + 1) y d' = Ok (m3, None) ->
     forall s, ~ search N m' (x + 1) y s) ->
  run_parallel N omp_schedule rec m x y d = Ok (m2, None) ->
  forall i m' s, 1 <= i <= N -> isCandidate N m x y i = Ok true ->
    setElem N m x y i = Ok m' -> ~ search N m' (x + 1) y s.
Proof.
  intros Hrec H i m' s Hi Hcand Hset. unfold run_parallel in H.
  apply bind_Ok in H as (f & Hf & H). apply bind_Ok in H as (subs & Hsubs & H).
  injection H as _ Hnone.
  apply spawn_loop_spec in Hf as (tasks & -> & Htasks).
  apply fork_join_none in Hnone. apply mapM_Ok in Hsubs.
  assert (i ∈ tasks) as Hin by (apply Htasks; auto).
  apply list_elem_of_lookup in Hin as [k Hk].
  destruct (Forall2_lookup_l _ _ _ _ _ Hsubs Hk) as (sub & Hsub & Htask).
  rewrite Forall_lookup in Hnone. specialize (Hnone k sub Hsub). subst sub.
  unfold task in Htask. rewrite Hset in Htask. simpl in Htask.
  apply bind_Ok in Htask as ([m3 sol] & Hcall & Htask). simpl in Htask.
  injection Htask as ->. exact (Hrec m' (d + 1) m3 Hcall s).
Qed.

Lemma visit_none rec m x y d m2 :
  (forall m' d' m3, rec m' (x + 1) y d' = Ok (m3, None) ->
     forall s, ~ search N m' (x + 1) y s) ->
  visit N self omp_schedule rec m x y d = Ok (m2, None) ->
  forall s, ~ search_cell N m x y s.
Proof.
  intros Hrec H s (e & Hget & Hcases). unfold visit in H. rewrite Hget in H. simpl in H.
  destruct Hcases as [[Hne Hs]|[-> (i & m' & Hi & Hcand & Hset & Hs)]].
  - destruct (Z.eqb_spec e 0); [contradiction|]. simpl in H.
    exact (Hrec m d m2 H s Hs).
  - simpl in H. destruct (d <? maxParallelizationDepth_ self).
    + exact (run_parallel_none rec m x y d m2 Hrec H i m' s Hi Hcand Hset Hs).
    + exact (run_sequential_none rec m x y d m2 Hrec H i m' s Hi Hcand Hset Hs).
Qed.

Lemma run_fuel_none n m x y d m2 :
  run_fuel N self omp_schedule n m x y d = Ok (m2, None) ->
  forall s, ~ search N m x y s.
Proof.
  revert m x y d m2. induction n as [|n IH]; intros m x y d m2 H s Hs; [discriminate|].
  simpl in H. unfold run_body in H.
  destruct (at_end N x y) eqn:Hend.
  - unfold at_end in Hend. apply andb_prop in Hend as [Hx Hy].
    rewrite Hx in H. cbv zeta in H. rewrite Hy in H. discriminate.
  - apply (search_cell_of_search N m x y s Hend) in Hs.
    unfold at_end in Hend. unfold settle in Hs.
    destruct (x >=? N) eqn:Hx; simpl in *.
    + rewrite Hend in H.
      exact (visit_none (run_fuel N self omp_schedule n) m 0 (y + 1) d m2
               (fun m' d' m3 => IH m' (0 + 1) (y + 1) d' m3) H s Hs).
    + exact (visit_none (run_fuel N self omp_schedule n) m x y d m2
               (fun m' d' m3 => IH m' (x + 1) y d' m3) H s Hs).
Qed.

(** On a well-formed grid, [run] returns a grid whenever [search] reaches
    one. *)
Lemma run_complete m x y d s :
  valid_dimension N -> well_formed N m -> 0 <= x <= N -> 0 <= y < N ->
  search N m x y s ->
  exists s', run N self omp_schedule m x y d = Ok (m, Some s').
Proof.
  intros HN Hwf Hx Hy Hs.
  destruct (run_safe N HN self omp_schedule m x y d Hwf Hx Hy) as [[s'|] Hrun];
    [eauto|].
  exfalso. exact (run_fuel_none _ m x y d m Hrun s Hs).
Qed.

End Completeness.

(** ** Solved grids that extend the input *)

Lemma occurrences_pos_elem v l : (1 <= occurrences v l)%nat -> v ∈ l.
Proof.
  intros H. destruct (decide (v ∈ l)) as [|Hnot]; [assumption|].
  rewrite occurrences_not_elem in H by exact Hnot. lia.
Qed.

Section Extension.

Variable N : Z.
Hypothesis N_valid : valid_dimension N.

Local Abbreviation s := (subgridSize N).

(** The sub-block of a cell, and the place of the cell in it. *)
Lemma block_of_cell x y :
  in_grid N x y ->
  0 <= x / s + y / s * s < N /\ 0 <= x mod s + y mod s * s < N /\
  unit_cell N SubBlock (x / s + y / s * s) (x mod s + y mod s * s) = (x, y).
Proof.
  intros [Hx Hy].
  pose proof (s_pos N N_valid) as Hs. pose proof (s_square N N_valid) as Hsq.
  pose proof (Z.mod_pos_bound x s Hs). pose proof (Z.mod_pos_bound y s Hs).
  assert (0 <= x / s < s) by (split; [apply Z.div_pos; lia|apply Z.div_lt_upper_bound; lia]).
  assert (0 <= y / s < s) by (split; [apply Z.div_pos; lia|apply Z.div_lt_upper_bound; lia]).
  split; [nia|]. split; [nia|]. simpl.
  rewrite (Z.div_mod x s) at 5 by lia. rewrite (Z.div_mod y s) at 5 by lia.
  rewrite !Z.mod_add, !Z.div_add by lia.
  rewrite !(Z.mod_small (_ mod s)), !(Z.div_small (_ mod s)) by lia.
  rewrite !(Z.mod_small (_ / s)), !(Z.div_small (_ / s)) by lia.
  f_equal; ring.
Qed.

(** In a legal grid two different peers do not hold the same value. *)
Lemma legal_peers m x1 y1 x2 y2 :
  legal N m -> in_grid N x1 y1 -> in_grid N x2 y2 ->
  (x1, y1) <> (x2, y2) -> peers N x1 y1 x2 y2 ->
  cell N m x1 y1 <> 0 -> cell N m x1 y1 <> cell N m x2 y2.
Proof.
  intros Hlegal Hin1 Hin2 Hne Hpeer Hnz.
  assert (forall f u k1 k2,
            0 <= u < N -> 0 <= k1 < N -> 0 <= k2 < N ->
            unit_cell N f u k1 = (x1, y1) -> unit_cell N f u k2 = (x2, y2) ->
            cell N m x1 y1 <> cell N m x2 y2) as Hunit.
  { intros f u k1 k2 Hu Hk1 Hk2 E1 E2.
    assert (k1 <> k2) as Hk by (intros ->; congruence).
    specialize (Hlegal f u k1 k2 Hu Hk1 Hk2 Hk). unfold unit_value in Hlegal.
    rewrite E1, E2 in Hlegal. simpl in Hlegal. auto. }
  destruct Hin1 as [Hx1 Hy1], Hin2 as [Hx2 Hy2].
  destruct Hpeer as [->|[->|[Hbx Hby]]].
  - apply (Hunit RowLine x2 y1 y2); auto.
  - apply (Hunit ColumnLine y2 x1 x2); auto.
  - destruct (block_of_cell x1 y1 (conj Hx1 Hy1)) as (Hu & Hk1 & E1).
    destruct (block_of_cell x2 y2 (conj Hx2 Hy2)) as (_ & Hk2 & E2).
    rewrite <- Hbx, <- Hby in E2.
    exact (Hunit SubBlock _ _ _ Hu Hk1 Hk2 E1 E2).
Qed.

(** A rejected candidate is held by a peer. *)
Lemma candidate_rejected_peer m x y v :
  well_formed N m -> in_grid N x y ->
  isCandidate N m x y v = Ok false ->
  exists x2 y2, in_grid N x2 y2 /\ peers N x y x2 y2 /\ cell N m x2 y2 = v.
Proof.
  intros Hwf Hxy Hcand.
  destruct (isCandidate_in_grid N N_valid m x y v Hwf Hxy) as (b & Hb & Hiff).
  rewrite Hcand in Hb. injection Hb as <-.
  destruct Hxy as [Hx Hy].
  pose proof (block_start_bounds N N_valid x Hx) as Hbx.
  pose proof (block_start_bounds N N_valid y Hy) as Hby.
  pose proof (s_pos N N_valid) as Hs.
  destruct (proj1 Hiff eq_refl) as [(c & Hc & Hv)|[(r & Hr & Hv)|(r & c & Hr & Hc & Hv)]].
  - exists x, c. split; [split; lia|]. split; [left; reflexivity|exact Hv].
  - exists r, y. split; [split; lia|]. split; [right; left; reflexivity|exact Hv].
  - exists r, c. split; [split; lia|]. split; [|exact Hv].
    right. right. split.
    + apply (Z.div_unique r s (x / s) (r - x / s * s)); lia.
    + apply (Z.div_unique c s (y / s) (c - y / s * s)); lia.
Qed.

Lemma maps_equal m1 m2 :
  well_formed N m1 -> well_formed N m2 ->
  (forall x y, in_grid N x y -> cell N m1 x y = cell N m2 x y) ->
  m1 = m2.
Proof.
  intros Hwf1 Hwf2 Hcells. destruct m1 as [l1], m2 as [l2]. f_equal.
  unfold well_formed in *. simpl in *. pose proof (N_pos N N_valid) as HN.
  apply list_eq. intros k.
  destruct (decide (Z.of_nat k < N * N)) as [Hk|Hk].
  - assert (in_grid N (Z.of_nat k mod N) (Z.of_nat k / N)) as Hin.
    { split; [apply Z.mod_pos_bound; lia|].
      split; [apply Z.div_pos; lia|apply Z.div_lt_upper_bound; lia]. }
    pose proof (lookup_in_grid N (mkSudokuMap l1) _ _ Hwf1 Hin) as E1.
    pose proof (lookup_in_grid N (mkSudokuMap l2) _ _ Hwf2 Hin) as E2.
    rewrite (Hcells _ _ Hin) in E1.
    replace (Z.to_nat (Z.of_nat k mod N + Z.of_nat k / N * N)) with k in E1, E2.
    + simpl in E1, E2. congruence.
    + pose proof (Z.div_mod (Z.of_nat k) N ltac:(lia)). lia.
  - rewrite !(proj2 (lookup_ge_None _ _)) by lia. reflexivity.
Qed.

(** A full legal grid that agrees with [m] on the filled cells of [m] is
    reached by [search] from [m]. *)
Lemma extension_reached sol n m x y :
  (cells_left N x y < n)%nat ->
  well_formed N sol -> cells_within N 1 sol -> legal N sol ->
  well_formed N m ->
  (forall x0 y0, in_grid N x0 y0 -> cell N m x0 y0 <> 0 ->
     cell N sol x0 y0 = cell N m x0 y0) ->
  filled_before N m x y ->
  0 <= x <= N -> 0 <= y < N ->
  search N m x y sol.
Proof.
  intros Hn Hwfs Hfull Hlegal. revert m x y Hn.
  induction n as [|n IH]; intros m x y Hn Hwf Hagree Hfilled Hx Hy; [lia|].
  destruct (at_end N x y) eqn:Hend.
  - assert (m = sol) as ->; [|apply search_end; exact Hend].
    apply maps_equal; try assumption.
    intros x0 y0 Hin. symmetry. apply Hagree; [exact Hin|].
    apply Hfilled; [exact Hin|]. unfold at_end in Hend. unfold in_grid in Hin. lia.
  - pose proof (settle_in_grid N N_valid x y Hend Hx Hy) as Hin.
    pose proof (settle_filled_before N m x y Hx Hfilled) as Hfilled'.
    assert (cells_left N ((settle N x y).1 + 1) (settle N x y).2 < cells_left N x y)%nat
      as Hless.
    { unfold settle, at_end in *. destruct (x >=? N) eqn:Hge; simpl in *.
      - apply cells_left_wrap; lia.
      - apply cells_left_stay; lia. }
    destruct (settle N x y) as [x' y'] eqn:Hsettle. simpl in *.
    pose proof (getElem_in_grid N N_valid m x' y' Hwf Hin) as Hget.
    destruct (Z.eq_dec (cell N m x' y') 0) as [Hzero|Hnz].
    + set (i := cell N sol x' y').
      assert (1 <= i <= N) as Hi by (apply Hfull; exact Hin).
      assert (isCandidate N m x' y' i = Ok true) as Hcand.
      { destruct (isCandidate_Ok N N_valid m x' y' i Hwf Hin) as [[|] Hb]; [exact Hb|].
        exfalso.
        destruct (candidate_rejected_peer m x' y' i Hwf Hin Hb)
          as (x2 & y2 & Hin2 & Hpeer & Hv).
        assert (cell N sol x2 y2 = i) as Hsol by (rewrite <- Hv; apply Hagree; [assumption|lia]).
        apply (legal_peers sol x' y' x2 y2 Hlegal Hin Hin2); try assumption.
        - intros [= <- <-]. lia.
        - fold i. lia.
        - fold i. congruence. }
      pose proof (setElem_in_grid N N_valid m x' y' i Hwf Hin) as Hset.
      set (m' := mkSudokuMap (<[Z.to_nat (x' + y' * N) := i]> (elements_ m))) in *.
      pose proof (cell_setElem N N_valid m x' y' i m') as Hcell.
      apply (search_place N m x y i m' sol Hend); rewrite ?Hsettle; simpl;
        [rewrite Hget; f_equal; exact Hzero|exact Hi|exact Hcand|exact Hset|].
      unfold in_grid in Hin. apply IH; try lia.
      * eapply setElem_well_formed; eassumption.
      * intros x0 y0 Hin0. rewrite (Hcell x0 y0 Hwf Hin Hin0 Hset).
        destruct (decide (x0 = x' /\ y0 = y')) as [[-> ->]|_]; [reflexivity|].
        apply Hagree. exact Hin0.
      * intros x0 y0 Hin0 Hbefore. rewrite (Hcell x0 y0 Hwf Hin Hin0 Hset).
        destruct (decide (x0 = x' /\ y0 = y')) as [_|Hother]; [lia|].
        apply Hfilled'; [exact Hin0|]. lia.
    + apply (search_skip N m x y (cell N m x' y') sol Hend); rewrite ?Hsettle; simpl;
        [exact Hget|exact Hnz|].
      unfold in_grid in Hin. apply IH; try assumption; try lia.
      intros x0 y0 Hin0 Hbefore.
      destruct (decide (x0 = x' /\ y0 = y')) as [[-> ->]|Hother]; [exact Hnz|].
      apply Hfilled'; [exact Hin0|]. lia.
Qed.

(** A solved grid is full and legal. *)
Lemma solved_full_legal m : solved N m -> cells_within N 1 m /\ legal N m.
Proof.
  intros Hsolved. pose proof (N_pos N N_valid) as HN.
  assert (forall f u, 0 <= u < N -> unit_values N m f u ≡ₚ seqZ 1 N) as Hperm.
  { intros f u Hu. symmetry. apply submseteq_length_Permutation.
    - apply NoDup_submseteq; [apply NoDup_seqZ|].
      intros v Hv. apply elem_of_seqZ in Hv. apply occurrences_pos_elem.
      rewrite (Hsolved f u v Hu) by lia. lia.
    - rewrite (length_unit_values N m f u) by lia. rewrite length_seqZ. lia. }
  split.
  - intros x y [Hx Hy].
    assert (cell N m x y ∈ unit_values N m RowLine x) as Hin.
    { unfold unit_values. apply list_elem_of_fmap. exists y.
      split; [reflexivity|apply elem_of_seqZ; lia]. }
    rewrite (Hperm RowLine x Hx) in Hin. apply elem_of_seqZ in Hin. lia.
  - intros f u k1 k2 Hu Hk1 Hk2 Hne _ Heq.
    assert (NoDup (unit_values N m f u)) as Hnd
        by (rewrite (Hperm f u Hu); apply NoDup_seqZ).
    assert (Z.to_nat k1 = Z.to_nat k2); [|lia].
    apply (NoDup_lookup _ _ _ (unit_value N m f u k1) Hnd).
    + unfold unit_values. rewrite list_lookup_fmap, lookup_seqZ_lt by lia.
      simpl. do 2 f_equal. lia.
    + unfold unit_values. rewrite list_lookup_fmap, lookup_seqZ_lt by lia.
      simpl. rewrite Heq. do 2 f_equal. lia.
Qed.

(** The input of a solved extension is legal and within the domain. *)
Lemma extended_input_legal m sol :
  cells_within N 1 sol -> legal N sol -> keeps_prefilled m sol ->
  cells_within N 0 m /\ legal N m.
Proof.
  intros Hfull Hlegal Hkeep. pose proof (N_pos N N_valid) as HN. split.
  - intros x y Hin. destruct (Z.eq_dec (cell N m x y) 0) as [->|Hnz]; [lia|].
    rewrite <- (keeps_prefilled_cell N m sol x y Hkeep Hnz).
    specialize (Hfull x y Hin). lia.
  - intros f u k1 k2 Hu Hk1 Hk2 Hne Hnz Heq.
    specialize (Hlegal f u k1 k2 Hu Hk1 Hk2 Hne). unfold unit_value in *.
    rewrite (keeps_prefilled_cell N m sol _ _ Hkeep Hnz) in Hlegal.
    rewrite (keeps_prefilled_cell N m sol _ _ Hkeep) in Hlegal by congruence.
    exact (Hlegal Hnz Heq).
Qed.

End Extension.

Lemma Forall_of_cells N (P : Z -> Prop) m :
  0 < N -> well_formed N m ->
  (forall x y, in_grid N x y -> P (cell N m x y)) ->
  Forall P (elements_ m).
Proof.
  intros HN Hwf Hcells. apply Forall_lookup. intros k v Hk.
  pose proof (lookup_lt_Some _ _ _ Hk) as Hlt. unfold well_formed in Hwf.
  assert (in_grid N (Z.of_nat k mod N) (Z.of_nat k / N)) as Hin.
  { split; [apply Z.mod_pos_bound; lia|].
    split; [apply Z.div_pos; lia|apply Z.div_lt_upper_bound; lia]. }
  specialize (Hcells _ _ Hin). unfold cell in Hcells.
  replace (Z.to_nat (Z.of_nat k mod N + Z.of_nat k / N * N)) with k in Hcells.
  - rewrite Hk in Hcells. exact Hcells.
  - pose proof (Z.div_mod (Z.of_nat k) N ltac:(lia)). lia.
Qed.

(** Whatever the input holds, [search] ends in a grid without empty cell. *)
Lemma search_fills N m x y s0 :
  valid_dimension N ->
  search N m x y s0 ->
  well_formed N m -> filled_before N m x y -> 0 <= x <= N -> 0 <= y < N ->
  well_formed N s0 /\
  (forall x0 y0, in_grid N x0 y0 -> cell N s0 x0 y0 <> 0) /\
  (cells_within N 0 m -> cells_within N 0 s0).
Proof.
  intros HN.
  induction 1 as [m x y Hend|m x y e s0 Hend Hget Hne _ IH
                 |m x y i m' s0 Hend Hget Hi Hcand Hset _ IH];
    intros Hwf Hfilled Hx Hy.
  - split; [exact Hwf|]. split; [|auto].
    intros x0 y0 Hin. apply Hfilled; [exact Hin|].
    unfold at_end in Hend. unfold in_grid in Hin. lia.
  - pose proof (settle_in_grid N HN x y Hend Hx Hy) as Hin.
    pose proof (settle_filled_before N m x y Hx Hfilled) as Hfilled'.
    destruct (settle N x y) as [x' y']. simpl in *.
    rewrite (getElem_in_grid N HN m x' y' Hwf Hin) in Hget. injection Hget as Hget.
    unfold in_grid in Hin. apply IH; try assumption; try lia.
    intros x0 y0 Hin0 Hbefore.
    destruct (decide (x0 = x' /\ y0 = y')) as [[-> ->]|Hother]; [congruence|].
    apply Hfilled'; [exact Hin0|]. lia.
  - pose proof (settle_in_grid N HN x y Hend Hx Hy) as Hin.
    pose proof (settle_filled_before N m x y Hx Hfilled) as Hfilled'.
    destruct (settle N x y) as [x' y']. simpl in *.
    pose proof (cell_setElem N HN m x' y' i m') as Hcell.
    unfold in_grid in Hin.
    destruct IH as (Hwf0 & Hfull0 & Hdom0); try lia.
    + eapply setElem_well_formed; eassumption.
    + intros x0 y0 Hin0 Hbefore. rewrite (Hcell x0 y0 Hwf Hin Hin0 Hset).
      destruct (decide (x0 = x' /\ y0 = y')) as [_|Hother]; [lia|].
      apply Hfilled'; [exact Hin0|]. lia.
    + split; [exact Hwf0|]. split; [exact Hfull0|].
      intros Hdom. apply Hdom0. intros x0 y0 Hin0.
      rewrite (Hcell x0 y0 Hwf Hin Hin0 Hset).
      destruct (decide _); [lia|apply Hdom; exact Hin0].
Qed.

(** X5. Whether a solution is reported does not depend on the parallel
    depth or on the order in which the tasks finish: for an input of
    [N * N] cells, [solve] returns the no-solution outcome with one solver
    and schedule exactly when it does with any other. *)
Theorem no_solution_any_schedule N self1 sched1 self2 sched2 cells :
  valid_dimension N ->
  Z.of_nat (length cells) = N * N ->
  (solve N self1 sched1 cells = Ok None <-> solve N self2 sched2 cells = Ok None).
Proof.
  intros HN Hlen.
  assert (forall selfA schedA selfB schedB,
            solve N selfA schedA cells = Ok None ->
            solve N selfB schedB cells = Ok None) as Hdir.
  { intros selfA schedA selfB schedB HA.
    destruct (solve_well_formed N selfB schedB cells HN Hlen) as [[s|] HB]; [|exact HB].
    exfalso. apply solve_Some in HB as [_ Hsearch]; [|exact HN].
    unfold solve in HA. rewrite (SudokuMap_new_Ok N HN cells Hlen) in HA. simpl in HA.
    apply bind_Ok in HA as ([m2 sol] & Hrun & HA). simpl in HA. injection HA as ->.
    exact (run_fuel_none N selfA schedA _ _ 0 0 1 m2 Hrun s Hsearch). }
  split; apply Hdir.
Qed.

Lemma no_solution_any_schedule_witness :
  Z.of_nat (length clash4) = 4 * 4 /\
  solve 4 sequential_solver in_order clash4 = Ok None /\
  solve 4 parallel_solver second_first clash4 = Ok None.
Proof.
  assert (Z.of_nat (length clash4) = 4 * 4) as Hlen by reflexivity.
  assert (solve 4 sequential_solver in_order clash4 = Ok None) as Hseq
      by (vm_compute; reflexivity).
  split; [exact Hlen|]. split; [exact Hseq|].
  exact (proj1 (no_solution_any_schedule 4 sequential_solver in_order
                  parallel_solver second_first clash4 valid_dimension_4 Hlen) Hseq).
Defined.

(** X6. The search is complete: when some solved grid keeps every
    pre-filled cell of the input, [solve] throws nothing and does not
    report no-solution; it returns a solved grid that keeps the pre-filled
    cells, for every parallel depth and every schedule. So the no-solution
    outcome is returned only for inputs that no solved grid extends. *)
Theorem solve_finds_a_solution N self omp_schedule cells sol :
  valid_dimension N ->
  Z.of_nat (length cells) = N * N ->
  well_formed N sol -> solved N sol ->
  keeps_prefilled (mkSudokuMap cells) sol ->
  exists s', solve N self omp_schedule cells = Ok (Some s') /\
             well_formed N s' /\ solved N s' /\
             keeps_prefilled (mkSudokuMap cells) s'.
Proof.
  intros HN Hlen Hwfs Hsolved Hkeep. pose proof (N_pos N HN) as Hpos.
  destruct (solved_full_legal N HN sol Hsolved) as [Hfull Hlegal].
  destruct (extended_input_legal N HN _ sol Hfull Hlegal Hkeep) as [Hdom Hlegalm].
  assert (filled_before N (mkSudokuMap cells) 0 0) as Hfilled.
  { intros x0 y0 [Hx0 Hy0] Hbefore. lia. }
  assert (search N (mkSudokuMap cells) 0 0 sol) as Hreach.
  { apply (extension_reached N HN sol (Datatypes.S (cells_left N 0 0))); try assumption;
      try lia.
    intros x0 y0 _ Hnz. apply keeps_prefilled_cell; assumption. }
  destruct (run_complete N self omp_schedule (mkSudokuMap cells) 0 0 1 sol HN Hlen)
    as [s' Hrun]; try lia; [exact Hreach|].
  exists s'. unfold solve. rewrite (SudokuMap_new_Ok N HN cells Hlen). simpl.
  rewrite Hrun. simpl. split; [reflexivity|].
  apply (run_sound N self omp_schedule 0 0) in Hrun as [_ Hs].
  specialize (Hs s' eq_refl).
  destruct (search_complete N HN _ 0 0 s' Hs Hlen Hdom Hlegalm Hfilled)
    as (Hwf' & Hfull' & Hlegal'); try lia.
  split; [exact Hwf'|]. split; [apply full_legal_solved; assumption|].
  exact (search_keeps_prefilled N _ 0 0 s' Hs).
Qed.

Lemma easy4_solution_extends :
  well_formed 4 (mkSudokuMap easy4_solution) /\
  solved 4 (mkSudokuMap easy4_solution) /\
  keeps_prefilled (mkSudokuMap easy4) (mkSudokuMap easy4_solution).
Proof.
  split; [reflexivity|]. split; [apply is_solved_spec; vm_compute; reflexivity|].
  intros k v Hk Hv. simpl in *.
  do 16 (destruct k as [|k]; [injection Hk as <-; first [reflexivity|contradiction]|]).
  discriminate.
Defined.

Lemma solve_finds_a_solution_witness :
  Z.of_nat (length easy4) = 4 * 4 /\
  exists s', solve 4 parallel_solver second_first easy4 = Ok (Some s') /\
             well_formed 4 s' /\ solved 4 s' /\
             keeps_prefilled (mkSudokuMap easy4) s'.
Proof.
  split; [reflexivity|].
  destruct easy4_solution_extends as (Hwf & Hsolved & Hkeep).
  exact (solve_finds_a_solution 4 parallel_solver second_first easy4
           (mkSudokuMap easy4_solution) valid_dimension_4 eq_refl Hwf Hsolved Hkeep).
Defined.

(** X7. When exactly one solved grid keeps the pre-filled cells of the
    input, [solve] returns that grid, for every parallel depth and every
    schedule: the race between the tasks cannot change the result. *)
Theorem solve_unique_solution N self omp_schedule cells sol :
  valid_dimension N ->
  Z.of_nat (length cells) = N * N ->
  well_formed N sol -> solved N sol ->
  keeps_prefilled (mkSudokuMap cells) sol ->
  (forall s2, well_formed N s2 -> solved N s2 ->
     keeps_prefilled (mkSudokuMap cells) s2 -> s2 = sol) ->
  solve N self omp_schedule cells = Ok (Some sol).
Proof.
  intros HN Hlen Hwfs Hsolved Hkeep Hunique.
  destruct (solve_finds_a_solution N self omp_schedule cells sol HN Hlen Hwfs Hsolved Hkeep)
    as (s' & Hsolve & Hwf' & Hsolved' & Hkeep').
  rewrite Hsolve. rewrite (Hunique s' Hwf' Hsolved' Hkeep'). reflexivity.
Qed.

Lemma almost4_unique s2 :
  well_formed 4 s2 -> solved 4 s2 -> keeps_prefilled (mkSudokuMap almost4) s2 ->
  s2 = mkSudokuMap easy4_solution.
Proof.
  destruct s2 as [l]. intros Hwf Hsolved Hkeep.
  unfold well_formed in Hwf. simpl in Hwf.
  do 16 (destruct l as [|? l]; [simpl in Hwf; lia|]).
  destruct l; [|simpl in Hwf; lia]. clear Hwf.
  pose proof (Hkeep 1%nat 3 eq_refl ltac:(lia)) as E; simpl in E; injection E as ->.
  pose proof (Hkeep 2%nat 2 eq_refl ltac:(lia)) as E; simpl in E; injection E as ->.
  pose proof (Hkeep 3%nat 4 eq_refl ltac:(lia)) as E; simpl in E; injection E as ->.
  pose proof (Hkeep 4%nat 4 eq_refl ltac:(lia)) as E; simpl in E; injection E as ->.
  pose proof (Hkeep 5%nat 2 eq_refl ltac:(lia)) as E; simpl in E; injection E as ->.
  pose proof (Hkeep 6%nat 3 eq_refl ltac:(lia)) as E; simpl in E; injection E as ->.
  pose proof (Hkeep 7%nat 1 eq_refl ltac:(lia)) as E; simpl in E; injection E as ->.
  pose proof (Hkeep 8%nat 2 eq_refl ltac:(lia)) as E; simpl in E; injection E as ->.
  pose proof (Hkeep 9%nat 4 eq_refl ltac:(lia)) as E; simpl in E; injection E as ->.
  pose proof (Hkeep 10%nat 1 eq_refl ltac:(lia)) as E; simpl in E; injection E as ->.
  pose proof (Hkeep 11%nat 3 eq_refl ltac:(lia)) as E; simpl in E; injection E as ->.
  pose proof (Hkeep 12%nat 3 eq_refl ltac:(lia)) as E; simpl in E; injection E as ->.
  pose proof (Hkeep 13%nat 1 eq_refl ltac:(lia)) as E; simpl in E; injection E as ->.
  pose proof (Hkeep 14%nat 4 eq_refl ltac:(lia)) as E; simpl in E; injection E as ->.
  pose proof (Hkeep 15%nat 2 eq_refl ltac:(lia)) as E; simpl in E; injection E as ->.
  destruct (solved_full_legal 4 valid_dimension_4 _ Hsolved) as [Hfull _].
  specialize (Hfull 0 0 ltac:(split; lia)). unfold cell in Hfull. simpl in Hfull.
  apply is_solved_spec in Hsolved.
  assert (z = 1 \/ z = 2 \/ z = 3 \/ z = 4) as [->|[->|[->| ->]]] by lia;
    vm_compute in Hsolved; first [reflexivity|discriminate].
Qed.

Lemma solve_unique_solution_witness :
  Z.of_nat (length almost4) = 4 * 4 /\
  solve 4 parallel_solver second_first almost4 = Ok (Some (mkSudokuMap easy4_solution)).
Proof.
  split; [reflexivity|].
  apply (solve_unique_solution 4 parallel_solver second_first almost4
           (mkSudokuMap easy4_solution) valid_dimension_4 eq_refl).
  - reflexivity.
  - apply is_solved_spec. vm_compute. reflexivity.
  - intros k v Hk Hv. simpl in *.
    do 16 (destruct k as [|k]; [injection Hk as <-; first [reflexivity|contradiction]|]).
    discriminate.
  - exact almost4_unique.
Defined.

(** X8. A grid returned by [solve] has [N * N] cells and no empty cell,
    whether or not the pre-filled cells of the input conflict; when the
    input values are in [0..N], every value of the returned grid is in
    [1..N]. *)
Theorem solve_returns_full_grid N self omp_schedule cells s :
  valid_dimension N ->
  solve N self omp_schedule cells = Ok (Some s) ->
  well_formed N s /\ no_zero s /\
  (in_domain N (mkSudokuMap cells) -> Forall (fun v => 1 <= v <= N) (elements_ s)).
Proof.
  intros HN Hsolve. pose proof (N_pos N HN) as Hpos.
  apply solve_Some in Hsolve as [Hwf Hsearch]; [|exact HN].
  destruct (search_fills N _ 0 0 s HN Hsearch Hwf) as (Hwf' & Hfull & Hdom); try lia.
  { intros x0 y0 [Hx0 Hy0] Hbefore. lia. }
  split; [exact Hwf'|]. split.
  - apply (Forall_of_cells N); assumption.
  - intros Hin. apply (Forall_of_cells N); try assumption.
    intros x y Hxy. specialize (Hfull x y Hxy).
    pose proof (Hdom (cells_within_of_in_domain N _ Hwf Hin) x y Hxy). lia.
Qed.

Lemma solve_returns_full_grid_witness :
  solve 4 parallel_solver in_order twins4 = Ok (Some (mkSudokuMap twins4_filled)) /\
  well_formed 4 (mkSudokuMap twins4_filled) /\ no_zero (mkSudokuMap twins4_filled).
Proof.
  assert (solve 4 parallel_solver in_order twins4
          = Ok (Some (mkSudokuMap twins4_filled))) as Hsolve by (vm_compute; reflexivity).
  split; [exact Hsolve|].
  destruct (solve_returns_full_grid 4 parallel_solver in_order twins4 _
              valid_dimension_4 Hsolve) as (Hwf & Hfull & _).
  split; assumption.
Defined.

(** ** The benchmark harness *)

Section Harness.

Variable N : Z.
Hypothesis N_valid : valid_dimension N.

Lemma Run_iteration_Ok maxd sched input :
  well_formed N input ->
  (exists s, search N input 0 0 s) ->
  Run_iteration N maxd sched input = Ok tt.
Proof.
  intros Hwf [s Hs]. unfold Run_iteration. pose proof (N_pos N N_valid).
  destruct (run_complete N (mkSudokuSolver maxd) sched input 0 0 1 s N_valid Hwf)
    as [s' ->]; try lia; [exact Hs|]. reflexivity.
Qed.

Lemma Run_iteration_Throw maxd sched input :
  well_formed N input ->
  ~ (exists s, search N input 0 0 s) ->
  Run_iteration N maxd sched input = Throw runtime_error.
Proof.
  intros Hwf Hnone. unfold Run_iteration. pose proof (N_pos N N_valid).
  destruct (run_safe N N_valid (mkSudokuSolver maxd) sched input 0 0 1 Hwf)
    as [[s|] Hrun]; try lia; rewrite Hrun; simpl; [|reflexivity].
  exfalso. apply Hnone. exists s.
  apply (run_sound N (mkSudokuSolver maxd) sched 0 0) in Hrun as [_ Hs]. auto.
Qed.

Lemma Run_all_Ok maxd schedules n input :
  well_formed N input ->
  (exists s, search N input 0 0 s) ->
  Run N maxd schedules n input = Ok tt.
Proof.
  intros Hwf Hs. revert schedules. induction n as [|n IH]; intros schedules; [reflexivity|].
  simpl. rewrite Run_iteration_Ok by assumption. simpl. apply IH.
Qed.

End Harness.

(** X9. The benchmark loop of [SudokuSolverTest::Run], on a well-formed
    input and for at least one iteration, either completes or throws its
    [runtime_error] in the first iteration; it completes exactly when the
    sequential solver finds a solution for the input, whatever the parallel
    depth, the schedules of the iterations and the number of iterations. *)
Theorem Run_completes_iff_solvable N maxd schedules n input :
  valid_dimension N -> well_formed N input ->
  (Run N maxd schedules (Datatypes.S n) input = Ok tt \/
   Run N maxd schedules (Datatypes.S n) input = Throw runtime_error) /\
  (Run N maxd schedules (Datatypes.S n) input = Ok tt <->
   exists s, solve N sequential_solver in_order (elements_ input) = Ok (Some s)).
Proof.
  intros HN Hwf. pose proof (N_pos N HN) as Hpos.
  assert (solve N sequential_solver in_order (elements_ input)
          = (r <- run N sequential_solver in_order input 0 0 1 ;; Ok (snd r))) as Hsolve.
  { unfold solve. rewrite (SudokuMap_new_Ok N HN _ Hwf). destruct input. reflexivity. }
  assert ((exists s, search N input 0 0 s) <->
          exists s, solve N sequential_solver in_order (elements_ input) = Ok (Some s))
    as Hiff.
  { rewrite Hsolve. split; intros [s Hs].
    - destruct (run_complete N sequential_solver in_order input 0 0 1 s HN Hwf)
        as [s' ->]; try lia; [exact Hs|]. simpl. eauto.
    - apply bind_Ok in Hs as ([m2 sol] & Hrun & Hs). simpl in Hs. injection Hs as ->.
      exists s. apply (run_sound N sequential_solver in_order 0 0) in Hrun as [_ Hr]. auto. }
  rewrite <- Hiff.
  destruct (run_safe N HN (mkSudokuSolver maxd) (schedules O) input 0 0 1 Hwf)
    as [[s|] Hrun]; try lia.
  - assert (exists s, search N input 0 0 s) as Hs.
    { exists s. apply (run_sound N (mkSudokuSolver maxd) (schedules O) 0 0) in Hrun as [_ Hr].
      auto. }
    rewrite (Run_all_Ok N HN maxd schedules (Datatypes.S n) input Hwf Hs).
    split; [left; reflexivity|]. split; auto.
  - assert (~ exists s, search N input 0 0 s) as Hnone.
    { intros [s Hs]. exact (run_fuel_none N _ _ _ _ 0 0 1 _ Hrun s Hs). }
    simpl. rewrite (Run_iteration_Throw N HN maxd (schedules O) input Hwf Hnone). simpl.
    split; [right; reflexivity|]. split; [discriminate|contradiction].
Qed.

Lemma Run_completes_iff_solvable_witness :
  well_formed 4 (mkSudokuMap easy4) /\
  Run 4 8 (fun k => if Nat.even k then in_order else second_first) 3
    (mkSudokuMap easy4) = Ok tt.
Proof.
  assert (well_formed 4 (mkSudokuMap easy4)) as Hwf by reflexivity.
  split; [exact Hwf|].
  apply (proj2 (Run_completes_iff_solvable 4 8 _ 2 (mkSudokuMap easy4)
                  valid_dimension_4 Hwf)).
  exists (mkSudokuMap easy4_solution). vm_compute. reflexivity.
Defined.

(** ** Printing *)

Lemma printBoard_from_line N i row rest :
  i + Z.of_nat (length row) = N -> row <> [] ->
  printBoard_from N i (row ++ rest)
  = flat_map (fun e => [put_int e; put_string ", "]) row
    ++ put_string "//" :: put_endl :: printBoard_from N 0 rest.
Proof.
  revert i. induction row as [|e row IH]; intros i Hlen Hne; [contradiction|].
  simpl in *. destruct row as [|e' row].
  - simpl in *. replace (i + 1 =? N) with true by lia. reflexivity.
  - replace (i + 1 =? N) with false by (simpl in Hlen; lia).
    rewrite (IH (i + 1)); [reflexivity|simpl in *; lia|discriminate].
Qed.

Lemma flat_map_fmap {A B C : Type} (f : A -> B) (g : B -> list C) (l : list A) :
  flat_map g (f <$> l) = flat_map (fun a => g (f a)) l.
Proof.
  induction l as [|a l IH]; [reflexivity|].
  rewrite fmap_cons. simpl. rewrite IH. reflexivity.
Qed.

Lemma printBoard_from_rows N m n y0 :
  0 < N -> well_formed N m -> 0 <= y0 -> y0 + Z.of_nat n = N ->
  printBoard_from N 0 (drop (Z.to_nat (y0 * N)) (elements_ m))
  = flat_map (fun y => flat_map (fun x => [put_int (cell N m x y); put_string ", "])
                                (seqZ 0 N)
                       ++ [put_string "//"; put_endl])
             (seqZ y0 (Z.of_nat n)).
Proof.
  intros HN Hwf. unfold well_formed in Hwf. revert y0.
  induction n as [|n IH]; intros y0 Hy0 Hsum.
  - rewrite drop_ge by nia. reflexivity.
  - assert (seqZ y0 (Z.of_nat (Datatypes.S n)) = y0 :: seqZ (y0 + 1) (Z.of_nat n)) as ->.
    { rewrite seqZ_cons by lia. do 2 f_equal; lia. }
    cbn [flat_map].
    set (l := drop (Z.to_nat (y0 * N)) (elements_ m)).
    rewrite <- (take_drop (Z.to_nat N) l).
    assert (take (Z.to_nat N) l = (fun x => cell N m x y0) <$> seqZ 0 N) as Hrow.
    { apply list_eq. intros k. subst l.
      rewrite list_lookup_fmap.
      destruct (decide (Z.of_nat k < N)) as [Hk|Hk].
      - rewrite lookup_take_lt by lia. rewrite lookup_drop.
        rewrite lookup_seqZ_lt by lia. simpl. unfold cell.
        replace (Z.to_nat (0 + Z.of_nat k + y0 * N)) with (Z.to_nat (y0 * N) + k)%nat by lia.
        destruct (elements_ m !! (Z.to_nat (y0 * N) + k)%nat) as [e|] eqn:He; [reflexivity|].
        apply lookup_ge_None in He. nia.
      - rewrite lookup_take_ge by lia. rewrite lookup_seqZ_ge by lia. reflexivity. }
    rewrite (printBoard_from_line N 0 (take (Z.to_nat N) l)).
    + rewrite Hrow, flat_map_fmap. subst l. rewrite drop_drop.
      replace (Z.to_nat (y0 * N) + Z.to_nat N)%nat with (Z.to_nat ((y0 + 1) * N)) by lia.
      rewrite IH by lia. rewrite <- app_assoc. reflexivity.
    + rewrite Hrow, length_fmap, length_seqZ. lia.
    + rewrite Hrow. intros Hnil. apply (f_equal length) in Hnil.
      rewrite length_fmap, length_seqZ in Hnil. simpl in Hnil. lia.
Qed.

(** X10. For a grid of [N * N] cells, [printBoard] prints [N] lines; line
    [y] holds the cells [(0, y)], [(1, y)], ... in this order, each followed
    by a comma and a space, and ends with two slashes and the end of line:
    the coordinate [x] runs along a printed line. *)
Theorem printBoard_lines N m :
  0 < N -> well_formed N m ->
  printBoard N m
  = flat_map (fun y => flat_map (fun x => [put_int (cell N m x y); put_string ", "])
                                (seqZ 0 N)
                       ++ [put_string "//"; put_endl])
             (seqZ 0 N).
Proof.
  intros HN Hwf. unfold printBoard.
  pose proof (printBoard_from_rows N m (Z.to_nat N) 0 HN Hwf ltac:(lia) ltac:(lia)) as H.
  rewrite Z2Nat.id in H by lia.
  replace (Z.to_nat (0 * N)) with O in H by lia. rewrite drop_0 in H. exact H.
Qed.

Lemma printBoard_lines_witness :
  well_formed 2 (mkSudokuMap [1; 2; 3; 4]) /\
  printBoard 2 (mkSudokuMap [1; 2; 3; 4])
  = [put_int 1; put_string ", "; put_int 2; put_string ", "; put_string "//"; put_endl;
     put_int 3; put_string ", "; put_int 4; put_string ", "; put_string "//"; put_endl].
Proof.
  split; [reflexivity|].
  rewrite (printBoard_lines 2 (mkSudokuMap [1; 2; 3; 4])); [reflexivity|lia|reflexivity].
Defined.

(** ** A dimension that is not a square *)

Lemma for_upto_throw {S R : Type} n i (s : S) (body : Z -> S -> result (flow S R)) k e :
  i <= k < i + Z.of_nat n ->
  (forall j, i <= j < k -> body j s = Ok (Continue s)) ->
  body k s = Throw e ->
  for_upto n i s body = Throw e.
Proof.
  revert i. induction n as [|n IH]; intros i Hk Hbefore Hthrow; [lia|].
  simpl. destruct (Z.eq_dec i k) as [->|Hne].
  - rewrite Hthrow. reflexivity.
  - rewrite Hbefore by lia. simpl. apply IH; [lia| |exact Hthrow].
    intros j Hj. apply Hbefore. lia.
Qed.

Lemma for_upto_continue {S R : Type} n i (s : S) (body : Z -> S -> result (flow S R)) :
  (forall j, i <= j < i + Z.of_nat n -> body j s = Ok (Continue s)) ->
  for_upto n i s body = Ok (Continue s).
Proof.
  revert i. induction n as [|n IH]; intros i Hall; [reflexivity|].
  simpl. rewrite Hall by lia. simpl. apply IH. intros j Hj. apply Hall. lia.
Qed.

Lemma getElem_no_wrap N m x y :
  0 < N -> 0 <= x -> 0 <= y -> x + y * N < 2 ^ 64 ->
  getElem N m x y = vector_at (elements_ m) (x + y * N).
Proof.
  intros HN Hx Hy Hlt. unfold getElem. rewrite flat_index_mod.
  rewrite Z.mod_small by nia. reflexivity.
Qed.

(** X11. A dimension that is not a multiple of its integer square root is
    not rejected by any check, and the sub-block of the last line reaches
    beyond the grid: on a grid of [N * N] cells none of which holds [v],
    [isCandidate(x, N - 1, v)] throws the out-of-range exception for every
    [x] of the grid. *)
Theorem isCandidate_throws_when_not_square N m x v :
  0 < N -> N * N < 2 ^ 31 -> N mod Z.sqrt N <> 0 ->
  well_formed N m -> 0 <= x < N ->
  Forall (fun e => e <> v) (elements_ m) ->
  isCandidate N m x (N - 1) v = Throw out_of_range.
Proof.
  intros HN Hint Hmod Hwf Hx Hall. unfold well_formed in Hwf.
  assert (0 < Z.sqrt N) as Hs by (apply Z.sqrt_pos; lia).
  assert (forall a b, 0 <= a < N -> 0 <= b < N ->
            differs N m v a b = Ok (Continue tt)) as Hdiffers.
  { intros a b Ha Hb. unfold differs.
    rewrite getElem_no_wrap by nia. unfold vector_at.
    destruct (elements_ m !! Z.to_nat (a + b * N)) as [e|] eqn:He.
    - rewrite Forall_lookup in Hall. specialize (Hall _ _ He). simpl.
      destruct (Z.eqb_spec e v); [contradiction|reflexivity].
    - apply lookup_ge_None in He. nia. }
  assert (forall a, 0 <= a < N -> differs N m v a N = Throw out_of_range) as Hbeyond.
  { intros a Ha. unfold differs. rewrite getElem_no_wrap by nia. unfold vector_at.
    rewrite (proj2 (lookup_ge_None _ _)) by nia. reflexivity. }
  unfold isCandidate, for_range, subgridSize.
  rewrite for_upto_continue by (intros j Hj; apply Hdiffers; lia). simpl.
  rewrite for_upto_continue by (intros j Hj; apply Hdiffers; lia). simpl.
  rewrite !Z.quot_div_nonneg by lia.
  set (s := Z.sqrt N) in *.
  pose proof (Z.div_mod x s ltac:(lia)). pose proof (Z.mod_pos_bound x s Hs).
  pose proof (Z.div_mod (N - 1) s ltac:(lia)). pose proof (Z.mod_pos_bound (N - 1) s Hs).
  assert (0 <= x / s) by (apply Z.div_pos; lia).
  assert (0 <= (N - 1) / s) by (apply Z.div_pos; lia).
  assert ((N - 1) / s * s + s <> N) as Hnot.
  { intros Heq. apply Hmod. rewrite <- Heq.
    replace ((N - 1) / s * s + s) with (((N - 1) / s + 1) * s) by ring.
    apply Z.mod_mul. lia. }
  rewrite (for_upto_throw _ _ _ _ (x / s * s) out_of_range); [reflexivity|lia|lia|].
  apply (for_upto_throw _ _ _ _ N out_of_range).
  - nia.
  - intros j Hj. apply Hdiffers; nia.
  - apply Hbeyond. nia.
Qed.

Lemma isCandidate_throws_when_not_square_witness :
  5 mod Z.sqrt 5 <> 0 /\
  isCandidate 5 (mkSudokuMap (repeat 0 25)) 0 (5 - 1) 1 = Throw out_of_range.
Proof.
  assert (5 mod Z.sqrt 5 <> 0) as Hmod by (vm_compute; discriminate).
  split; [exact Hmod|].
  apply (isCandidate_throws_when_not_square 5 (mkSudokuMap (repeat 0 25)) 0 1);
    [lia|lia|exact Hmod|reflexivity|lia|].
  simpl. repeat (constructor; [lia|]). constructor.
Defined.

(** ** Tasks that pass in the order of their creation *)

Lemma fold_publish_Some l s : fold_left publish l (Some s) = Some s.
Proof. induction l as [|[s'|] l IH]; simpl; auto. Qed.

Lemma fold_publish_none l : Forall (eq None) l -> fold_left publish l None = None.
Proof. induction 1 as [|o l <- _ IH]; simpl; auto. Qed.

Lemma fold_publish_first l1 s l2 :
  Forall (eq None) l1 -> fold_left publish (l1 ++ Some s :: l2) None = Some s.
Proof.
  intros Hnone. rewrite fold_left_app, (fold_publish_none l1 Hnone). simpl.
  apply fold_publish_Some.
Qed.

Lemma taskwait_in_order l slot w :
  solution (taskwait (length l) [] (mkFork l slot w)) = fold_left publish l slot.
Proof.
  revert slot w. induction l as [|o l IH]; intros slot w; [reflexivity|].
  cbn [length taskwait pending solution writes hd tl].
  rewrite Nat.Div0.mod_0_l. cbn [lookup list_lookup delete list_delete fold_left].
  apply IH.
Qed.

Lemma fork_join_in_order subs :
  solution (fork_join [] subs) = fold_left publish subs None.
Proof. apply taskwait_in_order. Qed.

Lemma mapM_app {A B : Type} (f : A -> result B) (l1 l2 : list A) bs1 bs2 :
  mapM f l1 = Ok bs1 -> mapM f l2 = Ok bs2 -> mapM f (l1 ++ l2) = Ok (bs1 ++ bs2).
Proof.
  revert bs1. induction l1 as [|a l1 IH]; simpl; intros bs1 H1 H2.
  - injection H1 as <-. exact H2.
  - apply bind_Ok in H1 as (b & Hb & H1). apply bind_Ok in H1 as (bs & Hbs & H1).
    injection H1 as <-. rewrite Hb. simpl. rewrite (IH bs Hbs H2). reflexivity.
Qed.

Section InOrder.

Variable N : Z.
Hypothesis N_valid : valid_dimension N.

Lemma spawn_loop_app m x y n i acc :
  (forall j, i <= j < i + Z.of_nat n -> exists c, isCandidate N m x y j = Ok c) ->
  exists L, for_upto n i acc (spawn N m x y) = Ok (Continue (R := unit) (acc ++ L)).
Proof.
  revert i acc. induction n as [|n IH]; intros i acc Hcand.
  - exists []. rewrite app_nil_r. reflexivity.
  - simpl. unfold spawn at 1. destruct (Hcand i ltac:(lia)) as [c ->]. simpl.
    destruct (IH (i + 1) (if c then acc ++ [i] else acc)) as [L ->].
    { intros j Hj. apply Hcand. lia. }
    destruct c; [exists (i :: L); rewrite <- app_assoc; reflexivity|exists L; reflexivity].
Qed.

(** At one cell: the fork-point whose tasks pass in the order of their
    creation returns what the ascending loop returns. *)
Lemma parallel_in_order_loop rec1 rec2 m x y d d' n :
  forall i acc accsubs,
    (forall j, i <= j < i + Z.of_nat n -> exists c, isCandidate N m x y j = Ok c) ->
    (forall j, exists m' sol, setElem N m x y j = Ok m' /\
                 rec1 m' (x + 1) y (d + 1) = Ok (m', sol) /\
                 rec2 m' (x + 1) y (d' + 1) = Ok (m', sol)) ->
    mapM (task N rec1 m x y d) acc = Ok accsubs ->
    Forall (eq None) accsubs ->
    (f <- for_upto n i acc (spawn N m x y) ;;
     subs <- mapM (task N rec1 m x y d)
               (match f with Continue ts => ts | Return _ => [] end) ;;
     Ok (m, solution (fork_join (in_order m x y d) subs)))
    = (f <- for_upto n i tt (attempt N rec2 m x y d') ;;
       match f with
       | Return r => Ok (m, r)
       | Continue _ => Ok (m, None)
       end).
Proof.
  induction n as [|n IH]; intros i acc accsubs Hcand Hrec Hacc Hnone.
  - simpl. rewrite Hacc. simpl. unfold in_order.
    rewrite fork_join_in_order, fold_publish_none by exact Hnone. reflexivity.
  - simpl. unfold spawn at 1, attempt at 1.
    destruct (Hcand i ltac:(lia)) as [c Hc]. rewrite Hc. simpl.
    assert (forall j, i + 1 <= j < i + 1 + Z.of_nat n ->
              exists c, isCandidate N m x y j = Ok c) as Hcand'.
    { intros j Hj. apply Hcand. lia. }
    destruct c; [|apply (IH (i + 1) acc accsubs); assumption].
    destruct (Hrec i) as (m' & sol & Hset & Hrec1 & Hrec2).
    rewrite Hset. simpl. rewrite Hrec2. simpl.
    assert (task N rec1 m x y d i = Ok sol) as Htask.
    { unfold task. rewrite Hset. simpl. rewrite Hrec1. reflexivity. }
    destruct sol as [s|].
    + destruct (spawn_loop_app m x y n (i + 1) (acc ++ [i]) Hcand') as [L ->]. simpl.
      destruct (mapM_all_Ok (task N rec1 m x y d) L) as [subsL HL].
      { intros j _. destruct (Hrec j) as (mj & solj & Hsetj & Hrecj & _).
        exists solj. unfold task. rewrite Hsetj. simpl. rewrite Hrecj. reflexivity. }
      rewrite (mapM_app _ (acc ++ [i]) L (accsubs ++ [Some s]) subsL);
        [|apply mapM_app; [exact Hacc|simpl; rewrite Htask; reflexivity]|exact HL].
      simpl. unfold in_order. rewrite fork_join_in_order.
      rewrite <- app_assoc. simpl. rewrite fold_publish_first by exact Hnone.
      reflexivity.
    + apply (IH (i + 1) (acc ++ [i]) (accsubs ++ [None])); try assumption.
      * apply mapM_app; [exact Hacc|simpl; rewrite Htask; reflexivity].
      * apply Forall_app. split; [exact Hnone|repeat constructor].
Qed.

Variable self self2 : SudokuSolver.
Variable omp_schedule : SudokuMap -> Z -> Z -> Z -> list nat.
Hypothesis self2_sequential : maxParallelizationDepth_ self2 <= 1.

Lemma visit_in_order rec1 rec2 m x y d d' :
  well_formed N m -> in_grid N x y -> 1 <= d' ->
  (forall m0 d0 d0', 1 <= d0' -> well_formed N m0 ->
     rec1 m0 (x + 1) y d0 = rec2 m0 (x + 1) y d0' /\
     exists sol, rec1 m0 (x + 1) y d0 = Ok (m0, sol)) ->
  visit N self in_order rec1 m x y d = visit N self2 omp_schedule rec2 m x y d'.
Proof.
  intros Hwf Hxy Hd' Hrec. unfold visit.
  rewrite (getElem_in_grid N N_valid m x y Hwf Hxy). simpl.
  destruct (negb (cell N m x y =? 0)); [apply Hrec; assumption|].
  replace (d' <? maxParallelizationDepth_ self2) with false by lia.
  assert (forall j, exists m' sol, setElem N m x y j = Ok m' /\
            rec1 m' (x + 1) y (d + 1) = Ok (m', sol) /\
            rec2 m' (x + 1) y (d' + 1) = Ok (m', sol)) as Htasks.
  { intros j. pose proof (setElem_in_grid N N_valid m x y j Hwf Hxy) as Hset.
    pose proof (setElem_well_formed N m x y j _ Hset Hwf) as Hwf'.
    destruct (Hrec _ (d + 1) (d' + 1) ltac:(lia) Hwf') as [Heq [sol Hsol]].
    eexists. exists sol. split; [exact Hset|]. split; [exact Hsol|]. congruence. }
  destruct (d <? maxParallelizationDepth_ self).
  - unfold run_parallel, run_sequential, for_range.
    apply (parallel_in_order_loop rec1 rec2 m x y d d' _ 1 [] []);
      [|exact Htasks|reflexivity|constructor].
    intros j _. apply (isCandidate_Ok N N_valid); assumption.
  - unfold run_sequential. f_equal. apply for_range_ext. intros i [] _.
    unfold attempt. apply bind_ext. intros [|] _; [|reflexivity].
    destruct (Htasks i) as (m' & sol & Hset & H1 & H2).
    rewrite Hset. simpl. rewrite H1, H2. reflexivity.
Qed.

Lemma run_fuel_in_order n m x y d d' :
  (cells_left N x y < n)%nat -> well_formed N m -> 0 <= x <= N -> 0 <= y < N ->
  1 <= d' ->
  run_fuel N self in_order n m x y d = run_fuel N self2 omp_schedule n m x y d'.
Proof.
  revert m x y d d'. induction n as [|n IH]; intros m x y d d' Hn Hwf Hx Hy Hd'; [lia|].
  simpl. unfold run_body. destruct (x >=? N) eqn:Hge.
  - cbv zeta. destruct (y + 1 >=? N) eqn:Hy'; [reflexivity|].
    pose proof (cells_left_wrap N x y ltac:(lia) ltac:(lia)).
    apply visit_in_order; [exact Hwf|split; lia|exact Hd'|].
    intros m0 d0 d0' Hd0' Hwf0. split.
    + apply IH; [lia|exact Hwf0|lia|lia|exact Hd0'].
    + apply (run_fuel_safe N N_valid); [lia|exact Hwf0|lia|lia].
  - pose proof (cells_left_stay N x y ltac:(lia)).
    apply visit_in_order; [exact Hwf|split; lia|exact Hd'|].
    intros m0 d0 d0' Hd0' Hwf0. split.
    + apply IH; [lia|exact Hwf0|lia|lia|exact Hd0'].
    + apply (run_fuel_safe N N_valid); [lia|exact Hwf0|lia|lia].
Qed.

End InOrder.

(** X12. The parallel solver refines the sequential one: when, at every
    fork-point, the tasks pass the critical region in the order of their
    creation, [solve] returns for every parallel depth exactly what the
    sequential solver returns. *)
Theorem solve_in_order_is_sequential N self self2 omp_schedule cells :
  valid_dimension N ->
  maxParallelizationDepth_ self2 <= 1 ->
  solve N self in_order cells = solve N self2 omp_schedule cells.
Proof.
  intros HN Hseq. unfold solve. apply bind_ext. intros m Hnew.
  assert (well_formed N m) as Hwf.
  { unfold SudokuMap_new in Hnew. pose proof (N_int N HN). pose proof (N_pos N HN).
    rewrite size_t_small in Hnew by nia.
    destruct (Z.eqb_spec (Z.of_nat (length cells)) (N * N)); [|discriminate].
    simpl in Hnew. injection Hnew as <-. assumption. }
  unfold run. pose proof (N_pos N HN).
  rewrite (run_fuel_in_order N HN self self2 omp_schedule Hseq _ m 0 0 1 1);
    [reflexivity|lia|exact Hwf|lia|lia|lia].
Qed.

Lemma solve_in_order_is_sequential_witness :
  maxParallelizationDepth_ sequential_solver <= 1 /\
  solve 4 parallel_solver in_order (repeat 0 16)
  = solve 4 sequential_solver second_first (repeat 0 16).
Proof.
  assert (maxParallelizationDepth_ sequential_solver <= 1) as Hseq by (simpl; lia).
  split; [exact Hseq|].
  exact (solve_in_order_is_sequential 4 parallel_solver sequential_solver second_first
           (repeat 0 16) valid_dimension_4 Hseq).
Defined.

(** ** The solution that the sequential solver returns *)

Section Least.

Variable N : Z.
Hypothesis N_valid : valid_dimension N.
Variable self : SudokuSolver.
Variable omp_schedule : SudokuMap -> Z -> Z -> Z -> list nat.
Hypothesis self_sequential : maxParallelizationDepth_ self <= 1.

(** The ascending loop returns the solution of the least candidate whose
    subtree has one. *)
Lemma run_sequential_Some rec m x y d m2 s :
  (forall m' d' m3, rec m' (x + 1) y d' = Ok (m3, None) ->
     forall s', ~ search N m' (x + 1) y s') ->
  run_sequential N rec m x y d = Ok (m2, Some s) ->
  exists i m' m3,
    1 <= i <= N /\ isCandidate N m x y i = Ok true /\ setElem N m x y i = Ok m' /\
    rec m' (x + 1) y (d + 1) = Ok (m3, Some s) /\
    forall j mj s', 1 <= j < i -> isCandidate N m x y j = Ok true ->
      setElem N m x y j = Ok mj -> ~ search N mj (x + 1) y s'.
Proof.
  intros Hrec H. unfold run_sequential in H. apply bind_Ok in H as (f & Hf & H).
  assert (match f with
          | Return (Some s) =>
              exists i m' m3,
                1 <= i <= N /\ isCandidate N m x y i = Ok true /\
                setElem N m x y i = Ok m' /\
                rec m' (x + 1) y (d + 1) = Ok (m3, Some s) /\
                forall j mj s', 1 <= j < i -> isCandidate N m x y j = Ok true ->
                  setElem N m x y j = Ok mj -> ~ search N mj (x + 1) y s'
          | _ => True
          end) as Hloop.
  { clear H. revert f Hf.
    apply (for_range_rule
             (fun j _ => forall j' mj s', 1 <= j' < j ->
                isCandidate N m x y j' = Ok true ->
                setElem N m x y j' = Ok mj -> ~ search N mj (x + 1) y s')
             (fun r => forall f, r = Ok f ->
                match f with
                | Return (Some s) =>
                    exists i m' m3,
                      1 <= i <= N /\ isCandidate N m x y i = Ok true /\
                      setElem N m x y i = Ok m' /\
                      rec m' (x + 1) y (d + 1) = Ok (m3, Some s) /\
                      forall j mj s', 1 <= j < i -> isCandidate N m x y j = Ok true ->
                        setElem N m x y j = Ok mj -> ~ search N mj (x + 1) y s'
                | _ => True
                end)).
    - intros j' mj s' Hj'. lia.
    - intros j [] Hj Hinv. unfold attempt.
      destruct (isCandidate N m x y j) as [[|]| |] eqn:Hc; simpl; try discriminate.
      + destruct (setElem N m x y j) as [mj| |] eqn:Hset; simpl; try discriminate.
        destruct (rec mj (x + 1) y (d + 1)) as [[m3 [s3|]]| |] eqn:Hcall; simpl;
          try discriminate.
        * intros f [= <-]. exists j, mj, m3. repeat split; try assumption; lia.
        * intros j' mj' s' Hj' Hc' Hset'.
          destruct (Z.eq_dec j' j) as [->|Hne]; [|apply (Hinv j'); [lia|assumption..]].
          rewrite Hset in Hset'. injection Hset' as <-.
          exact (Hrec mj (d + 1) m3 Hcall s').
      + intros j' mj' s' Hj' Hc' Hset'.
        destruct (Z.eq_dec j' j) as [->|Hne]; [congruence|].
        apply (Hinv j'); [lia|assumption..].
    - intros [] _ f [= <-]. exact Logic.I. }
  destruct f as [[]|[r|]]; try discriminate.
  injection H as _ ->. exact Hloop.
Qed.

(** The cells that the scan has passed are the same in every grid that
    keeps the pre-filled cells. *)
Lemma prefix_kept m t x y k :
  well_formed N m -> filled_before N m x y -> in_grid N x y ->
  keeps_prefilled m t ->
  (k < Z.to_nat (x + y * N))%nat ->
  elements_ t !! k = elements_ m !! k.
Proof.
  intros Hwf Hfilled [Hx Hy] Hkeep Hk. pose proof (N_pos N N_valid) as HN.
  assert (in_grid N (Z.of_nat k mod N) (Z.of_nat k / N)) as Hin.
  { split; [apply Z.mod_pos_bound; lia|].
    split; [apply Z.div_pos; lia|apply Z.div_lt_upper_bound; nia]. }
  pose proof (Z.div_mod (Z.of_nat k) N ltac:(lia)) as Hdm.
  pose proof (lookup_in_grid N m _ _ Hwf Hin) as Hlook.
  replace (Z.to_nat (Z.of_nat k mod N + Z.of_nat k / N * N)) with k in Hlook by lia.
  rewrite Hlook. apply Hkeep; [exact Hlook|].
  apply Hfilled; [exact Hin|]. destruct Hin as [Hm Hd]. nia.
Qed.

Lemma run_fuel_least n m x y d m2 s s2 :
  1 <= d -> well_formed N m -> filled_before N m x y ->
  0 <= x <= N -> 0 <= y < N ->
  run_fuel N self omp_schedule n m x y d = Ok (m2, Some s) ->
  search N m x y s2 ->
  lex_le (elements_ s) (elements_ s2).
Proof.
  revert m x y d m2. induction n as [|n IH];
    intros m x y d m2 Hd Hwf Hfilled Hx Hy Hrun Hs2; [discriminate|].
  simpl in Hrun. unfold run_body in Hrun.
  destruct (at_end N x y) eqn:Hend.
  - unfold at_end in Hend. apply andb_prop in Hend as [Hge Hge'].
    rewrite Hge in Hrun. cbv zeta in Hrun. rewrite Hge' in Hrun. injection Hrun as _ <-.
    left. inversion Hs2 as [? ? ? _|? ? ? ? ? Hend' _ _ _|? ? ? ? ? ? Hend' _ _ _ _ _];
      subst; try reflexivity; unfold at_end in Hend'; rewrite Hge, Hge' in Hend';
      discriminate.
  - pose proof (settle_in_grid N N_valid x y Hend Hx Hy) as Hin.
    pose proof (settle_filled_before N m x y Hx Hfilled) as Hfilled'.
    apply (search_cell_of_search N m x y s2 Hend) in Hs2.
    assert (visit N self omp_schedule (run_fuel N self omp_schedule n) m
              (settle N x y).1 (settle N x y).2 d = Ok (m2, Some s)) as Hvisit.
    { unfold settle, at_end in *. destruct (x >=? N); simpl in *;
        [rewrite Hend in Hrun|]; exact Hrun. }
    clear Hrun. destruct (settle N x y) as [x' y']. simpl in *.
    destruct Hs2 as (e & Hget & Hcases). unfold visit in Hvisit.
    rewrite Hget in Hvisit. simpl in Hvisit.
    rewrite (getElem_in_grid N N_valid m x' y' Hwf Hin) in Hget. injection Hget as <-.
    assert (forall t, well_formed N t ->
              (forall x0 y0, in_grid N x0 y0 -> (x0, y0) <> (x', y') ->
                 cell N t x0 y0 = cell N m x0 y0) ->
              cell N t x' y' <> 0 -> filled_before N t (x' + 1) y') as Hnext.
    { intros t Hwft Hsame Hnz x0 y0 Hin0 Hbefore.
      destruct (decide (x0 = x' /\ y0 = y')) as [[-> ->]|Hother]; [exact Hnz|].
      rewrite Hsame; [|exact Hin0|intros [= -> ->]; auto].
      apply Hfilled'; [exact Hin0|]. lia. }
    unfold in_grid in Hin.
    destruct Hcases as [[Hnz Hs2]|[Hzero (i2 & m2' & Hi2 & Hc2 & Hset2 & Hs2)]].
    + destruct (Z.eqb_spec (cell N m x' y') 0); [contradiction|]. simpl in Hvisit.
      apply (IH m (x' + 1) y' d m2); try assumption; try lia.
      apply Hnext; auto.
    + rewrite Hzero in Hvisit. simpl in Hvisit.
      replace (d <? maxParallelizationDepth_ self) with false in Hvisit by lia.
      apply run_sequential_Some in Hvisit
        as (i & m' & m3 & Hi & Hc & Hset & Hcall & Hleast);
        [|intros m0 d0 m4 Hnone; exact (run_fuel_none N self omp_schedule n m0 _ _ d0 m4 Hnone)].
      assert (getElem N m x' y' = Ok 0) as Hget0.
      { rewrite (getElem_in_grid N N_valid m x' y' Hwf (conj (proj1 Hin) (proj2 Hin))).
        congruence. }
      pose proof (cell_setElem N N_valid m x' y') as Hcell.
      assert (forall j mj, 1 <= j <= N -> setElem N m x' y' j = Ok mj ->
                well_formed N mj /\ filled_before N mj (x' + 1) y') as Hplaced.
      { intros j mj Hj Hsetj. split; [eapply setElem_well_formed; eassumption|].
        apply Hnext; [eapply setElem_well_formed; eassumption| |].
        - intros x0 y0 Hin0 Hne. rewrite (Hcell j mj x0 y0 Hwf Hin Hin0 Hsetj).
          destruct (decide (x0 = x' /\ y0 = y')) as [[-> ->]|_]; [contradiction|reflexivity].
        - rewrite (Hcell j mj x' y' Hwf Hin Hin Hsetj).
          destruct (decide (x' = x' /\ y' = y')) as [_|Hne]; [lia|exfalso; auto]. }
      destruct (Z.lt_trichotomy i2 i) as [Hlt|[->|Hgt]].
      * exfalso. exact (Hleast i2 m2' s2 ltac:(lia) Hc2 Hset2 Hs2).
      * rewrite Hset in Hset2. injection Hset2 as <-.
        destruct (Hplaced i m' Hi Hset) as [Hwf' Hfilled2].
        apply (IH m' (x' + 1) y' (d + 1) m3); try assumption; lia.
      * right. exists (Z.to_nat (x' + y' * N)), i, i2.
        apply (run_fuel_sound N self omp_schedule n (x' + 1) y') in Hcall as [_ Hs].
        specialize (Hs s eq_refl).
        pose proof (search_keeps_prefilled N _ _ _ _ Hs) as Hkeep.
        pose proof (search_keeps_prefilled N _ _ _ _ Hs2) as Hkeep2.
        pose proof (keeps_prefilled_setElem N m x' y' i m' Hget0 Hset) as Hk1.
        pose proof (keeps_prefilled_setElem N m x' y' i2 m2' Hget0 Hset2) as Hk2.
        pose proof (flat_bounds N x' y' Hin) as Hflat. unfold well_formed in Hwf.
        assert (forall j mj, setElem N m x' y' j = Ok mj ->
                  elements_ mj !! Z.to_nat (x' + y' * N) = Some j) as Hat.
        { intros j mj Hsetj. rewrite (setElem_in_grid N N_valid m x' y' j) in Hsetj
            by assumption.
          injection Hsetj as <-. simpl. apply list_lookup_insert_eq. lia. }
        split; [|split; [apply Hkeep; [apply Hat; exact Hset|lia]|
                 split; [apply Hkeep2; [apply Hat; exact Hset2|lia]|lia]]].
        apply list_eq. intros k.
        destruct (decide (k < Z.to_nat (x' + y' * N))%nat) as [Hk|Hk].
        -- rewrite !lookup_take_lt by exact Hk.
           rewrite (prefix_kept m s x' y' k); try assumption;
             [|intros k0 v Hk0 Hv; apply Hkeep; [apply Hk1|]; assumption].
           rewrite (prefix_kept m s2 x' y' k); try assumption; [reflexivity|].
           intros k0 v Hk0 Hv. apply Hkeep2; [apply Hk2|]; assumption.
        -- rewrite !lookup_take_ge by lia. reflexivity.
Qed.

End Least.

(** X13. The tie-break of the sequential solver: with
    [maxParallelizationDepth_ <= 1] the grid that [solve] returns is the
    least, in the lexicographic order of the stored cells, of the solved
    grids that keep the pre-filled cells of the input. *)
Theorem sequential_solve_returns_least N self omp_schedule cells s sol :
  valid_dimension N ->
  maxParallelizationDepth_ self <= 1 ->
  solve N self omp_schedule cells = Ok (Some s) ->
  well_formed N sol -> solved N sol ->
  keeps_prefilled (mkSudokuMap cells) sol ->
  lex_le (elements_ s) (elements_ sol).
Proof.
  intros HN Hseq Hsolve Hwfs Hsolved Hkeep. pose proof (N_pos N HN) as Hpos.
  unfold solve in Hsolve. apply bind_Ok in Hsolve as (m & Hnew & Hsolve).
  apply bind_Ok in Hsolve as ([m2 r] & Hrun & Hsolve). simpl in Hsolve.
  injection Hsolve as ->.
  assert (m = mkSudokuMap cells /\ well_formed N m) as [-> Hwf].
  { unfold SudokuMap_new in Hnew. pose proof (N_int N HN).
    rewrite size_t_small in Hnew by nia.
    destruct (Z.eqb_spec (Z.of_nat (length cells)) (N * N)); [|discriminate].
    simpl in Hnew. injection Hnew as <-. split; [reflexivity|assumption]. }
  assert (filled_before N (mkSudokuMap cells) 0 0) as Hfilled.
  { intros x0 y0 [Hx0 Hy0] Hbefore. lia. }
  destruct (solved_full_legal N HN sol Hsolved) as [Hfull Hlegal].
  unfold run in Hrun.
  apply (run_fuel_least N HN self omp_schedule Hseq (Datatypes.S (cells_left N 0 0))
           (mkSudokuMap cells) 0 0 1 m2 s sol); try assumption; try lia.
  apply (extension_reached N HN sol (Datatypes.S (cells_left N 0 0))); try assumption;
    try lia.
  intros x0 y0 _ Hnz. apply keeps_prefilled_cell; assumption.
Qed.

Lemma sequential_solve_returns_least_witness :
  solve 4 sequential_solver second_first (repeat 0 16)
  = Ok (Some (mkSudokuMap empty4_first)) /\
  solved 4 (mkSudokuMap empty4_second) /\
  lex_le empty4_first empty4_second.
Proof.
  assert (solve 4 sequential_solver second_first (repeat 0 16)
          = Ok (Some (mkSudokuMap empty4_first))) as Hsolve by (vm_compute; reflexivity).
  assert (solved 4 (mkSudokuMap empty4_second)) as Hsolved
      by (apply is_solved_spec; vm_compute; reflexivity).
  split; [exact Hsolve|]. split; [exact Hsolved|].
  apply (sequential_solve_returns_least 4 sequential_solver second_first (repeat 0 16)
           (mkSudokuMap empty4_first) (mkSudokuMap empty4_second) valid_dimension_4).
  - simpl. lia.
  - exact Hsolve.
  - reflexivity.
  - exact Hsolved.
  - intros k v Hk Hv. simpl in Hk.
    do 16 (destruct k as [|k]; [injection Hk as <-; contradiction|]). discriminate.
Defined.

(** ** The loops over the matrix *)

(** A loop whose iterations lead from one state of a chain to the next. *)
Lemma for_range_chain {S R : Type} (st : Z -> S) lo hi
    (body : Z -> S -> result (flow S R)) :
  lo <= hi ->
  (forall j, lo <= j < hi -> body j (st j) = Ok (Continue (st (j + 1)))) ->
  for_range lo hi (st lo) body = Ok (Continue (st hi)).
Proof.
  intros Hle Hbody.
  apply (for_range_rule (fun j s => s = st j) (fun r => r = Ok (Continue (st hi))));
    [reflexivity| |].
  - intros j s' Hj ->. rewrite Hbody by exact Hj. reflexivity.
  - intros s' ->. replace (Z.max lo hi) with hi by lia. reflexivity.
Qed.

Lemma for_step_chain {S R : Type} (st : Z -> S) step hi
    (body : Z -> S -> result (flow S R)) n :
  forall fuel lo,
    0 < step -> 0 <= lo -> hi = lo + Z.of_nat n * step -> hi < 2 ^ 64 ->
    (n < fuel)%nat ->
    (forall j, lo <= j < hi -> (exists k, j = lo + Z.of_nat k * step) ->
       body j (st j) = Ok (Continue (st (j + step)))) ->
    for_step fuel lo hi step (st lo) body = Ok (Continue (st hi)).
Proof.
  induction n as [|n IH]; intros fuel lo Hstep Hlo Hhi Hwrap Hfuel Hbody;
    (destruct fuel as [|fuel]; [lia|]); simpl.
  - replace (lo <? hi) with false by lia. f_equal. f_equal. f_equal. lia.
  - replace (lo <? hi) with true by nia.
    rewrite Hbody; [|nia|exists O; lia]. simpl.
    rewrite size_t_small by nia.
    apply IH; [lia|lia|nia|lia|lia|].
    intros j Hj [k Hk]. apply Hbody; [lia|]. exists (Datatypes.S k). lia.
Qed.

Lemma for_range_step_chain {S R : Type} (st : Z -> S) step hi
    (body : Z -> S -> result (flow S R)) :
  0 < step -> 0 <= hi < 2 ^ 64 -> hi mod step = 0 ->
  (forall j, 0 <= j < hi -> j mod step = 0 ->
     body j (st j) = Ok (Continue (st (j + step)))) ->
  for_range_step 0 hi step (st 0) body = Ok (Continue (st hi)).
Proof.
  intros Hstep Hhi Hmod Hbody. unfold for_range_step.
  pose proof (Z.div_mod hi step ltac:(lia)) as Hdm.
  assert (0 <= hi / step) by (apply Z.div_pos; lia).
  assert (hi / step <= hi) by (apply Z.div_le_upper_bound; nia).
  apply (for_step_chain st step hi body (Z.to_nat (hi / step)));
    [lia|lia|rewrite Z2Nat.id by lia; lia|lia|lia|].
  intros j Hj [k ->]. apply Hbody; [exact Hj|].
  rewrite Z.add_0_l. apply Z.mod_mul. lia.
Qed.

Section MatrixLoops.

Variable T : Type.
Variable T_default : T.
Variable T_plus : T -> T -> T.
Variable dimension : Z.
Variable a : Matrix2D T.
Variable b : list T.
Variable output : list T.
Hypothesis sizes : benchmark_sizes T dimension a b output.

Local Abbreviation state := (fun progress => accumulated T T_default T_plus dimension a b progress output).
Local Abbreviation step := (accumulate T T_plus a b).

Lemma accumulated_ext p1 p2 :
  (forall r, 0 <= r < dimension -> p1 r = p2 r) -> state p1 = state p2.
Proof.
  intros Hext. unfold accumulated. apply imap_ext. intros k v Hk. simpl.
  destruct sizes as (_ & _ & _ & _ & Hout).
  apply lookup_lt_Some in Hk. rewrite Hext by lia. reflexivity.
Qed.

(** One statement adds the term of column [c] to [output[r]]. *)
Lemma accumulate_state p r c :
  0 <= r < dimension -> 0 <= c < dimension -> p r = c ->
  step (state p) r c = Ok (Continue (state (fun r' => if r' =? r then c + 1 else p r'))).
Proof.
  intros Hr Hc Hp. destruct sizes as (Hdim & Hw & Ha & Hb & Hout).
  unfold accumulate, Matrix2D_getElem, at_. rewrite Hw.
  rewrite (size_t_small r), (size_t_small c), (size_t_small dimension) by lia.
  rewrite size_t_small by nia.
  destruct (matrix_elements T a !! Z.to_nat (r + c * dimension)) as [av|] eqn:Hav;
    [|apply lookup_ge_None in Hav; nia].
  destruct (b !! Z.to_nat c) as [bv|] eqn:Hbv; [|apply lookup_ge_None in Hbv; lia].
  destruct (output !! Z.to_nat r) as [v|] eqn:Hv; [|apply lookup_ge_None in Hv; lia].
  simpl. unfold accumulated at 1. rewrite list_lookup_imap, Hv. simpl.
  do 2 f_equal. apply list_eq. intros k. unfold accumulated.
  rewrite list_lookup_imap.
  destruct (decide (k = Z.to_nat r)) as [->|Hne].
  - rewrite list_lookup_insert_eq by (rewrite length_imap; lia).
    rewrite Hv. simpl. rewrite !Z2Nat.id by lia. rewrite Z.eqb_refl, Hp.
    rewrite seqZ_app by lia. rewrite fold_left_app. simpl.
    replace (Z.of_nat 0 + (0 + c)) with c by lia.
    unfold term. rewrite Hav, Hbv. reflexivity.
  - rewrite list_lookup_insert_ne by auto. rewrite list_lookup_imap.
    destruct (output !! k) as [w|] eqn:Hw'; [|reflexivity]. simpl.
    replace (Z.of_nat k =? r) with false by lia. reflexivity.
Qed.

(** The rows below [i] are complete, the others untouched. *)
Local Abbreviation rows_done i := (fun r : Z => if r <? i then dimension else 0).

Lemma PlainForLoop_row i :
  0 <= i < dimension ->
  for_range 0 dimension (state (rows_done i)) (fun j out => step out i j)
  = Ok (Continue (state (rows_done (i + 1)))).
Proof.
  intros Hi. destruct sizes as (Hdim & _).
  rewrite (accumulated_ext (rows_done i)
             (fun r => if r <? i then dimension else if r =? i then 0 else 0))
    by (intros r Hr; repeat case_match; lia).
  rewrite (accumulated_ext (rows_done (i + 1))
             (fun r => if r <? i then dimension else if r =? i then dimension else 0))
    by (intros r Hr; repeat case_match; lia).
  apply (for_range_chain
           (fun j => state (fun r => if r <? i then dimension
                                     else if r =? i then j else 0))); [lia|].
  intros j Hj. rewrite accumulate_state; [|lia|lia|].
  - do 2 f_equal. apply accumulated_ext. intros r Hr. repeat case_match; lia.
  - replace (i <? i) with false by lia. rewrite Z.eqb_refl. reflexivity.
Qed.

Lemma PlainForLoop_state :
  PlainForLoop_iteration T T_plus dimension a b (state (rows_done 0))
  = Ok (Continue (state (rows_done dimension))).
Proof.
  destruct sizes as (Hdim & _). unfold PlainForLoop_iteration.
  apply (for_range_chain (fun i => state (rows_done i))); [lia|].
  intros i Hi. apply PlainForLoop_row. exact Hi.
Qed.

(** A tile of [u] rows from row [i], column by column. *)
Lemma UnrollAndJam_tile u i :
  0 < u -> 0 <= i -> i + u <= dimension ->
  for_range 0 dimension (state (rows_done i))
    (fun j out => for_range 0 u out (fun k out => step out (size_t (i + k)) j))
  = Ok (Continue (state (rows_done (i + u)))).
Proof.
  intros Hu Hi Hiu. destruct sizes as (Hdim & _).
  rewrite (accumulated_ext (rows_done i)
             (fun r => if r <? i then dimension else if r <? i + u then 0 else 0))
    by (intros r Hr; repeat case_match; lia).
  rewrite (accumulated_ext (rows_done (i + u))
             (fun r => if r <? i then dimension else if r <? i + u then dimension else 0))
    by (intros r Hr; repeat case_match; lia).
  apply (for_range_chain
           (fun j => state (fun r => if r <? i then dimension
                                     else if r <? i + u then j else 0))); [lia|].
  intros j Hj.
  rewrite (accumulated_ext _
             (fun r => if r <? i then dimension
                       else if r <? i + 0 then j + 1
                       else if r <? i + u then j else 0))
    by (intros r Hr; repeat case_match; lia).
  rewrite (accumulated_ext (fun r => if r <? i then dimension
                                     else if r <? i + u then j + 1 else 0)
             (fun r => if r <? i then dimension
                       else if r <? i + u then j + 1
                       else if r <? i + u then j else 0))
    by (intros r Hr; repeat case_match; lia).
  apply (for_range_chain
           (fun k => state (fun r => if r <? i then dimension
                                     else if r <? i + k then j + 1
                                     else if r <? i + u then j else 0))); [lia|].
  intros k Hk. rewrite size_t_small by lia.
  rewrite accumulate_state; [|lia|lia|].
  - do 2 f_equal. apply accumulated_ext. intros r Hr. repeat case_match; lia.
  - repeat case_match; lia.
Qed.

Lemma UnrollAndJam_state u :
  0 < u -> dimension mod u = 0 ->
  UnrollAndJam_iteration T T_plus dimension a b u (state (rows_done 0))
  = Ok (Continue (state (rows_done dimension))).
Proof.
  intros Hu Hmod. destruct sizes as (Hdim & _). unfold UnrollAndJam_iteration.
  apply (for_range_step_chain (fun i => state (rows_done i))); try lia.
  intros i Hi Hmodi. apply UnrollAndJam_tile; try lia.
  pose proof (Z.div_mod i u ltac:(lia)). pose proof (Z.div_mod dimension u ltac:(lia)).
  assert (i / u < dimension / u) by (apply Z.div_lt_upper_bound; nia). nia.
Qed.

(** A tile of [tx] rows from row [i] and [ty] columns from column [j]. *)
Lemma LoopTiling_tile tx ty i j :
  0 < tx -> 0 < ty -> 0 <= i -> i + tx <= dimension -> 0 <= j -> j + ty <= dimension ->
  for_range 0 tx
    (state (fun r => if r <? i then dimension else if r <? i + tx then j else 0))
    (fun k out => for_range 0 ty out
                    (fun m out => step out (size_t (i + k)) (size_t (j + m))))
  = Ok (Continue
          (state (fun r => if r <? i then dimension
                           else if r <? i + tx then j + ty else 0))).
Proof.
  intros Htx Hty Hi Hitx Hj Hjty. destruct sizes as (Hdim & _).
  rewrite (accumulated_ext _
             (fun r => if r <? i then dimension
                       else if r <? i + 0 then j + ty
                       else if r <? i + tx then j else 0))
    by (intros r Hr; repeat case_match; lia).
  rewrite (accumulated_ext (fun r => if r <? i then dimension
                                     else if r <? i + tx then j + ty else 0)
             (fun r => if r <? i then dimension
                       else if r <? i + tx then j + ty
                       else if r <? i + tx then j else 0))
    by (intros r Hr; repeat case_match; lia).
  apply (for_range_chain
           (fun k => state (fun r => if r <? i then dimension
                                     else if r <? i + k then j + ty
                                     else if r <? i + tx then j else 0))); [lia|].
  intros k Hk.
  rewrite (accumulated_ext _
             (fun r => if r <? i then dimension
                       else if r <? i + k then j + ty
                       else if r =? i + k then j + 0
                       else if r <? i + tx then j else 0))
    by (intros r Hr; repeat case_match; lia).
  rewrite (accumulated_ext (fun r => if r <? i then dimension
                                     else if r <? i + (k + 1) then j + ty
                                     else if r <? i + tx then j else 0)
             (fun r => if r <? i then dimension
                       else if r <? i + k then j + ty
                       else if r =? i + k then j + ty
                       else if r <? i + tx then j else 0))
    by (intros r Hr; repeat case_match; lia).
  apply (for_range_chain
           (fun m => state (fun r => if r <? i then dimension
                                     else if r <? i + k then j + ty
                                     else if r =? i + k then j + m
                                     else if r <? i + tx then j else 0))); [lia|].
  intros m Hm. rewrite !size_t_small by lia.
  rewrite accumulate_state; [|lia|lia|].
  - do 2 f_equal. apply accumulated_ext. intros r Hr. repeat case_match; lia.
  - repeat case_match; lia.
Qed.

Lemma LoopTiling_state tx ty :
  0 < tx -> dimension mod tx = 0 -> 0 < ty -> dimension mod ty = 0 ->
  LoopTiling_iteration T T_plus dimension a b tx ty (state (rows_done 0))
  = Ok (Continue (state (rows_done dimension))).
Proof.
  intros Htx Hmx Hty Hmy. destruct sizes as (Hdim & _). unfold LoopTiling_iteration.
  apply (for_range_step_chain (fun i => state (rows_done i))); try lia.
  intros i Hi Hmodi.
  assert (i + tx <= dimension) as Hitx.
  { pose proof (Z.div_mod i tx ltac:(lia)). pose proof (Z.div_mod dimension tx ltac:(lia)).
    assert (i / tx < dimension / tx) by (apply Z.div_lt_upper_bound; nia). nia. }
  rewrite (accumulated_ext (rows_done i)
             (fun r => if r <? i then dimension else if r <? i + tx then 0 else 0))
    by (intros r Hr; repeat case_match; lia).
  rewrite (accumulated_ext (rows_done (i + tx))
             (fun r => if r <? i then dimension
                       else if r <? i + tx then dimension else 0))
    by (intros r Hr; repeat case_match; lia).
  apply (for_range_step_chain
           (fun j => state (fun r => if r <? i then dimension
                                     else if r <? i + tx then j else 0))); try lia.
  intros j Hj Hmodj. apply LoopTiling_tile; try lia.
  pose proof (Z.div_mod j ty ltac:(lia)). pose proof (Z.div_mod dimension ty ltac:(lia)).
  assert (j / ty < dimension / ty) by (apply Z.div_lt_upper_bound; nia). nia.
Qed.

Lemma state_start : state (rows_done 0) = output.
Proof.
  destruct sizes as (Hdim & _). unfold accumulated. apply list_eq. intros k.
  rewrite list_lookup_imap. destruct (output !! k); [|reflexivity].
  cbn [fmap option_fmap option_map].
  destruct (Z.ltb_spec (Z.of_nat k) 0); [lia|reflexivity].
Qed.

Lemma state_end : state (rows_done dimension) = state (fun _ => dimension).
Proof. apply accumulated_ext. intros r Hr. case_match; lia. Qed.

End MatrixLoops.

(** X14. One iteration of [PlainForLoop] on a square matrix and vectors of
    its dimension throws nothing and adds to each [output[r]] the terms
    [a.getElem(r, c) + b.at(c)] for [c = 0, 1, ...] up to the dimension, in
    this order. *)
Theorem PlainForLoop_accumulates T T_default T_plus dimension a b output :
  benchmark_sizes T dimension a b output ->
  PlainForLoop_iteration T T_plus dimension a b output
  = Ok (Continue (accumulated T T_default T_plus dimension a b (fun _ => dimension)
                    output)).
Proof.
  intros Hsizes.
  pose proof (PlainForLoop_state T T_default T_plus dimension a b output Hsizes) as H.
  pose proof (state_start T T_default T_plus dimension a b output Hsizes) as E.
  pose proof (state_end T T_default T_plus dimension a b output Hsizes) as E'.
  cbv beta in H, E, E'. rewrite E in H. rewrite H, E'. reflexivity.
Qed.

Lemma benchmark_sizes_2 :
  benchmark_sizes Z 2 (mkMatrix2D Z [1; 2; 3; 4] 2 2) [10; 20] [100; 200].
Proof. repeat split. Defined.

Lemma PlainForLoop_accumulates_witness :
  PlainForLoop_iteration Z Z.add 2 (mkMatrix2D Z [1; 2; 3; 4] 2 2) [10; 20] [100; 200]
  = Ok (Continue [100 + (1 + 10) + (3 + 20); 200 + (2 + 10) + (4 + 20)]).
Proof.
  rewrite (PlainForLoop_accumulates Z 0 Z.add 2 _ _ _ benchmark_sizes_2). reflexivity.
Defined.

(** X15. Unroll-and-jam does not change the result: when the unroll size
    is positive and divides the dimension, one iteration of [UnrollAndJam]
    returns exactly what one iteration of [PlainForLoop] returns, for any
    element type and any addition, because each [output[r]] receives the
    same terms in the same order. *)
Theorem UnrollAndJam_is_PlainForLoop T T_plus dimension a b output unrollSize :
  benchmark_sizes T dimension a b output ->
  0 < unrollSize -> dimension mod unrollSize = 0 ->
  UnrollAndJam_iteration T T_plus dimension a b unrollSize output
  = PlainForLoop_iteration T T_plus dimension a b output.
Proof.
  intros Hsizes Hu Hmod.
  assert T as T_default.
  { destruct Hsizes as (Hd & _ & _ & _ & Ho).
    destruct output as [|v ?]; [exfalso; simpl in Ho; lia|exact v]. }
  pose proof (UnrollAndJam_state T T_default T_plus dimension a b output Hsizes
                unrollSize Hu Hmod) as H1.
  pose proof (PlainForLoop_state T T_default T_plus dimension a b output Hsizes) as H2.
  pose proof (state_start T T_default T_plus dimension a b output Hsizes) as E.
  cbv beta in H1, H2, E. rewrite E in H1, H2.
  rewrite H1, H2. reflexivity.
Qed.

Lemma UnrollAndJam_is_PlainForLoop_witness :
  2 mod 2 = 0 /\
  UnrollAndJam_iteration Z Z.add 2 (mkMatrix2D Z [1; 2; 3; 4] 2 2) [10; 20] 2 [100; 200]
  = PlainForLoop_iteration Z Z.add 2 (mkMatrix2D Z [1; 2; 3; 4] 2 2) [10; 20] [100; 200].
Proof.
  split; [reflexivity|].
  apply (UnrollAndJam_is_PlainForLoop Z Z.add 2 _ _ _ 2 benchmark_sizes_2);
    [lia|reflexivity].
Defined.

(** X16. Loop tiling does not change the result: when both tile sizes are
    positive and divide the dimension, one iteration of [LoopTiling]
    returns exactly what one iteration of [PlainForLoop] returns, for any
    element type and any addition. *)
Theorem LoopTiling_is_PlainForLoop T T_plus dimension a b output
    tileSizeX tileSizeY :
  benchmark_sizes T dimension a b output ->
  0 < tileSizeX -> dimension mod tileSizeX = 0 ->
  0 < tileSizeY -> dimension mod tileSizeY = 0 ->
  LoopTiling_iteration T T_plus dimension a b tileSizeX tileSizeY output
  = PlainForLoop_iteration T T_plus dimension a b output.
Proof.
  intros Hsizes Hx Hmx Hy Hmy.
  assert T as T_default.
  { destruct Hsizes as (Hd & _ & _ & _ & Ho).
    destruct output as [|v ?]; [exfalso; simpl in Ho; lia|exact v]. }
  pose proof (LoopTiling_state T T_default T_plus dimension a b output Hsizes
                tileSizeX tileSizeY Hx Hmx Hy Hmy) as H1.
  pose proof (PlainForLoop_state T T_default T_plus dimension a b output Hsizes) as H2.
  pose proof (state_start T T_default T_plus dimension a b output Hsizes) as E.
  cbv beta in H1, H2, E. rewrite E in H1, H2.
  rewrite H1, H2. reflexivity.
Qed.

Lemma LoopTiling_is_PlainForLoop_witness :
  2 mod 2 = 0 /\ 2 mod 1 = 0 /\
  LoopTiling_iteration Z Z.add 2 (mkMatrix2D Z [1; 2; 3; 4] 2 2) [10; 20] 2 1 [100; 200]
  = PlainForLoop_iteration Z Z.add 2 (mkMatrix2D Z [1; 2; 3; 4] 2 2) [10; 20] [100; 200].
Proof.
  split; [reflexivity|]. split; [reflexivity|].
  apply (LoopTiling_is_PlainForLoop Z Z.add 2 _ _ _ 2 1 benchmark_sizes_2);
    [lia|reflexivity|lia|reflexivity].
Defined.

(** ** A tile size that does not divide the dimension *)

Lemma for_range_chain_throw {S R : Type} (st : Z -> S) lo hi
    (body : Z -> S -> result (flow S R)) k e :
  lo <= k < hi ->
  (forall j, lo <= j < k -> body j (st j) = Ok (Continue (st (j + 1)))) ->
  body k (st k) = Throw e ->
  for_range lo hi (st lo) body = Throw e.
Proof.
  intros Hk Hbody Hthrow.
  apply (for_range_rule (fun j s => j <= k /\ s = st j) (fun r => r = Throw e)).
  - split; [lia|reflexivity].
  - intros j s' Hj [Hjk ->]. destruct (Z.eq_dec j k) as [->|Hne].
    + rewrite Hthrow. reflexivity.
    + rewrite Hbody by lia. split; [lia|reflexivity].
  - intros s' [Hmax _]. lia.
Qed.

Lemma for_step_chain_throw {S R : Type} (st : Z -> S) step hi
    (body : Z -> S -> result (flow S R)) e n :
  forall fuel lo,
    0 < step -> 0 <= lo -> lo + Z.of_nat n * step < hi -> hi < 2 ^ 64 ->
    (n < fuel)%nat ->
    (forall k, (k < n)%nat ->
       body (lo + Z.of_nat k * step) (st (lo + Z.of_nat k * step))
       = Ok (Continue (st (lo + Z.of_nat k * step + step)))) ->
    body (lo + Z.of_nat n * step) (st (lo + Z.of_nat n * step)) = Throw e ->
    for_step fuel lo hi step (st lo) body = Throw e.
Proof.
  induction n as [|n IH]; intros fuel lo Hstep Hlo Hhi Hwrap Hfuel Hbody Hthrow;
    (destruct fuel as [|fuel]; [lia|]); simpl.
  - replace (lo <? hi) with true by lia.
    replace (lo + Z.of_nat 0 * step) with lo in Hthrow by lia.
    rewrite Hthrow. reflexivity.
  - replace (lo <? hi) with true by nia.
    pose proof (Hbody O ltac:(lia)) as H0.
    replace (lo + Z.of_nat 0 * step) with lo in H0 by lia.
    rewrite H0. simpl. rewrite size_t_small by nia.
    apply IH; [lia|lia|nia|lia|lia| |].
    + intros k Hk. pose proof (Hbody (Datatypes.S k) ltac:(lia)) as Hk'.
      replace (lo + Z.of_nat (Datatypes.S k) * step) with (lo + step + Z.of_nat k * step)
        in Hk' by lia.
      exact Hk'.
    + replace (lo + step + Z.of_nat n * step) with (lo + Z.of_nat (Datatypes.S n) * step)
        by lia.
      exact Hthrow.
Qed.

Section MatrixTiles.

Variable T : Type.
Variable T_default : T.
Variable T_plus : T -> T -> T.
Variable dimension : Z.
Variable a : Matrix2D T.
Variable b : list T.
Variable output : list T.
Hypothesis sizes : benchmark_sizes T dimension a b output.

Local Abbreviation state := (fun progress => accumulated T T_default T_plus dimension a b progress output).
Local Abbreviation step := (accumulate T T_plus a b).

(** The row after the last one: [output.at] throws, if not already
    [a.getElem]. *)
Lemma accumulate_beyond p c :
  0 <= c < dimension ->
  step (state p) dimension c = Throw out_of_range.
Proof.
  intros Hc. destruct sizes as (Hdim & Hw & Ha & Hb & Hout).
  unfold accumulate, Matrix2D_getElem, at_. rewrite Hw.
  rewrite (size_t_small c), (size_t_small dimension) by lia.
  rewrite size_t_small by nia.
  destruct (matrix_elements T a !! Z.to_nat (dimension + c * dimension)); [|reflexivity].
  simpl.
  destruct (b !! Z.to_nat c) as [bv|] eqn:Hbv; [|apply lookup_ge_None in Hbv; lia].
  simpl. rewrite (proj2 (lookup_ge_None _ _)); [reflexivity|].
  unfold accumulated. rewrite length_imap. lia.
Qed.

Lemma UnrollAndJam_last_tile u i :
  0 < u -> 0 <= i < dimension -> dimension < i + u ->
  for_range 0 dimension
    (state (fun r => if r <? i then dimension else 0))
    (fun j out => for_range 0 u out (fun k out => step out (size_t (i + k)) j))
  = Throw out_of_range.
Proof.
  intros Hu Hi Hiu. destruct sizes as (Hdim & _).
  rewrite (accumulated_ext T T_default T_plus dimension a b output sizes
             (fun r => if r <? i then dimension else 0)
             (fun r => if r <? i then dimension else if r <? i + 0 then 0 + 1 else 0))
    by (intros r Hr; repeat case_match; lia).
  apply (for_range_chain_throw
           (fun j => state (fun r => if r <? i then dimension
                                     else if r <? i + 0 then j + 1 else 0))
           0 dimension _ 0 out_of_range); [lia|intros j Hj; lia|].
  apply (for_range_chain_throw
           (fun k => state (fun r => if r <? i then dimension
                                     else if r <? i + k then 0 + 1 else 0))
           0 u _ (dimension - i) out_of_range); [lia| |].
  - intros k Hk. rewrite size_t_small by lia.
    rewrite (accumulate_state T T_default T_plus dimension a b output sizes);
      [|lia|lia|].
    + do 2 f_equal.
      apply (accumulated_ext T T_default T_plus dimension a b output sizes).
      intros r Hr. repeat case_match; lia.
    + repeat case_match; lia.
  - rewrite size_t_small by lia. replace (i + (dimension - i)) with dimension by lia.
    apply accumulate_beyond. lia.
Qed.

End MatrixTiles.

(** X17. The loops do not clamp the last tile: when the unroll size is
    positive and does not divide the dimension, one iteration of
    [UnrollAndJam] throws the out-of-range exception. *)
Theorem UnrollAndJam_throws_when_not_dividing T T_plus dimension a b output unrollSize :
  benchmark_sizes T dimension a b output ->
  0 < unrollSize -> dimension mod unrollSize <> 0 ->
  UnrollAndJam_iteration T T_plus dimension a b unrollSize output = Throw out_of_range.
Proof.
  intros Hsizes Hu Hmod.
  assert T as T_default.
  { destruct Hsizes as (Hd & _ & _ & _ & Ho).
    destruct output as [|v ?]; [exfalso; simpl in Ho; lia|exact v]. }
  pose proof Hsizes as (Hdim & _).
  pose proof (Z.div_mod dimension unrollSize ltac:(lia)) as Hdm.
  pose proof (Z.mod_pos_bound dimension unrollSize Hu) as Hbound.
  assert (0 <= dimension / unrollSize) as Hq by (apply Z.div_pos; lia).
  assert (dimension / unrollSize <= dimension) as Hq'
      by (apply Z.div_le_upper_bound; nia).
  pose proof (state_start T T_default T_plus dimension a b output Hsizes) as E.
  cbv beta in E. rewrite <- E at 1. unfold UnrollAndJam_iteration, for_range_step.
  apply (for_step_chain_throw
           (fun i => accumulated T T_default T_plus dimension a b
                       (fun r => if r <? i then dimension else 0) output)
           unrollSize dimension _ out_of_range (Z.to_nat (dimension / unrollSize)));
    [lia|lia|rewrite Z2Nat.id by lia; lia|lia|lia| |].
  - intros k Hk. rewrite Z.add_0_l.
    apply (UnrollAndJam_tile T T_default T_plus dimension a b output Hsizes); nia.
  - rewrite Z.add_0_l, Z2Nat.id by lia.
    apply (UnrollAndJam_last_tile T T_default T_plus dimension a b output Hsizes); nia.
Qed.

Lemma UnrollAndJam_throws_when_not_dividing_witness :
  2 mod 3 <> 0 /\
  UnrollAndJam_iteration Z Z.add 2 (mkMatrix2D Z [1; 2; 3; 4] 2 2) [10; 20] 3 [100; 200]
  = Throw out_of_range.
Proof.
  assert (2 mod 3 <> 0) as Hmod by (vm_compute; discriminate).
  split; [exact Hmod|].
  apply (UnrollAndJam_throws_when_not_dividing Z Z.add 2 _ _ _ 3 benchmark_sizes_2);
    [lia|exact Hmod].
Defined.

(** X18. A matrix made by the constructor holds [T()] everywhere:
    [getElem(x, y)] returns [T()] when the flat index [x + y * width] is
    below [width * height] and throws the out-of-range exception otherwise;
    [height] is consulted nowhere else, so [x] may exceed [width]. *)
Theorem Matrix2D_new_getElem T T_default width height x y :
  0 <= width < 2 ^ 64 -> 0 <= height -> width * height < 2 ^ 64 ->
  0 <= x < 2 ^ 64 -> 0 <= y < 2 ^ 64 -> x + y * width < 2 ^ 64 ->
  Matrix2D_getElem T (Matrix2D_new T T_default width height) x y
  = if x + y * width <? width * height then Ok T_default else Throw out_of_range.
Proof.
  intros Hw Hh Hsize Hx Hy Hflat. unfold Matrix2D_getElem, Matrix2D_new, at_. simpl.
  rewrite (size_t_small x), (size_t_small y), (size_t_small width) by lia.
  rewrite (size_t_small (x + y * width)) by nia.
  rewrite (size_t_small (width * height)) by nia.
  destruct (Z.ltb_spec (x + y * width) (width * height)) as [Hlt|Hge].
  - rewrite lookup_replicate_2 by nia. reflexivity.
  - rewrite (proj2 (lookup_ge_None _ _)); [reflexivity|].
    rewrite length_replicate. nia.
Qed.

Lemma Matrix2D_new_getElem_witness :
  Matrix2D_getElem Z (Matrix2D_new Z 0 3 2) 4 0
  = (if 4 + 0 * 3 <? 3 * 2 then Ok 0 else Throw out_of_range).
Proof.
  apply (Matrix2D_new_getElem Z 0 3 2 4 0); lia.
Defined.
